(** * The background-search orchestrator (src/utils/background_search.ts)

    A shallow embedding of [normalizeQuery] and [createOrchestrator]: the
    closure variables of one orchestrator instance become the fields of a
    [state] record, the private functions and the public methods become
    state transformers, and the event loop (the debounce timer, the
    promise chain built by [run]) becomes a step function over explicit
    [action]s.

    Conventions of the model.
    - JavaScript strings are sequences of Latin-1 code units (Rocq's
      [string]); the numbers that the code compares or subtracts
      ([minLength], [cacheTTL], [Date.now()]) are integers ([Z]).
    - [Date.now()] is an argument [now] of every step; nothing is assumed
      about how successive readings relate.
    - Abort controllers are shared mutable objects: the state keeps the
      [aborted] flag of every controller created so far, and
      [abortController] holds the identity of one of them.  Timers are
      kept likewise, as the list of the timers armed in the environment.
    - The promise chain of an attempt runs one link per step, so that
      links of different attempts and method calls interleave freely.
    - The injected [fetch] and the four callbacks are opaque.  Each call
      of one of them is recorded in the [log], together with what
      [getState()] would have returned at that moment.  They are taken to
      return normally and not to call back into the orchestrator; a
      failing [fetch] is a rejected promise ([Reject]).
    - An absent callback is replaced by [NOOP] in the source; the log
      records the call of the slot either way. *)

From Stdlib Require Import ZArith Ascii String.
From stdpp Require Import gmap strings list fin_maps.

Local Open Scope string_scope.
Local Open Scope list_scope.
Local Open Scope Z_scope.

(** ** Strings: [normalizeQuery] *)

Module Str.

(** The Latin-1 part of the class [\s] (and of what [trim] removes):
    TAB, LF, VT, FF, CR, SPACE and NBSP. *)
Definition is_space (c : ascii) : bool :=
  let n := nat_of_ascii c in
  ((9 <=? n) && (n <=? 13))%nat || (n =? 32)%nat || (n =? 160)%nat.

(** [toLowerCase] on one Latin-1 code unit: A-Z, and the accented
    capitals U+00C0..U+00DE except the multiplication sign U+00D7. *)
Definition lower (c : ascii) : ascii :=
  let n := nat_of_ascii c in
  if ((65 <=? n) && (n <=? 90))%nat
     || ((192 <=? n) && (n <=? 222) && negb (n =? 215))%nat
  then ascii_of_nat (n + 32) else c.

Fixpoint trimStart (s : string) : string :=
  match s with
  | EmptyString => EmptyString
  | String c r => if is_space c then trimStart r else s
  end.

Fixpoint trimEnd (s : string) : string :=
  match s with
  | EmptyString => EmptyString
  | String c r =>
      match trimEnd r with
      | EmptyString => if is_space c then EmptyString else String c EmptyString
      | r' => String c r'
      end
  end.

Definition trim (s : string) : string := trimEnd (trimStart s).

(** [s.replace(/\s+/g, ' ')]: [inrun] tells that the previous code unit
    was white space, whose run has already produced its one blank. *)
Fixpoint collapse (inrun : bool) (s : string) : string :=
  match s with
  | EmptyString => EmptyString
  | String c r =>
      if is_space c
      then (if inrun then collapse true r else String " " (collapse true r))
      else String c (collapse false r)
  end.

Fixpoint toLowerCase (s : string) : string :=
  match s with
  | EmptyString => EmptyString
  | String c r => String (lower c) (toLowerCase r)
  end.

(** [longer.startsWith(shorter)] *)
Definition startsWith (s p : string) : bool := String.prefix p s.

(** [s.slice(0, n)] for [0 <= n] *)
Definition slice0 (s : string) (n : nat) : string := String.substring 0 n s.

Definition len (s : string) : Z := Z.of_nat (String.length s).

(** JavaScript truthiness of a string. *)
Definition truthy (s : string) : bool := negb (String.eqb s "").

End Str.

(** [normalizeQuery(s)] at a string argument. *)
Definition normalizeQuery (s : string) : string :=
  if negb (Str.truthy s) then ""
  else Str.toLowerCase (Str.collapse false (Str.trim s)).

(** ** Data model *)

(** Modelled from the spec: [MemorySearchItem] is declared in
    types/memory, which is not among the sources.  The orchestrator
    never looks inside an item, so an item is an opaque payload. *)
Definition MemorySearchItem : Type := string.

Definition result : Type := list MemorySearchItem.

(** A JavaScript [Error]: the handlers only read [name]. *)
Record error := { err_name : string; err_message : string }.

(** The five tunable options, after defaults have been applied. *)
Record options := {
  minLength : Z;
  debounceMs : Z;
  cacheTTL : Z;
  useCache : bool;
  refreshOnCache : bool
}.

(** A value of the [cache] map: [{ ts, result }]. *)
Record cache_entry := { ts : Z; cached_result : result }.

(** [OrchestratorState], the snapshot returned by [getState()]. *)
Module Snap.
Record t := {
  latestText : string;
  lastCompletedQuery : string;
  lastResult : option result;
  inFlightQuery : option string;
  isInFlight : bool;
  cacheSize : nat
}.
End Snap.

(** Progress of the promise chain that [run] builds for one attempt:
    [Queued]  - the first [.then] (the call of [fetch]) has not run yet;
    [Pending] - [fetch] was called, its promise has not settled;
    [Handled] - the success or the [.catch] handler has run;
    [Done]    - the [.finally] handler has run. *)
Inductive phase := Queued | Pending | Handled | Done.

(** One dispatched attempt: the [norm] and [mySeq] captured by the
    closures of its chain. *)
Record attempt := { a_norm : string; a_seq : nat; a_phase : phase }.

(** Calls that leave the orchestrator.  [fetchFn q signal] carries the
    abort controller whose signal was handed over, if any. *)
Inductive event :=
| onStart (q : string)
| onSuccess (q : string) (r : result) (fromCache : bool)
| onError (q : string) (e : error)
| onFinally (q : string)
| fetchFn (q : string) (signal : option nat).

Record entry := { ev : event; seen : Snap.t }.

(** The closure variables of one instance, followed by the part of the
    environment they refer to: whether the [AbortController] class
    exists, the abort controllers created so far (their [aborted]
    flags, by identity), the armed timers with their delay, the next
    timer handle, the promise chains, and the log of outgoing calls.
    A timer handle is a positive number, hence never falsy. *)
Record state := {
  opts : options;
  latestText : string;
  lastCompletedQuery : string;
  lastResult : option result;
  lastSearchedQuery : string;
  inFlightQuery : option string;
  abortController : option nat;
  timerId : option positive;
  seq : nat;
  cache : gmap string cache_entry;
  hasAbortController : bool;
  controllers : list bool;
  timers : list (positive * Z);
  nextTimer : positive;
  attempts : list attempt;
  log : list entry
}.

Definition set_opts (v : options) (s : state) : state :=
  {| opts := v; latestText := latestText s;
     lastCompletedQuery := lastCompletedQuery s; lastResult := lastResult s;
     lastSearchedQuery := lastSearchedQuery s; inFlightQuery := inFlightQuery s;
     abortController := abortController s; timerId := timerId s; seq := seq s;
     cache := cache s; hasAbortController := hasAbortController s;
     controllers := controllers s; timers := timers s;
     nextTimer := nextTimer s; attempts := attempts s; log := log s |}.

Definition set_latestText (v : string) (s : state) : state :=
  {| opts := opts s; latestText := v;
     lastCompletedQuery := lastCompletedQuery s; lastResult := lastResult s;
     lastSearchedQuery := lastSearchedQuery s; inFlightQuery := inFlightQuery s;
     abortController := abortController s; timerId := timerId s; seq := seq s;
     cache := cache s; hasAbortController := hasAbortController s;
     controllers := controllers s; timers := timers s;
     nextTimer := nextTimer s; attempts := attempts s; log := log s |}.

Definition set_lastCompletedQuery (v : string) (s : state) : state :=
  {| opts := opts s; latestText := latestText s;
     lastCompletedQuery := v; lastResult := lastResult s;
     lastSearchedQuery := lastSearchedQuery s; inFlightQuery := inFlightQuery s;
     abortController := abortController s; timerId := timerId s; seq := seq s;
     cache := cache s; hasAbortController := hasAbortController s;
     controllers := controllers s; timers := timers s;
     nextTimer := nextTimer s; attempts := attempts s; log := log s |}.

Definition set_lastResult (v : option result) (s : state) : state :=
  {| opts := opts s; latestText := latestText s;
     lastCompletedQuery := lastCompletedQuery s; lastResult := v;
     lastSearchedQuery := lastSearchedQuery s; inFlightQuery := inFlightQuery s;
     abortController := abortController s; timerId := timerId s; seq := seq s;
     cache := cache s; hasAbortController := hasAbortController s;
     controllers := controllers s; timers := timers s;
     nextTimer := nextTimer s; attempts := attempts s; log := log s |}.

Definition set_lastSearchedQuery (v : string) (s : state) : state :=
  {| opts := opts s; latestText := latestText s;
     lastCompletedQuery := lastCompletedQuery s; lastResult := lastResult s;
     lastSearchedQuery := v; inFlightQuery := inFlightQuery s;
     abortController := abortController s; timerId := timerId s; seq := seq s;
     cache := cache s; hasAbortController := hasAbortController s;
     controllers := controllers s; timers := timers s;
     nextTimer := nextTimer s; attempts := attempts s; log := log s |}.

Definition set_inFlightQuery (v : option string) (s : state) : state :=
  {| opts := opts s; latestText := latestText s;
     lastCompletedQuery := lastCompletedQuery s; lastResult := lastResult s;
     lastSearchedQuery := lastSearchedQuery s; inFlightQuery := v;
     abortController := abortController s; timerId := timerId s; seq := seq s;
     cache := cache s; hasAbortController := hasAbortController s;
     controllers := controllers s; timers := timers s;
     nextTimer := nextTimer s; attempts := attempts s; log := log s |}.

Definition set_abortController (v : option nat) (s : state) : state :=
  {| opts := opts s; latestText := latestText s;
     lastCompletedQuery := lastCompletedQuery s; lastResult := lastResult s;
     lastSearchedQuery := lastSearchedQuery s; inFlightQuery := inFlightQuery s;
     abortController := v; timerId := timerId s; seq := seq s;
     cache := cache s; hasAbortController := hasAbortController s;
     controllers := controllers s; timers := timers s;
     nextTimer := nextTimer s; attempts := attempts s; log := log s |}.

Definition set_timerId (v : option positive) (s : state) : state :=
  {| opts := opts s; latestText := latestText s;
     lastCompletedQuery := lastCompletedQuery s; lastResult := lastResult s;
     lastSearchedQuery := lastSearchedQuery s; inFlightQuery := inFlightQuery s;
     abortController := abortController s; timerId := v; seq := seq s;
     cache := cache s; hasAbortController := hasAbortController s;
     controllers := controllers s; timers := timers s;
     nextTimer := nextTimer s; attempts := attempts s; log := log s |}.

Definition set_seq (v : nat) (s : state) : state :=
  {| opts := opts s; latestText := latestText s;
     lastCompletedQuery := lastCompletedQuery s; lastResult := lastResult s;
     lastSearchedQuery := lastSearchedQuery s; inFlightQuery := inFlightQuery s;
     abortController := abortController s; timerId := timerId s; seq := v;
     cache := cache s; hasAbortController := hasAbortController s;
     controllers := controllers s; timers := timers s;
     nextTimer := nextTimer s; attempts := attempts s; log := log s |}.

Definition set_cache (v : gmap string cache_entry) (s : state) : state :=
  {| opts := opts s; latestText := latestText s;
     lastCompletedQuery := lastCompletedQuery s; lastResult := lastResult s;
     lastSearchedQuery := lastSearchedQuery s; inFlightQuery := inFlightQuery s;
     abortController := abortController s; timerId := timerId s; seq := seq s;
     cache := v; hasAbortController := hasAbortController s;
     controllers := controllers s; timers := timers s;
     nextTimer := nextTimer s; attempts := attempts s; log := log s |}.

Definition set_controllers (v : list bool) (s : state) : state :=
  {| opts := opts s; latestText := latestText s;
     lastCompletedQuery := lastCompletedQuery s; lastResult := lastResult s;
     lastSearchedQuery := lastSearchedQuery s; inFlightQuery := inFlightQuery s;
     abortController := abortController s; timerId := timerId s; seq := seq s;
     cache := cache s; hasAbortController := hasAbortController s;
     controllers := v; timers := timers s;
     nextTimer := nextTimer s; attempts := attempts s; log := log s |}.

Definition set_timers (v : list (positive * Z)) (s : state) : state :=
  {| opts := opts s; latestText := latestText s;
     lastCompletedQuery := lastCompletedQuery s; lastResult := lastResult s;
     lastSearchedQuery := lastSearchedQuery s; inFlightQuery := inFlightQuery s;
     abortController := abortController s; timerId := timerId s; seq := seq s;
     cache := cache s; hasAbortController := hasAbortController s;
     controllers := controllers s; timers := v;
     nextTimer := nextTimer s; attempts := attempts s; log := log s |}.

Definition set_nextTimer (v : positive) (s : state) : state :=
  {| opts := opts s; latestText := latestText s;
     lastCompletedQuery := lastCompletedQuery s; lastResult := lastResult s;
     lastSearchedQuery := lastSearchedQuery s; inFlightQuery := inFlightQuery s;
     abortController := abortController s; timerId := timerId s; seq := seq s;
     cache := cache s; hasAbortController := hasAbortController s;
     controllers := controllers s; timers := timers s;
     nextTimer := v; attempts := attempts s; log := log s |}.

Definition set_attempts (v : list attempt) (s : state) : state :=
  {| opts := opts s; latestText := latestText s;
     lastCompletedQuery := lastCompletedQuery s; lastResult := lastResult s;
     lastSearchedQuery := lastSearchedQuery s; inFlightQuery := inFlightQuery s;
     abortController := abortController s; timerId := timerId s; seq := seq s;
     cache := cache s; hasAbortController := hasAbortController s;
     controllers := controllers s; timers := timers s;
     nextTimer := nextTimer s; attempts := v; log := log s |}.

Definition set_log (v : list entry) (s : state) : state :=
  {| opts := opts s; latestText := latestText s;
     lastCompletedQuery := lastCompletedQuery s; lastResult := lastResult s;
     lastSearchedQuery := lastSearchedQuery s; inFlightQuery := inFlightQuery s;
     abortController := abortController s; timerId := timerId s; seq := seq s;
     cache := cache s; hasAbortController := hasAbortController s;
     controllers := controllers s; timers := timers s;
     nextTimer := nextTimer s; attempts := attempts s; log := v |}.

(** ** The private functions of [createOrchestrator] *)

(** [!!inFlightQuery]: non-null and non-empty. *)
Definition truthyQuery (q : option string) : bool :=
  match q with
  | Some t => Str.truthy t
  | None => false
  end.

(** [inFlightQuery === norm] *)
Definition isQuery (q : option string) (norm : string) : bool :=
  match q with
  | Some t => String.eqb t norm
  | None => false
  end.

Definition getState (s : state) : Snap.t :=
  {| Snap.latestText := latestText s;
     Snap.lastCompletedQuery := lastCompletedQuery s;
     Snap.lastResult := lastResult s;
     Snap.inFlightQuery := inFlightQuery s;
     Snap.isInFlight := truthyQuery (inFlightQuery s);
     Snap.cacheSize := size (cache s) |}.

(** A call of [fetch] or of a callback: logged with the snapshot that
    [getState()] yields at the time of the call. *)
Definition emit (e : event) (s : state) : state :=
  set_log (log s ++ [ {| ev := e; seen := getState s |} ]) s.

(** What [setOptions] receives: every field may be missing (or of the
    wrong type, which the [typeof] tests treat alike). *)
Record partial_options := {
  p_minLength : option Z;
  p_debounceMs : option Z;
  p_cacheTTL : option Z;
  p_useCache : option bool;
  p_refreshOnCache : option bool
}.

Definition setOptions (newOpts : option partial_options) (s : state) : state :=
  match newOpts with
  | None => s
  | Some n =>
      let o := opts s in
      set_opts
        {| minLength := default (minLength o) (p_minLength n);
           debounceMs := default (debounceMs o) (p_debounceMs n);
           cacheTTL := default (cacheTTL o) (p_cacheTTL n);
           useCache := default (useCache o) (p_useCache n);
           refreshOnCache := default (refreshOnCache o) (p_refreshOnCache n) |}
        s
  end.

(** [clearTimeout(id)] on the environment's armed timers. *)
Definition clearTimeout (id : positive) (ts : list (positive * Z))
  : list (positive * Z) :=
  List.filter (fun t => negb (Pos.eqb (fst t) id)) ts.

Definition clearTimer (s : state) : state :=
  match timerId s with
  | Some id => set_timerId None (set_timers (clearTimeout id (timers s)) s)
  | None => s
  end.

Definition clearCache (s : state) : state := set_cache ∅ s.

(** [getCached]: the lookup, with the lazy eviction it may perform. *)
Definition getCached (now : Z) (normQuery : string) (s : state)
  : option result * state :=
  if negb (useCache (opts s)) then (None, s)
  else match cache s !! normQuery with
       | None => (None, s)
       | Some v =>
           if now - ts v >? cacheTTL (opts s)
           then (None, set_cache (delete normQuery (cache s)) s)
           else (Some (cached_result v), s)
       end.

Definition setCached (now : Z) (normQuery : string) (r : result) (s : state)
  : state :=
  set_cache (<[normQuery := {| ts := now; cached_result := r |}]> (cache s)) s.

(** [c.abort()]: raises the [aborted] flag of controller [c]. *)
Definition abort (c : nat) (s : state) : state :=
  set_controllers (<[c := true]> (controllers s)) s.

(** [c.signal.aborted === true] *)
Definition signalAborted (c : nat) (s : state) : bool :=
  match controllers s !! c with
  | Some b => b
  | None => false
  end.

Definition cancel (s : state) : state :=
  let s1 := clearTimer s in
  let s2 := match abortController s1 with
            | Some c => abort c s1
            | None => s1
            end in
  set_abortController None (set_inFlightQuery None s2).

(** [new AbortController()], when the environment has the class. *)
Definition newAbortController (s : state) : state :=
  if hasAbortController s
  then set_abortController (Some (List.length (controllers s)))
         (set_controllers (controllers s ++ [false]) s)
  else set_abortController None s.

(** The length gate shared by [run] and [schedule]:
    [!norm || norm.length < minLength]. *)
Definition gated (norm : string) (s : state) : bool :=
  negb (Str.truthy norm) || (Str.len norm <? minLength (opts s)).

(** The second half of [run], from the abort of a different in-flight
    query to the creation of the promise chain, which is appended to
    [attempts] in phase [Queued]. *)
Definition dispatch (norm : string) (s : state) : state :=
  let s1 :=
    match abortController s with
    | Some c =>
        if truthyQuery (inFlightQuery s) && negb (isQuery (inFlightQuery s) norm)
        then abort c s else s
    | None => s
    end in
  let s2 := set_inFlightQuery (Some norm) s1 in
  let s3 := newAbortController s2 in
  let mySeq := S (seq s3) in
  let s4 := set_seq mySeq s3 in
  let s5 := emit (onStart norm) s4 in
  set_attempts
    (attempts s5 ++ [ {| a_norm := norm; a_seq := mySeq; a_phase := Queued |} ])
    s5.

(** [run(query)]: length gate, cache lookup, in-flight dedup, dispatch. *)
Definition run (now : Z) (query : option string) (s : state) : state :=
  let raw := match query with Some q => q | None => latestText s end in
  let norm := normalizeQuery raw in
  if gated norm s then s
  else
    let '(cached, s1) := getCached now norm s in
    let s2 := match cached with
              | Some r => emit (onSuccess norm r true) s1
              | None => s1
              end in
    if match cached with
       | Some _ => negb (refreshOnCache (opts s2))
       | None => false
       end
    then s2
    else if truthyQuery (inFlightQuery s2) && isQuery (inFlightQuery s2) norm
    then s2
    else dispatch norm s2.

(** The near-duplicate test of [schedule], for a truthy
    [lastSearchedQuery] and [norm]. *)
Definition nearDuplicate (norm last : string) : bool :=
  let diff := Z.abs (Str.len norm - Str.len last) in
  if (diff <=? 1) && (Str.len norm >? 0) && (Str.len last >? 0)
  then
    let shorter := if Str.len norm <? Str.len last then norm else last in
    let longer := if Str.len norm >=? Str.len last then norm else last in
    Str.startsWith longer shorter
    || Str.startsWith shorter (Str.slice0 longer (String.length shorter))
  else false.

(** [setTimeout(cb, debounceMs)]: arms a fresh timer. *)
Definition setTimeout (delay : Z) (s : state) : state :=
  let id := nextTimer s in
  set_timerId (Some id)
    (set_nextTimer (Pos.succ id) (set_timers (timers s ++ [(id, delay)]) s)).

Definition schedule (s : state) : state :=
  let s1 := clearTimer s in
  let norm := normalizeQuery (latestText s1) in
  if gated norm s1 then s1
  else if String.eqb norm (lastSearchedQuery s1) || isQuery (inFlightQuery s1) norm
  then s1
  else if Str.truthy (lastSearchedQuery s1) && Str.truthy norm
          && nearDuplicate norm (lastSearchedQuery s1)
  then s1
  else setTimeout (debounceMs (opts s1)) s1.

(** ** The public methods *)

Definition setText (text : option string) (s : state) : state :=
  schedule (set_latestText (default "" text) s).

Definition runImmediate (now : Z) (text : option string) (s : state) : state :=
  let s1 := match text with
            | Some t => set_latestText t s
            | None => s
            end in
  let s2 := clearTimer s1 in
  run now (Some (latestText s2)) s2.

(** ** The event loop *)

(** The callback handed to [setTimeout] by [schedule]. *)
Definition timerCallback (now : Z) (s : state) : state :=
  let s1 := set_timerId None s in
  run now (Some (latestText s1)) s1.

(** First link of the chain: [fetchFn(norm, { signal })], the signal
    being that of whatever controller is current when the link runs. *)
Definition fetchLink (a : attempt) (s : state) : state :=
  emit (fetchFn (a_norm a) (abortController s)) s.

(** Success handler of the chain, for the attempt's [norm] and [mySeq]. *)
Definition thenHandler (now : Z) (a : attempt) (r : result) (s : state) : state :=
  if negb (isQuery (inFlightQuery s) (a_norm a)) || negb (a_seq a =? seq s)%nat
  then s
  else
    let s1 := setCached now (a_norm a) r s in
    let s2 := set_lastCompletedQuery (a_norm a) s1 in
    let s3 := set_lastSearchedQuery (a_norm a) s2 in
    let s4 := set_lastResult (Some r) s3 in
    emit (onSuccess (a_norm a) r false) s4.

(** [.catch] handler. *)
Definition catchHandler (a : attempt) (err : error) (s : state) : state :=
  let aborted :=
    match abortController s with
    | Some c => signalAborted c s
    | None => false
    end || String.eqb (err_name err) "AbortError" in
  if negb (a_seq a =? seq s)%nat then s
  else if negb aborted then emit (onError (a_norm a) err) s
  else s.

(** [.finally] handler. *)
Definition finallyHandler (a : attempt) (s : state) : state :=
  if negb (a_seq a =? seq s)%nat then s
  else
    let s1 := set_inFlightQuery None s in
    let s2 := set_abortController None s1 in
    emit (onFinally (a_norm a)) s2.

Definition phase_eqb (p q : phase) : bool :=
  match p, q with
  | Queued, Queued | Pending, Pending | Handled, Handled | Done, Done => true
  | _, _ => false
  end.

Definition set_phase (p : phase) (a : attempt) : attempt :=
  {| a_norm := a_norm a; a_seq := a_seq a; a_phase := p |}.

(** Runs link [k] of attempt [i]'s chain if the attempt is in phase
    [from], and moves it to phase [to]. *)
Definition advance (i : nat) (from to : phase) (k : attempt -> state -> state)
    (s : state) : option state :=
  match attempts s !! i with
  | Some a =>
      if phase_eqb (a_phase a) from
      then let s1 := k a s in
           Some (set_attempts (<[i := set_phase to a]> (attempts s1)) s1)
      else None
  | None => None
  end.

Inductive call :=
| SetText (text : option string)
| RunImmediate (text : option string)
| Cancel
| GetState
| SetOptions (newOpts : option partial_options)
| ClearCache.

Definition invoke (now : Z) (c : call) (s : state) : state :=
  match c with
  | SetText text => setText text s
  | RunImmediate text => runImmediate now text s
  | Cancel => cancel s
  | GetState => s
  | SetOptions newOpts => setOptions newOpts s
  | ClearCache => clearCache s
  end.

(** What can happen to an instance: a method is called, an armed timer
    elapses, or a link of some attempt's promise chain runs.  A fetch
    that returns a plain value or throws is a [CallFetch] followed by
    [Resolve] or [Reject]. *)
Inductive action :=
| Api (c : call)
| TimerFire (id : positive)
| CallFetch (i : nat)
| Resolve (i : nat) (r : result)
| Reject (i : nat) (err : error)
| Finally (i : nat).

Definition armed (id : positive) (s : state) : bool :=
  existsb (fun t => Pos.eqb (fst t) id) (timers s).

(** One step at clock reading [now]; [None] when the action is not
    enabled (no such armed timer, or the chain is not at that link). *)
Definition step (now : Z) (a : action) (s : state) : option state :=
  match a with
  | Api c => Some (invoke now c s)
  | TimerFire id =>
      if armed id s
      then Some (timerCallback now (set_timers (clearTimeout id (timers s)) s))
      else None
  | CallFetch i => advance i Queued Pending fetchLink s
  | Resolve i r => advance i Pending Handled (fun a => thenHandler now a r) s
  | Reject i err => advance i Pending Handled (fun a => catchHandler a err) s
  | Finally i => advance i Handled Done finallyHandler s
  end.

Fixpoint exec (tr : list (Z * action)) (s : state) : option state :=
  match tr with
  | [] => Some s
  | (now, a) :: tr' =>
      match step now a s with
      | Some s' => exec tr' s'
      | None => None
      end
  end.

(** ** Construction *)

(** The JavaScript values an [options] argument is made of. *)
Inductive jsval :=
| JUndefined
| JNull
| JBool (b : bool)
| JNumber (z : Z)
| JString (t : string)
| JFunction (f : nat) (props : jsprops)
| JObject (props : jsprops)
with jsprops :=
| PNil
| PCons (k : string) (v : jsval) (rest : jsprops).

Definition typeof (v : jsval) : string :=
  match v with
  | JUndefined => "undefined"
  | JNull => "object"
  | JBool _ => "boolean"
  | JNumber _ => "number"
  | JString _ => "string"
  | JFunction _ _ => "function"
  | JObject _ => "object"
  end.

Fixpoint lookupProp (k : string) (props : jsprops) : jsval :=
  match props with
  | PNil => JUndefined
  | PCons k' v rest => if String.eqb k k' then v else lookupProp k rest
  end.

(** [v?.k] for the property names read here: own properties of an
    object or of a function; none of these names exists on a primitive. *)
Definition getProp (v : jsval) (k : string) : jsval :=
  match v with
  | JObject props | JFunction _ props => lookupProp k props
  | _ => JUndefined
  end.

(** [!!v] *)
Definition toBoolean (v : jsval) : bool :=
  match v with
  | JUndefined | JNull => false
  | JBool b => b
  | JNumber z => negb (z =? 0)
  | JString t => Str.truthy t
  | JFunction _ _ | JObject _ => true
  end.

Definition numberOr (v : jsval) (d : Z) : Z :=
  match v with
  | JNumber z => z
  | _ => d
  end.

Inductive completion (A : Type) :=
| Normal (a : A)
| Throw (e : error).
Arguments Normal {A} a.
Arguments Throw {A} e.

(** The instance right after construction: the initial values of the
    closure variables, in an environment that has ([hasAC = true]) or
    lacks the [AbortController] class. *)
Definition initialState (hasAC : bool) (o : options) : state :=
  {| opts := o;
     latestText := "";
     lastCompletedQuery := "";
     lastResult := None;
     lastSearchedQuery := "";
     inFlightQuery := None;
     abortController := None;
     timerId := None;
     seq := 0;
     cache := ∅;
     hasAbortController := hasAC;
     controllers := [];
     timers := [];
     nextTimer := 1%positive;
     attempts := [];
     log := [] |}.

(** The option defaults of [createOrchestrator]. *)
Definition readOptions (arg : jsval) : options :=
  {| minLength := numberOr (getProp arg "minLength") 3;
     debounceMs := numberOr (getProp arg "debounceMs") 75;
     cacheTTL := numberOr (getProp arg "cacheTTL") 60000;
     useCache := match getProp arg "useCache" with
                 | JBool false => false
                 | _ => true
                 end;
     refreshOnCache := toBoolean (getProp arg "refreshOnCache") |}.

(** [createOrchestrator(options)] *)
Definition createOrchestrator (hasAC : bool) (arg : jsval) : completion state :=
  let fetchFn := getProp arg "fetch" in
  if negb (String.eqb (typeof fetchFn) "function")
  then Throw {| err_name := "Error";
                err_message := "createOrchestrator requires options.fetch(query, { signal })" |}
  else Normal (initialState hasAC (readOptions arg)).

(** ** Executions and reachable states *)

Definition reachable (s : state) : Prop :=
  exists hasAC arg s0 tr,
    createOrchestrator hasAC arg = Normal s0 /\ exec tr s0 = Some s.

(** The queries handed to [run]'s promise chains, in dispatch order. *)
Definition dispatched (s : state) : list string := map a_norm (attempts s).

(** The calls recorded in the log, without their snapshots. *)
Definition calls (s : state) : list event := map ev (log s).

(** ** Invariants *)

(** Attempt number [i] (from 0) captured sequence number [i + 1], and
    the counter equals the number of attempts dispatched so far. *)
Definition seq_ok (s : state) : Prop :=
  seq s = List.length (attempts s)
  /\ forall i a, attempts s !! i = Some a -> a_seq a = S i.

(** The only timer that can be armed is the one [timerId] names. *)
Definition timers_ok (s : state) : Prop :=
  match timerId s with
  | Some id => exists d, timers s = [(id, d)]
  | None => timers s = []
  end.

(** The controller that [abortController] names has not been aborted. *)
Definition controller_ok (s : state) : Prop :=
  forall c, abortController s = Some c -> controllers s !! c = Some false.

Record wf (s : state) : Prop := {
  wf_seq : seq_ok s;
  wf_timers : timers_ok s;
  wf_controller : controller_ok s
}.

(** Closes [wf (k s) /\ attempts (k s) = attempts s] when [k s] reduces
    to a state with the same counter, attempts, timers and controller. *)
Ltac wf_frame :=
  match goal with
  | H1 : seq_ok _, H2 : timers_ok _, H3 : controller_ok _ |- _ =>
      split; [split; [exact H1 | exact H2 | try exact H3] | reflexivity]
  end.

(** [s'] differs from [s] at most in the cache and the log. *)
Definition core_eq (s s' : state) : Prop :=
  s' = set_log (log s') (set_cache (cache s') s).

(** How one step changes the list of attempts. *)
Inductive attempts_change (l : list attempt) : list attempt -> Prop :=
| ac_same : attempts_change l l
| ac_dispatch x : a_phase x = Queued -> attempts_change l (l ++ [x])
| ac_advance i a p :
    l !! i = Some a -> a_phase a <> Done ->
    attempts_change l (<[i := set_phase p a]> l).

(** The links of attempt [i]'s chain that run when its promise has
    settled. *)
Inductive settles (i : nat) : action -> Prop :=
| settles_resolve r : settles i (Resolve i r)
| settles_reject err : settles i (Reject i err)
| settles_finally : settles i (Finally i).

Definition is_finally (q : string) (e : event) : bool :=
  match e with
  | onFinally q' => String.eqb q q'
  | _ => false
  end.

(** How many times [onFinally(q)] has been called. *)
Definition count_finally (q : string) (s : state) : nat :=
  List.length (List.filter (is_finally q) (calls s)).

(** ** Sample executions *)

(** The state an execution ends in ([s] itself if it gets stuck). *)
Definition after (tr : list (Z * action)) (s : state) : state :=
  default s (exec tr s).

Definition sample_options : jsval := JObject (PCons "fetch" (JFunction 0 PNil) PNil).

Definition sample_init : state := initialState true (readOptions sample_options).

(** The options of the scenarios of the specification:
    [minLength: 5, debounceMs: 400]. *)
Definition scenario_options : jsval :=
  JObject (PCons "fetch" (JFunction 0 PNil)
            (PCons "minLength" (JNumber 5)
               (PCons "debounceMs" (JNumber 400) PNil))).

Definition scenario_init : state :=
  initialState true (readOptions scenario_options).

(** "foo" is dispatched and its fetch called; "bar" then supersedes it. *)
Definition race_prefix : list (Z * action) :=
  [ (0, Api (RunImmediate (Some "foo"))); (0, CallFetch 0);
    (100, Api (RunImmediate (Some "bar"))) ].

(** "bar" completes first. *)
Definition race_suffix : list (Z * action) :=
  [ (100, CallFetch 1); (150, Resolve 1 ["b"]); (150, Finally 1) ].

Definition race_superseded : state := after race_prefix sample_init.
Definition race_bar_done : state := after race_suffix race_superseded.
Definition race_foo_late : state :=
  after [(500, Resolve 0 ["f"])] race_bar_done.

(** The same race, with "foo" running its whole chain at the end. *)
Definition race_all_done : state :=
  after [(500, Resolve 0 ["f"]); (500, Finally 0)] race_bar_done.

Definition network_down : error :=
  {| err_name := "TypeError"; err_message := "Failed to fetch" |}.

(** "hello" is dispatched and its fetch is called ... *)
Definition hello_dispatch : list (Z * action) :=
  [ (0, Api (RunImmediate (Some "hello"))); (0, CallFetch 0) ].

Definition hello_pending : state := after hello_dispatch sample_init.

(** ... and answers at time 10. *)
Definition hello_success : list (Z * action) :=
  [ (10, Resolve 0 ["m1"]); (10, Finally 0) ].

Definition hello_done : state := after hello_success hello_pending.

(** Actions of the promise chains only: no method call, no timer. *)
Definition chain_action (act : action) : bool :=
  match act with
  | Api _ | TimerFire _ => false
  | CallFetch _ | Resolve _ _ | Reject _ _ | Finally _ => true
  end.

Definition chain_only (tr : list (Z * action)) : bool :=
  forallb (fun x => chain_action (snd x)) tr.

(** After the search for "hello" has completed, the user presses Enter
    on "hellos". *)
Definition hellos_enter : list (Z * action) :=
  [ (20, Api (RunImmediate (Some "hellos"))); (20, CallFetch 1) ].

Definition hellos_fetched : state := after hellos_enter hello_done.

(** The state in which [run] reaches its in-flight test: after the cache
    lookup and, on a hit, the cache-hit callback. *)
Definition cacheStage (now : Z) (norm : string) (s : state) : state :=
  let '(cached, s1) := getCached now norm s in
  match cached with
  | Some r => emit (onSuccess norm r true) s1
  | None => s1
  end.

(** A second search, for "world", armed by [setText] and completed at
    time 100; much later the user types "hello" again. *)
Definition world_search : list (Z * action) :=
  [ (20, Api (SetText (Some "world"))); (95, TimerFire 1); (95, CallFetch 1);
    (100, Resolve 1 ["m2"]); (100, Finally 1);
    (70000, Api (SetText (Some "hello"))) ].

Definition hello_rearmed : state := after world_search hello_done.

(** After the search for "hello", [setOptions({ minLength: 10 })]. *)
Definition raise_minLength : list (Z * action) :=
  [ (15, Api (SetOptions (Some {| p_minLength := Some 10;
                                  p_debounceMs := None;
                                  p_cacheTTL := None;
                                  p_useCache := None;
                                  p_refreshOnCache := None |}))) ].

Definition hello_min10 : state := after raise_minLength hello_done.

(** The pending search for "hello" is cancelled. *)
Definition hello_cancelled : state := after [(5, Api Cancel)] hello_pending.

(** An instance created with [useCache: false]. *)
Definition nocache_options : jsval :=
  JObject (PCons "fetch" (JFunction 0 PNil) (PCons "useCache" (JBool false) PNil)).

Definition nocache_init : state := initialState true (readOptions nocache_options).

Definition nocache_pending : state := after hello_dispatch nocache_init.

(** An error that a fetch implementation may reject with when its
    signal is aborted, and that is not named "AbortError". *)
Definition cancelled_error : error :=
  {| err_name := "Error"; err_message := "cancelled" |}.

(** ** The public interface as a whole *)





(** ** Further notions used by the properties below *)

(** [s] consists of white space only. *)
Fixpoint all_space (s : string) : bool :=
  match s with
  | EmptyString => true
  | String c r => Str.is_space c && all_space r
  end.

(** What the variables of an instance have to do with the attempts
    dispatched so far: every dispatched query is a non-empty normal
    form; the in-flight query is that of the attempt dispatched last;
    an abort controller is held only while a query is in flight;
    [lastCompletedQuery] and [lastSearchedQuery] are equal, empty
    exactly when there is no [lastResult], and otherwise a dispatched
    query; and so is every key of the cache. *)
Record vars_ok (s : state) : Prop := {
  vo_norm : forall i a, attempts s !! i = Some a ->
              Str.truthy (a_norm a) = true
              /\ normalizeQuery (a_norm a) = a_norm a;
  vo_inflight : forall q, inFlightQuery s = Some q ->
                  exists a, last (attempts s) = Some a /\ a_norm a = q;
  vo_controller : abortController s <> None -> inFlightQuery s <> None;
  vo_last : lastCompletedQuery s = lastSearchedQuery s;
  vo_result : lastResult s = None <-> lastCompletedQuery s = "";
  vo_completed : lastCompletedQuery s = ""
                 \/ In (lastCompletedQuery s) (dispatched s);
  vo_cache : forall k v, cache s !! k = Some v -> In k (dispatched s)
}.

(** An instance created with [refreshOnCache: true], after a completed
    search for "hello". *)
Definition refresh_options : jsval :=
  JObject (PCons "fetch" (JFunction 0 PNil)
            (PCons "refreshOnCache" (JBool true) PNil)).

Definition refresh_done : state :=
  after (hello_dispatch ++ hello_success)
    (initialState true (readOptions refresh_options)).

(** "hello" is dispatched and cancelled in the same task, before the
    first link of its chain has run. *)
Definition cancelled_before_link : state :=
  after [ (0, Api (RunImmediate (Some "hello"))); (0, Api Cancel) ] sample_init.

(** *** Counting calls *)

Definition is_start (e : event) : bool :=
  match e with onStart _ => true | _ => false end.

Definition is_fetch (e : event) : bool :=
  match e with fetchFn _ _ => true | _ => false end.

Definition is_cache_hit (e : event) : bool :=
  match e with onSuccess _ _ true => true | _ => false end.

(** [onSuccess] with [fromCache: false], or [onError]: the outcome of a
    fetch, as reported to the caller. *)
Definition is_outcome (e : event) : bool :=
  match e with
  | onSuccess _ _ false | onError _ _ => true
  | _ => false
  end.

Definition is_any_finally (e : event) : bool :=
  match e with onFinally _ => true | _ => false end.

Definition count_calls (p : event -> bool) (s : state) : nat :=
  List.length (List.filter p (calls s)).

(** The number of attempts whose phase satisfies [P]. *)
Definition count_phase (P : phase -> bool) (l : list attempt) : nat :=
  List.length (List.filter (fun a => P (a_phase a)) l).

Definition fetch_called (p : phase) : bool := negb (phase_eqb p Queued).

Definition settled (p : phase) : bool :=
  phase_eqb p Handled || phase_eqb p Done.

Definition finished (p : phase) : bool := phase_eqb p Done.

(** The arguments of the last [onSuccess] call with [fromCache: false]. *)
Fixpoint last_fresh (l : list event) : option (string * result) :=
  match l with
  | [] => None
  | e :: rest =>
      match last_fresh rest with
      | Some x => Some x
      | None =>
          match e with
          | onSuccess q r false => Some (q, r)
          | _ => None
          end
      end
  end.

(** What one step does to the log of calls, to the attempts and to
    [lastResult] / [lastCompletedQuery]: nothing but cache-hit reports
    ([quiet]); a dispatch, announced by [onStart]; the call of [fetch]
    by a queued attempt; the report of an outcome by a pending attempt;
    [onFinally] by a handled attempt. *)
Inductive effect (s s' : state) : Prop :=
| eff_quiet l :
    calls s' = calls s ++ l ->
    forallb is_cache_hit l = true ->
    attempts s' = attempts s ->
    lastResult s' = lastResult s ->
    lastCompletedQuery s' = lastCompletedQuery s ->
    effect s s'
| eff_dispatch l q :
    calls s' = calls s ++ l ++ [onStart q] ->
    forallb is_cache_hit l = true ->
    attempts s'
    = attempts s ++ [ {| a_norm := q; a_seq := S (seq s); a_phase := Queued |} ] ->
    lastResult s' = lastResult s ->
    lastCompletedQuery s' = lastCompletedQuery s ->
    effect s s'
| eff_fetch i a signal :
    attempts s !! i = Some a -> a_phase a = Queued ->
    attempts s' = <[i := set_phase Pending a]> (attempts s) ->
    calls s' = calls s ++ [fetchFn (a_norm a) signal] ->
    lastResult s' = lastResult s ->
    lastCompletedQuery s' = lastCompletedQuery s ->
    effect s s'
| eff_silent i a p :
    attempts s !! i = Some a -> a_phase a = Pending \/ a_phase a = Handled ->
    p = (if phase_eqb (a_phase a) Pending then Handled else Done) ->
    attempts s' = <[i := set_phase p a]> (attempts s) ->
    calls s' = calls s ->
    lastResult s' = lastResult s ->
    lastCompletedQuery s' = lastCompletedQuery s ->
    effect s s'
| eff_success i a r :
    attempts s !! i = Some a -> a_phase a = Pending ->
    attempts s' = <[i := set_phase Handled a]> (attempts s) ->
    calls s' = calls s ++ [onSuccess (a_norm a) r false] ->
    lastResult s' = Some r ->
    lastCompletedQuery s' = a_norm a ->
    effect s s'
| eff_error i a err :
    attempts s !! i = Some a -> a_phase a = Pending ->
    attempts s' = <[i := set_phase Handled a]> (attempts s) ->
    calls s' = calls s ++ [onError (a_norm a) err] ->
    lastResult s' = lastResult s ->
    lastCompletedQuery s' = lastCompletedQuery s ->
    effect s s'
| eff_finally i a :
    attempts s !! i = Some a -> a_phase a = Handled ->
    attempts s' = <[i := set_phase Done a]> (attempts s) ->
    calls s' = calls s ++ [onFinally (a_norm a)] ->
    lastResult s' = lastResult s ->
    lastCompletedQuery s' = lastCompletedQuery s ->
    effect s s'.

(** The counts that every step keeps in line. *)
Record calls_ok (s : state) : Prop := {
  co_start : count_calls is_start s = List.length (attempts s);
  co_fetch : count_calls is_fetch s = count_phase fetch_called (attempts s);
  co_outcome : (count_calls is_outcome s <= count_phase settled (attempts s))%nat;
  co_finally : (count_calls is_any_finally s <= count_phase finished (attempts s))%nat;
  co_fresh : last_fresh (calls s)
             = match lastResult s with
               | Some r => Some (lastCompletedQuery s, r)
               | None => None
               end
}.

(** * The trigger filter and the input hook
    (src/utils/util_functions.ts, src/utils/content_script_common.ts)

    The content scripts feed the orchestrator from the [input] events of
    the prompt box: the handler installed by [setupBackgroundSearchHook]
    passes the text to [setText] when [shouldTriggerMemorySearch]
    accepts it.  The regular expressions of the filter are read on
    Latin-1 strings, like [normalizeQuery]. *)

(** [[a-zA-Z]] *)
Definition is_letter (c : ascii) : bool :=
  let n := nat_of_ascii c in
  (((65 <=? n) && (n <=? 90)) || ((97 <=? n) && (n <=? 122)))%nat.

(** [\d] *)
Definition is_digit (c : ascii) : bool :=
  let n := nat_of_ascii c in ((48 <=? n) && (n <=? 57))%nat.

(** [[.!?]] *)
Definition is_sentence_end (c : ascii) : bool :=
  Ascii.eqb c "." || Ascii.eqb c "!" || Ascii.eqb c "?".

(** [/[class]/.test(s)]: some code unit of [s] is in the class. *)
Fixpoint test_class (p : ascii -> bool) (s : string) : bool :=
  match s with
  | EmptyString => false
  | String c r => p c || test_class p r
  end.

Fixpoint lastChar (s : string) : option ascii :=
  match s with
  | EmptyString => None
  | String c EmptyString => Some c
  | String _ r => lastChar r
  end.

(** [s.slice(0, -1)] *)
Fixpoint dropLast (s : string) : string :=
  match s with
  | EmptyString => EmptyString
  | String _ EmptyString => EmptyString
  | String c r => String c (dropLast r)
  end.

(** [s.endsWith(c)] for a one-character string [c]. *)
Definition endsWithChar (s : string) (c : ascii) : bool :=
  match lastChar s with
  | Some d => Ascii.eqb d c
  | None => false
  end.

(** [s.split(/\s+/)]: [acc] is the piece being read, [in_sep] tells
    that the previous code unit was white space, whose run has already
    closed a piece. *)
Fixpoint split_ws (acc : string) (in_sep : bool) (s : string) : list string :=
  match s with
  | EmptyString => [acc]
  | String c r =>
      if Str.is_space c
      then (if in_sep then split_ws acc true r else acc :: split_ws "" true r)
      else split_ws (acc ++ String c "") false r
  end.

(** A regular expression without [^], tested on [s]: some suffix of [s]
    starts with a match. *)
Fixpoint test_from (p : string -> bool) (s : string) : bool :=
  p s || match s with
         | EmptyString => false
         | String _ r => test_from p r
         end.

(** [/https?:\/\/|www\./.test(s)] *)
Definition mentionsUrl (s : string) : bool :=
  test_from (fun t => String.prefix "http://" t || String.prefix "https://" t
                      || String.prefix "www." t) s.

(** [\d+$] matches the whole of [s]. *)
Fixpoint digits_to_end (s : string) : bool :=
  match s with
  | EmptyString => false
  | String c EmptyString => is_digit c
  | String c r => is_digit c && digits_to_end r
  end.

(** [\d+\.\d+$] matches the whole of [s]; [seen] tells that a digit of
    the integer part has been read. *)
Fixpoint decimal_to_end (seen : bool) (s : string) : bool :=
  match s with
  | EmptyString => false
  | String c r =>
      if is_digit c then decimal_to_end true r
      else seen && Ascii.eqb c "." && digits_to_end r
  end.

(** [/\d+\.\d+$/.test(s)] *)
Definition endsWithDecimal (s : string) : bool :=
  test_from (decimal_to_end false) s.

(** [w => w.length > 0] *)
Definition nonempty (w : string) : bool := (0 <? String.length w)%nat.

(** [normalized.split(/\s+/).filter(w => w.length > 0)] *)
Definition words (normalized : string) : list string :=
  List.filter nonempty (split_ws "" false normalized).

(** [/[.!?]$/.test(normalized)] *)
Definition endsWithPunctuation (normalized : string) : bool :=
  match lastChar normalized with
  | Some c => is_sentence_end c
  | None => false
  end.

Definition shouldTriggerMemorySearch (text : string) : bool :=
  let normalized := Str.trim text in
  if (Str.len normalized <? 5) || negb (test_class is_letter normalized)
  then false
  else if (List.length (words normalized) <? 2)%nat then false
  else if endsWithPunctuation normalized
  then
    if mentionsUrl normalized && negb (endsWithChar (dropLast normalized) " ")
    then false
    else if endsWithDecimal normalized then false
    else true
  else if (3 <=? List.length (words normalized))%nat then true
  else false.

(** The closure variables of [setupBackgroundSearchHook]. *)
Record hook := { lastTriggeredText : string; lastTriggerTime : Z }.

Definition initialHook : hook :=
  {| lastTriggeredText := ""; lastTriggerTime := 0 |}.

Definition MIN_TRIGGER_INTERVAL : Z := 100.

(** The [input] listener: [text] is what [config.getInputValue] returns,
    [now] is [Date.now()]. *)
Definition handler (now : Z) (text : string) (h : hook) (s : state) : hook * state :=
  if String.eqb text (lastTriggeredText h)
     && (now - lastTriggerTime h <? MIN_TRIGGER_INTERVAL)
  then (h, s)
  else if negb (shouldTriggerMemorySearch text) then (h, s)
  else ({| lastTriggeredText := text; lastTriggerTime := now |},
        setText (Some text) s).

(** The options that [createPlatformSearchOrchestrator] passes. *)
Definition platform_options : jsval :=
  JObject (PCons "fetch" (JFunction 0 PNil)
            (PCons "onSuccess" (JFunction 1 PNil)
              (PCons "onError" (JFunction 2 PNil)
                (PCons "minLength" (JNumber 5)
                  (PCons "debounceMs" (JNumber 400)
                    (PCons "cacheTTL" (JNumber 300000) PNil)))))).

Definition platform_init : state :=
  initialState true (readOptions platform_options).

(** What happens on a page while the user only types: [input] events,
    and the orchestrator's own timers and promise chains. *)
Inductive page_event :=
| Typed (text : string)
| Loop (act : action).

Definition loop_action (act : action) : bool :=
  match act with
  | Api _ => false
  | TimerFire _ | CallFetch _ | Resolve _ _ | Reject _ _ | Finally _ => true
  end.

Definition page_step (now : Z) (e : page_event) (p : hook * state)
    : option (hook * state) :=
  match e with
  | Typed text => Some (handler now text (fst p) (snd p))
  | Loop act =>
      if loop_action act
      then match step now act (snd p) with
           | Some s' => Some (fst p, s')
           | None => None
           end
      else None
  end.

Fixpoint page_exec (tr : list (Z * page_event)) (p : hook * state)
    : option (hook * state) :=
  match tr with
  | [] => Some p
  | (now, e) :: tr' =>
      match page_step now e p with
      | Some p' => page_exec tr' p'
      | None => None
      end
  end.

(** What typing keeps true of the hook and the orchestrator. *)
Record typing_ok (p : hook * state) : Prop := {
  to_latest : latestText (snd p) = lastTriggeredText (fst p);
  to_accepted : latestText (snd p) = ""
                \/ shouldTriggerMemorySearch (latestText (snd p)) = true;
  to_dispatched : forall q, In q (dispatched (snd p)) ->
                    exists text, shouldTriggerMemorySearch text = true
                                 /\ q = normalizeQuery text
}.

(** The user types a question into a page whose orchestrator was
    created by [createPlatformSearchOrchestrator]; the debounce timer
    elapses and the search completes. *)
Definition typed_question : list (Z * page_event) :=
  [ (0, Typed "what is"); (50, Typed "what is rocq");
    (60, Typed "what is rocq"); (460, Loop (TimerFire 1));
    (460, Loop (CallFetch 0)); (500, Loop (Resolve 0 ["m1"]));
    (500, Loop (Finally 0)) ].

Definition typed_done : hook * state :=
  default (initialHook, platform_init)
    (page_exec typed_question (initialHook, platform_init)).
(** * Properties *)

Example normalize_ex1 :
  normalizeQuery "  Explain   React	Hooks " = "explain react hooks".
Proof. reflexivity. Qed.

Example normalize_ex2 : normalizeQuery "   " = "".
Proof. reflexivity. Qed.

(** ** The scenarios of the specification *)

(** Scenario 1: "hi" is too short; "explain react hooks" is fetched
    once, after the debounce, and its result is reported. *)
Example scenario_1 :
  option_map calls
    (exec [ (0, Api (SetText (Some "hi")));
            (10, Api (SetText (Some "explain react hooks")));
            (410, TimerFire 1); (410, CallFetch 0);
            (500, Resolve 0 ["r"]); (500, Finally 0) ] scenario_init)
  = Some [ onStart "explain react hooks";
           fetchFn "explain react hooks" (Some 0%nat);
           onSuccess "explain react hooks" ["r"] false;
           onFinally "explain react hooks" ]
  /\ timers (setText (Some "hi") scenario_init) = [].
Proof. split; vm_compute; reflexivity. Qed.

(** Scenario 2: the second [setText] comes 50 ms after the first; the
    first timer is gone and the second one fetches the final text. *)
Example scenario_2 :
  exec [ (0, Api (SetText (Some "explain react")));
         (50, Api (SetText (Some "explain react hooks")));
         (400, TimerFire 1) ] scenario_init = None
  /\ option_map calls
       (exec [ (0, Api (SetText (Some "explain react")));
               (50, Api (SetText (Some "explain react hooks")));
               (450, TimerFire 2); (450, CallFetch 0) ] scenario_init)
     = Some [ onStart "explain react hooks";
              fetchFn "explain react hooks" (Some 0%nat) ].
Proof. split; vm_compute; reflexivity. Qed.

(** Scenario 3: "bar" supersedes "foo", whose controller is aborted;
    "foo" resolving late changes nothing. *)
Example scenario_3 :
  controllers race_superseded = [true; false]
  /\ lastResult race_all_done = Some ["b"]
  /\ lastCompletedQuery race_all_done = "bar".
Proof. split; [|split]; vm_compute; reflexivity. Qed.

(** ** Shape of [run] *)

Lemma core_eq_refl s : core_eq s s.
Proof. by destruct s. Qed.

Lemma core_eq_emit e s s' : core_eq s s' -> core_eq s (emit e s').
Proof. unfold core_eq, emit. intros ->. reflexivity. Qed.

Lemma core_eq_set_cache c s : core_eq s (set_cache c s).
Proof. by destruct s. Qed.

Lemma getCached_core now q s : core_eq s (getCached now q s).2.
Proof.
  unfold getCached. destruct (useCache (opts s)); simpl;
    [| apply core_eq_refl].
  destruct (cache s !! q) as [v|]; simpl; [| apply core_eq_refl].
  destruct (now - ts v >? cacheTTL (opts s)); simpl;
    [apply core_eq_set_cache | apply core_eq_refl].
Qed.

(** [run] either stops before the dispatch, having touched at most the
    cache and the log, or dispatches from such a state. *)
Lemma run_shape now q s :
  let norm := normalizeQuery (default (latestText s) q) in
  exists s2, core_eq s s2
    /\ (run now q s = s2
        \/ (gated norm s = false /\ run now q s = dispatch norm s2)).
Proof.
  intros norm. unfold run.
  replace (match q with Some q0 => q0 | None => latestText s end)
    with (default (latestText s) q) by by destruct q.
  fold norm. destruct (gated norm s) eqn:Hg.
  { exists s. split; [apply core_eq_refl | by left]. }
  pose proof (getCached_core now norm s) as Hc.
  destruct (getCached now norm s) as [[r|] s1]; simpl in Hc.
  - exists (emit (onSuccess norm r true) s1).
    split; [by apply core_eq_emit|].
    repeat case_match; auto.
  - exists s1. split; [done|]. repeat case_match; auto.
Qed.

(** What [dispatch] does. *)
Lemma dispatch_attempts norm s :
  attempts (dispatch norm s)
  = attempts s ++ [ {| a_norm := norm; a_seq := S (seq s); a_phase := Queued |} ].
Proof.
  unfold dispatch, newAbortController, abort.
  destruct (abortController s); repeat case_match; reflexivity.
Qed.

Lemma dispatch_seq norm s : seq (dispatch norm s) = S (seq s).
Proof.
  unfold dispatch, newAbortController, abort.
  destruct (abortController s); repeat case_match; reflexivity.
Qed.

Lemma dispatch_timers norm s :
  timers (dispatch norm s) = timers s /\ timerId (dispatch norm s) = timerId s.
Proof.
  unfold dispatch, newAbortController, abort.
  destruct (abortController s); repeat case_match; split; reflexivity.
Qed.

Lemma dispatch_calls norm s :
  calls (dispatch norm s) = calls s ++ [onStart norm].
Proof.
  unfold calls, dispatch, newAbortController, abort.
  destruct (abortController s); repeat case_match; simpl;
    by rewrite map_app.
Qed.

Lemma dispatch_vars norm s :
  latestText (dispatch norm s) = latestText s
  /\ lastResult (dispatch norm s) = lastResult s
  /\ lastCompletedQuery (dispatch norm s) = lastCompletedQuery s
  /\ lastSearchedQuery (dispatch norm s) = lastSearchedQuery s
  /\ cache (dispatch norm s) = cache s
  /\ opts (dispatch norm s) = opts s
  /\ inFlightQuery (dispatch norm s) = Some norm.
Proof.
  unfold dispatch, newAbortController, abort.
  destruct (abortController s); repeat case_match; repeat split; reflexivity.
Qed.

Lemma lookup_snoc_last {A} (l : list A) (x : A) :
  (l ++ [x]) !! List.length l = Some x.
Proof. rewrite lookup_app_r by lia. by rewrite Nat.sub_diag. Qed.

Lemma dispatch_controller_ok norm s : controller_ok (dispatch norm s).
Proof.
  unfold controller_ok, dispatch, newAbortController, abort. intros c.
  destruct (abortController s); repeat case_match; simpl; try done;
    intros [= <-]; apply lookup_snoc_last.
Qed.

(** ** Invariants are preserved *)

Lemma seq_ok_snoc (l : list attempt) (n : nat) (x : attempt) :
  n = List.length l ->
  (forall i a, l !! i = Some a -> a_seq a = S i) ->
  a_seq x = S n ->
  S n = List.length (l ++ [x])
  /\ forall i a, (l ++ [x]) !! i = Some a -> a_seq a = S i.
Proof.
  intros Hn Hl Hx. split.
  - rewrite length_app. simpl. lia.
  - intros i a Hi. apply lookup_app_Some in Hi as [Hi | [Hge Hi]].
    + eauto.
    + apply list_lookup_singleton_Some in Hi as [Hz ->].
      rewrite Hx. f_equal. lia.
Qed.

Lemma seq_ok_phase (l : list attempt) (i : nat) (a : attempt) (p : phase) :
  l !! i = Some a ->
  (forall j b, l !! j = Some b -> a_seq b = S j) ->
  forall j b, <[i := set_phase p a]> l !! j = Some b -> a_seq b = S j.
Proof.
  intros Hi Hl j b Hj. destruct (decide (i = j)) as [<- | Hne].
  - rewrite list_lookup_insert_eq in Hj by (eapply lookup_lt_Some; eauto).
    inversion Hj; subst. simpl. eauto.
  - rewrite list_lookup_insert_ne in Hj by done. eauto.
Qed.

Lemma core_eq_wf s s' : core_eq s s' -> wf s -> wf s'.
Proof. intros -> [[Hs Ha] H2 H3]. split; [by split | done | done]. Qed.

Lemma dispatch_wf norm s : wf s -> wf (dispatch norm s).
Proof.
  intros [[Hs Ha] H2 H3]. split.
  - unfold seq_ok. rewrite dispatch_attempts, dispatch_seq.
    by apply seq_ok_snoc.
  - unfold timers_ok. by destruct (dispatch_timers norm s) as [-> ->].
  - apply dispatch_controller_ok.
Qed.

Lemma run_wf now q s : wf s -> wf (run now q s).
Proof.
  intros H. destruct (run_shape now q s) as (s2 & Hc & [-> | [_ ->]]).
  - by eapply core_eq_wf.
  - apply dispatch_wf. by eapply core_eq_wf.
Qed.

Lemma run_timers now q s :
  timers (run now q s) = timers s /\ timerId (run now q s) = timerId s.
Proof.
  destruct (run_shape now q s) as (s2 & Hc & [-> | [_ ->]]).
  - by rewrite Hc.
  - destruct (dispatch_timers (normalizeQuery (default (latestText s) q)) s2)
      as [-> ->]. by rewrite Hc.
Qed.

Lemma run_attempts now q s :
  attempts (run now q s) = attempts s
  \/ attempts (run now q s)
     = attempts s ++ [ {| a_norm := normalizeQuery (default (latestText s) q);
                          a_seq := S (seq s); a_phase := Queued |} ].
Proof.
  destruct (run_shape now q s) as (s2 & Hc & [-> | [_ ->]]).
  - left. by rewrite Hc.
  - right. rewrite dispatch_attempts. by rewrite Hc.
Qed.

(** *** Timers *)

Lemma clearTimer_clears s :
  timers_ok s -> timers (clearTimer s) = [] /\ timerId (clearTimer s) = None.
Proof.
  unfold timers_ok, clearTimer, clearTimeout.
  destruct (timerId s) as [id|] eqn:E; simpl.
  - intros [d ->]. simpl. by rewrite Pos.eqb_refl.
  - by rewrite E.
Qed.

Lemma clearTimer_attempts s : attempts (clearTimer s) = attempts s.
Proof. unfold clearTimer. by destruct (timerId s). Qed.

Lemma clearTimer_wf s : wf s -> wf (clearTimer s).
Proof.
  intros H. destruct (clearTimer_clears s (wf_timers s H)) as [Ht Hi].
  destruct H as [H1 H2 H3]. split.
  - unfold clearTimer. by destruct (timerId s).
  - unfold timers_ok. by rewrite Hi.
  - unfold clearTimer. by destruct (timerId s).
Qed.

(** After [schedule] at most one timer is armed, the one [timerId] names. *)
Lemma schedule_wf s : wf s -> wf (schedule s).
Proof.
  intros H. apply clearTimer_wf in H as H'.
  destruct (clearTimer_clears s (wf_timers s H)) as [Ht Hi].
  unfold schedule.
  repeat (case_match; try assumption).
  destruct H' as [Hq Hm Hc]. split; try assumption.
  unfold timers_ok, setTimeout. simpl. rewrite Ht. by eexists.
Qed.

Lemma schedule_attempts s : attempts (schedule s) = attempts s.
Proof.
  unfold schedule, setTimeout.
  repeat case_match; simpl; apply clearTimer_attempts.
Qed.

Lemma set_latestText_wf t s : wf s -> wf (set_latestText t s).
Proof. intros [H1 H2 H3]. by split. Qed.

Lemma cancel_wf s : wf s -> wf (cancel s).
Proof.
  intros H. apply clearTimer_wf in H as [[Hs Ha] H2 H3].
  unfold cancel. generalize dependent (clearTimer s). clear s.
  intros s Hs Ha H2 H3.
  unfold abort. destruct (abortController s); (split; [by split | done | done]).
Qed.

Lemma cancel_attempts s : attempts (cancel s) = attempts s.
Proof.
  unfold cancel, abort.
  destruct (abortController (clearTimer s)); simpl; apply clearTimer_attempts.
Qed.

Lemma invoke_wf now c s : wf s -> wf (invoke now c s).
Proof.
  intros H. destruct c as [text | text | | | newOpts | ]; cbn [invoke].
  - apply schedule_wf. by apply set_latestText_wf.
  - unfold runImmediate. apply run_wf, clearTimer_wf.
    destruct text; [by apply set_latestText_wf | done].
  - by apply cancel_wf.
  - done.
  - destruct H as [H1 H2 H3]. unfold setOptions. by destruct newOpts.
  - destruct H as [H1 H2 H3]. by split.
Qed.

(** *** Promise chains *)

Lemma handlers_keep_attempts now a r err s :
  attempts (thenHandler now a r s) = attempts s
  /\ attempts (catchHandler a err s) = attempts s
  /\ attempts (finallyHandler a s) = attempts s
  /\ attempts (fetchLink a s) = attempts s.
Proof.
  unfold thenHandler, catchHandler, finallyHandler.
  repeat split; repeat case_match; done.
Qed.

Lemma handlers_keep_seq now a r err s :
  seq (thenHandler now a r s) = seq s
  /\ seq (catchHandler a err s) = seq s.
Proof.
  unfold thenHandler, catchHandler.
  repeat split; repeat case_match; done.
Qed.

Lemma advance_at i from to k s a :
  attempts s !! i = Some a -> a_phase a = from -> from <> Done ->
  (forall s0, attempts (k a s0) = attempts s0) ->
  advance i from to k s
  = Some (set_attempts (<[i := set_phase to a]> (attempts s)) (k a s)).
Proof.
  intros Hi <- Hfrom Hk. unfold advance. rewrite Hi, Hk.
  by destruct (a_phase a).
Qed.

Lemma advance_wf i from to k s s' :
  (forall a s0, wf s0 ->
     wf (k a s0) /\ attempts (k a s0) = attempts s0) ->
  wf s -> advance i from to k s = Some s' -> wf s'.
Proof.
  intros Hk H. unfold advance.
  destruct (attempts s !! i) as [a|] eqn:Hi; [|done].
  destruct (phase_eqb (a_phase a) from); [|done].
  intros [= <-]. destruct (Hk a s H) as [[[Hs Ha] H2 H3] Hatt].
  split; [| done | done].
  split; simpl.
  - rewrite length_insert. exact Hs.
  - rewrite Hatt in *. by apply seq_ok_phase.
Qed.

Lemma fetchLink_wf a s :
  wf s -> wf (fetchLink a s) /\ attempts (fetchLink a s) = attempts s.
Proof. intros [H1 H2 H3]. wf_frame. Qed.

Lemma thenHandler_wf now a r s :
  wf s -> wf (thenHandler now a r s)
          /\ attempts (thenHandler now a r s) = attempts s.
Proof.
  intros [H1 H2 H3]. unfold thenHandler. case_match; wf_frame.
Qed.

Lemma catchHandler_wf a err s :
  wf s -> wf (catchHandler a err s)
          /\ attempts (catchHandler a err s) = attempts s.
Proof.
  intros [H1 H2 H3]. unfold catchHandler. repeat case_match; wf_frame.
Qed.

Lemma finallyHandler_wf a s :
  wf s -> wf (finallyHandler a s)
          /\ attempts (finallyHandler a s) = attempts s.
Proof.
  intros [H1 H2 H3]. unfold finallyHandler. case_match; wf_frame.
  by intros c.
Qed.

Lemma armed_only id s :
  timers_ok s -> armed id s = true ->
  timerId s = Some id /\ clearTimeout id (timers s) = [].
Proof.
  unfold timers_ok, armed, clearTimeout.
  destruct (timerId s) as [id'|].
  - intros [d ->]. simpl. rewrite orb_false_r.
    intros ->%Pos.eqb_eq. simpl. by rewrite Pos.eqb_refl.
  - by intros ->.
Qed.

Lemma step_wf now a s s' : wf s -> step now a s = Some s' -> wf s'.
Proof.
  intros H. destruct a as [c | id | i | i r | i err | i]; cbn [step].
  - intros [= <-]. by apply invoke_wf.
  - destruct (armed id s) eqn:E; [|done]. intros [= <-].
    destruct (armed_only id s (wf_timers s H) E) as [Hid Hcl].
    unfold timerCallback. apply run_wf.
    destruct H as [H1 H2 H3]. split; [exact H1 | | exact H3].
    unfold timers_ok. simpl. exact Hcl.
  - eapply advance_wf; eauto using fetchLink_wf.
  - eapply advance_wf; eauto. intros. by apply thenHandler_wf.
  - eapply advance_wf; eauto. intros. by apply catchHandler_wf.
  - eapply advance_wf; eauto using finallyHandler_wf.
Qed.

Lemma exec_wf tr : forall s s', wf s -> exec tr s = Some s' -> wf s'.
Proof.
  induction tr as [| [now a] tr IH]; simpl; intros s s' H.
  - by intros [= <-].
  - destruct (step now a s) as [s1|] eqn:E; [|done].
    apply IH. by eapply step_wf.
Qed.

Lemma initialState_wf hasAC o : wf (initialState hasAC o).
Proof. split; [split | |]; done. Qed.

Lemma reachable_wf s : reachable s -> wf s.
Proof.
  intros (hasAC & arg & s0 & tr & Hc & He).
  eapply exec_wf; [|exact He].
  unfold createOrchestrator in Hc. case_match; [done|].
  inversion Hc. apply initialState_wf.
Qed.

Lemma exec_app tr1 tr2 s s1 :
  exec tr1 s = Some s1 -> exec (tr1 ++ tr2) s = exec tr2 s1.
Proof.
  revert s. induction tr1 as [| [now act] tr1 IH]; simpl; intros s.
  - by intros [= <-].
  - destruct (step now act s); [apply IH | done].
Qed.

Lemma reachable_exec tr s s' : reachable s -> exec tr s = Some s' -> reachable s'.
Proof.
  intros (hasAC & arg & s0 & tr0 & Hc & He) H.
  exists hasAC, arg, s0, (tr0 ++ tr). split; [done|].
  by rewrite (exec_app _ _ _ _ He).
Qed.

Lemma sample_reachable tr s :
  exec tr sample_init = Some s -> reachable s.
Proof. intros H. by exists true, sample_options, sample_init, tr. Qed.

(** *** Attempts, once dispatched *)

Lemma invoke_attempts now c s :
  attempts_change (attempts s) (attempts (invoke now c s)).
Proof.
  destruct c as [text | text | | | newOpts | ]; cbn [invoke].
  - unfold setText. rewrite schedule_attempts. constructor.
  - unfold runImmediate.
    match goal with |- context [run ?n ?q ?s0] =>
      destruct (run_attempts n q s0) as [-> | ->];
      rewrite clearTimer_attempts
    end; destruct text; simpl; by constructor.
  - rewrite cancel_attempts. constructor.
  - constructor.
  - destruct newOpts; constructor.
  - constructor.
Qed.

Lemma advance_attempts i from to k s s' :
  (forall a s0, attempts (k a s0) = attempts s0) ->
  advance i from to k s = Some s' ->
  from <> Done ->
  attempts_change (attempts s) (attempts s').
Proof.
  intros Hk. unfold advance.
  destruct (attempts s !! i) as [a|] eqn:Hi; [|done].
  destruct (phase_eqb (a_phase a) from) eqn:Hp; [|done].
  intros [= <-] Hfrom. simpl. rewrite Hk.
  apply ac_advance; [done|].
  intros Hd. rewrite Hd in Hp. by destruct from.
Qed.

Lemma step_attempts now a s s' :
  step now a s = Some s' -> attempts_change (attempts s) (attempts s').
Proof.
  destruct a as [c | id | i | i r | i err | i]; cbn [step].
  - intros [= <-]. apply invoke_attempts.
  - destruct (armed id s); [|done]. intros [= <-]. unfold timerCallback.
    match goal with |- context [run ?n ?q ?s0] =>
      destruct (run_attempts n q s0) as [-> | ->]
    end; simpl; by constructor.
  - intros H. eapply advance_attempts; [|exact H|done]. done.
  - intros H. eapply advance_attempts; [|exact H|done].
    intros. apply (handlers_keep_attempts now a r network_down s0).
  - intros H. eapply advance_attempts; [|exact H|done].
    intros. apply (handlers_keep_attempts now a [] err s0).
  - intros H. eapply advance_attempts; [|exact H|done].
    intros. apply (handlers_keep_attempts now a [] network_down s0).
Qed.

(** An attempt, once dispatched, stays where it is, keeps what it
    captured, and never leaves phase [Done]. *)
Lemma attempts_change_keeps l l' i a :
  attempts_change l l' -> l !! i = Some a ->
  exists a', l' !! i = Some a' /\ a_norm a' = a_norm a /\ a_seq a' = a_seq a
             /\ (a_phase a = Done -> a_phase a' = Done).
Proof.
  intros [| x Hx | j b p Hj Hb] Hi.
  - by exists a.
  - exists a. by rewrite lookup_app_l by (eapply lookup_lt_Some; eauto).
  - destruct (decide (j = i)) as [-> | Hne].
    + rewrite Hi in Hj. inversion Hj; subst b.
      exists (set_phase p a).
      rewrite list_lookup_insert_eq by (eapply lookup_lt_Some; eauto). done.
    + exists a. by rewrite list_lookup_insert_ne.
Qed.

Lemma attempts_change_length l l' :
  attempts_change l l' -> (List.length l <= List.length l')%nat.
Proof.
  intros [| x Hx | j b p Hj Hb].
  - done.
  - rewrite length_app. simpl. lia.
  - by rewrite length_insert.
Qed.

Lemma exec_keeps tr : forall s s' i a,
  exec tr s = Some s' -> attempts s !! i = Some a ->
  exists a', attempts s' !! i = Some a' /\ a_norm a' = a_norm a
             /\ a_seq a' = a_seq a /\ (a_phase a = Done -> a_phase a' = Done).
Proof.
  induction tr as [| [now act] tr IH]; simpl; intros s s' i a.
  - intros [= <-] Hi. by exists a.
  - destruct (step now act s) as [s1|] eqn:E; [|done]. intros He Hi.
    destruct (attempts_change_keeps _ _ i a (step_attempts _ _ _ _ E) Hi)
      as (a1 & Hi1 & Hn1 & Hs1 & Hd1).
    destruct (IH s1 s' i a1 He Hi1) as (a' & Hi' & Hn' & Hs' & Hd').
    exists a'. repeat split; try congruence. auto.
Qed.

Lemma exec_attempts_length tr : forall s s',
  exec tr s = Some s' ->
  (List.length (attempts s) <= List.length (attempts s'))%nat.
Proof.
  induction tr as [| [now act] tr IH]; simpl; intros s s'.
  - by intros [= <-].
  - destruct (step now act s) as [s1|] eqn:E; [|done]. intros He.
    etrans; [|by apply IH].
    by eapply attempts_change_length, step_attempts.
Qed.

(** ** Superseded attempts (C1) *)

(** A superseded attempt stays superseded: the counter only grows. *)
Lemma superseded_stays tr s s' i a :
  wf s -> attempts s !! i = Some a -> a_seq a <> seq s ->
  exec tr s = Some s' ->
  exists a', attempts s' !! i = Some a' /\ a_norm a' = a_norm a
             /\ a_seq a' <> seq s'.
Proof.
  intros Hwf Hi Hne He.
  destruct (exec_keeps tr s s' i a He Hi) as (a' & Hi' & Hn & Hs & _).
  exists a'. split; [done|]. split; [done|].
  pose proof (exec_wf tr s s' Hwf He) as Hwf'.
  pose proof (exec_attempts_length tr s s' He) as Hlen.
  destruct Hwf as [[Hq Ha] _ _]. destruct Hwf' as [[Hq' Ha'] _ _].
  pose proof (lookup_lt_Some _ _ _ Hi) as Hlt.
  rewrite Hs, (Ha i a Hi), Hq'. rewrite (Ha i a Hi), Hq in Hne. lia.
Qed.

(** When the chain of a superseded attempt runs a settlement link, no
    variable of the instance changes and nothing is called. *)
Lemma superseded_link_silent now act s s' i a :
  attempts s !! i = Some a -> a_seq a <> seq s ->
  settles i act -> step now act s = Some s' ->
  s' = set_attempts (attempts s') s.
Proof.
  intros Hi Hne Hact.
  assert (Hb : (a_seq a =? seq s)%nat = false) by by apply Nat.eqb_neq.
  destruct Hact; cbn [step]; unfold advance; rewrite Hi;
    case_match; try done; intros [= <-].
  - unfold thenHandler. rewrite Hb, orb_true_r. reflexivity.
  - unfold catchHandler. rewrite Hb. reflexivity.
  - unfold finallyHandler. rewrite Hb. reflexivity.
Qed.

(** C1.  A dispatched attempt that has been superseded (the sequence
    number it captured differs from the counter) stays superseded
    whatever happens next, in any order; when its promise then settles,
    the links of its chain (success handler, [.catch] handler,
    [.finally] handler) leave [lastResult] and [lastCompletedQuery]
    untouched and call nothing: no [onSuccess], nor any other callback. *)
Theorem superseded_settlement_is_silent s i a tr s1 now act s2 :
  reachable s ->
  attempts s !! i = Some a -> a_seq a <> seq s ->
  exec tr s = Some s1 ->
  settles i act -> step now act s1 = Some s2 ->
  lastResult s2 = lastResult s1
  /\ lastCompletedQuery s2 = lastCompletedQuery s1
  /\ log s2 = log s1.
Proof.
  intros Hr Hi Hne He Hact Hstep.
  destruct (superseded_stays tr s s1 i a (reachable_wf s Hr) Hi Hne He)
    as (a1 & Hi1 & _ & Hne1).
  rewrite (superseded_link_silent now act s1 s2 i a1 Hi1 Hne1 Hact Hstep).
  done.
Qed.

Lemma superseded_settlement_is_silent_witness :
  lastResult race_foo_late = Some ["b"]
  /\ lastResult race_foo_late = lastResult race_bar_done
  /\ lastCompletedQuery race_foo_late = lastCompletedQuery race_bar_done
  /\ log race_foo_late = log race_bar_done.
Proof.
  split; [vm_compute; reflexivity|].
  apply (superseded_settlement_is_silent race_superseded 0
           {| a_norm := "foo"; a_seq := 1; a_phase := Pending |}
           race_suffix race_bar_done 500 (Resolve 0 ["f"]) race_foo_late).
  - apply (sample_reachable race_prefix). vm_compute. reflexivity.
  - vm_compute. reflexivity.
  - vm_compute. discriminate.
  - vm_compute. reflexivity.
  - constructor.
  - vm_compute. reflexivity.
Defined.

(** ** [onFinally] (C2) *)

(** As stated, C2 fails: "foo" is dispatched, its fetch is called, "bar"
    supersedes it, and when the promise of "foo" later resolves and its
    chain runs to the end, [onFinally("foo")] has not been called. *)
Lemma finally_skipped_when_superseded :
  exec (race_prefix ++ race_suffix ++ [(500, Resolve 0 ["f"]); (500, Finally 0)])
    sample_init = Some race_all_done
  /\ attempts race_all_done
     = [ {| a_norm := "foo"; a_seq := 1; a_phase := Done |};
         {| a_norm := "bar"; a_seq := 2; a_phase := Done |} ]
  /\ calls race_all_done
     = [ onStart "foo"; fetchFn "foo" (Some 0%nat);
         onStart "bar"; fetchFn "bar" (Some 1%nat);
         onSuccess "bar" ["b"] false; onFinally "bar" ]
  /\ count_finally "foo" race_all_done = 0%nat.
Proof.
  split; [|split; [|split]]; vm_compute; reflexivity.
Qed.

Lemma count_finally_emit q e s :
  count_finally q (emit e s)
  = (count_finally q s + if is_finally q e then 1 else 0)%nat.
Proof.
  unfold count_finally, calls, emit. simpl.
  rewrite map_app, List.filter_app, length_app. simpl.
  by destruct (is_finally q e).
Qed.

(** The success and the [.catch] handler never call [onFinally]. *)
Lemma handlers_no_finally q now a r err s :
  count_finally q (thenHandler now a r s) = count_finally q s
  /\ count_finally q (catchHandler a err s) = count_finally q s.
Proof.
  unfold thenHandler, catchHandler. split.
  - case_match; [done|]. rewrite count_finally_emit. simpl.
    unfold count_finally, calls. simpl. lia.
  - case_match; [done|]. case_match; [|done].
    rewrite count_finally_emit. simpl. lia.
Qed.

(** The [.finally] link of an attempt that is still current. *)
Lemma finally_link_current s i a now :
  attempts s !! i = Some a -> a_phase a = Handled -> a_seq a = seq s ->
  exists s',
    step now (Finally i) s = Some s'
    /\ log s' = log s ++ [ {| ev := onFinally (a_norm a); seen := getState s' |} ]
    /\ inFlightQuery s' = None
    /\ attempts s' !! i = Some (set_phase Done a).
Proof.
  intros Hi Hp Hs. eexists. split.
  - cbn [step]. apply advance_at; try done.
    intros s0. apply (handlers_keep_attempts 0 a [] network_down s0).
  - unfold finallyHandler. rewrite Hs, Nat.eqb_refl. simpl.
    repeat split.
    apply list_lookup_insert_eq. by eapply lookup_lt_Some.
Qed.

(** Once the chain of attempt [i] is through, none of its links runs
    again. *)
Lemma done_is_final tr s s' i a now act :
  attempts s !! i = Some a -> a_phase a = Done ->
  exec tr s = Some s' -> settles i act -> step now act s' = None.
Proof.
  intros Hi Hp He Hact.
  destruct (exec_keeps tr s s' i a He Hi) as (a' & Hi' & _ & _ & Hd).
  specialize (Hd Hp).
  destruct Hact; cbn [step]; unfold advance; by rewrite Hi', Hd.
Qed.

(** The success and the [.catch] link of a pending attempt. *)
Lemma settle_link_pending s i a now act :
  attempts s !! i = Some a -> a_phase a = Pending ->
  settles i act -> act <> Finally i ->
  exists s1,
    step now act s = Some s1
    /\ count_finally (a_norm a) s1 = count_finally (a_norm a) s
    /\ attempts s1 !! i = Some (set_phase Handled a)
    /\ seq s1 = seq s.
Proof.
  intros Hi Hp Hact Hnf.
  pose proof (lookup_lt_Some _ _ _ Hi) as Hlt.
  destruct Hact as [r | err |]; [| | done].
  - destruct (handlers_no_finally (a_norm a) now a r network_down s) as [Hc _].
    destruct (handlers_keep_attempts now a r network_down s) as [Ha _].
    destruct (handlers_keep_seq now a r network_down s) as [Hq _].
    eexists. split.
    { cbn [step]. apply advance_at; try done. intros s0.
      apply (handlers_keep_attempts now a r network_down s0). }
    split; [exact Hc|]. split; [|exact Hq].
    by apply list_lookup_insert_eq.
  - destruct (handlers_no_finally (a_norm a) now a [] err s) as [_ Hc].
    destruct (handlers_keep_attempts now a [] err s) as (_ & Ha & _).
    destruct (handlers_keep_seq now a [] err s) as [_ Hq].
    eexists. split.
    { cbn [step]. apply advance_at; try done. intros s0.
      apply (handlers_keep_attempts now a [] err s0). }
    split; [exact Hc|]. split; [|exact Hq].
    by apply list_lookup_insert_eq.
Qed.

(** C2, amended.  Take a dispatched attempt with query [q] whose fetch
    is pending and which is still current (the sequence number it
    captured equals the counter).  When its promise settles, by success
    ([Resolve]) as well as by failure ([Reject]), the handler of that
    link does not call [onFinally]; the [.finally] link that follows
    calls [onFinally(q)] once, at a moment when [getState()] shows the
    in-flight slot empty; and after that no link of this attempt's chain
    can run again, so the call is never repeated.  (For a superseded
    attempt nothing is called: see C1.) *)
Theorem finally_fires_once_when_current s i a now act :
  attempts s !! i = Some a -> a_phase a = Pending -> a_seq a = seq s ->
  settles i act -> act <> Finally i ->
  exists s1 s2,
    step now act s = Some s1 /\ step now (Finally i) s1 = Some s2
    /\ count_finally (a_norm a) s1 = count_finally (a_norm a) s
    /\ log s2 = log s1 ++ [ {| ev := onFinally (a_norm a); seen := getState s2 |} ]
    /\ Snap.inFlightQuery (getState s2) = None
    /\ Snap.isInFlight (getState s2) = false
    /\ forall tr s3 now3 act3,
         exec tr s2 = Some s3 -> settles i act3 -> step now3 act3 s3 = None.
Proof.
  intros Hi Hp Hs Hact Hnf.
  destruct (settle_link_pending s i a now act Hi Hp Hact Hnf)
    as (s1 & H1 & Hc & Hi1 & Hs1).
  destruct (finally_link_current s1 i (set_phase Handled a) now Hi1)
    as (s2 & H2 & Hlog & Hin & Hi2); [done | by rewrite Hs1 |].
  exists s1, s2. repeat split; try done.
  - simpl. by rewrite Hin.
  - intros tr s3 now3 act3 He Hact3.
    by apply (done_is_final tr s2 s3 i _ now3 act3 Hi2).
Qed.

Lemma finally_fires_once_when_current_witness :
  exists s1 s2,
    step 5 (Reject 0 network_down) hello_pending = Some s1
    /\ step 5 (Finally 0) s1 = Some s2
    /\ count_finally "hello" s1 = count_finally "hello" hello_pending
    /\ log s2 = log s1 ++ [ {| ev := onFinally "hello"; seen := getState s2 |} ]
    /\ Snap.inFlightQuery (getState s2) = None
    /\ Snap.isInFlight (getState s2) = false
    /\ forall tr s3 now3 act3,
         exec tr s2 = Some s3 -> settles 0 act3 -> step now3 act3 s3 = None.
Proof.
  apply (finally_fires_once_when_current hello_pending 0
           {| a_norm := "hello"; a_seq := 1; a_phase := Pending |}
           5 (Reject 0 network_down)).
  - vm_compute. reflexivity.
  - reflexivity.
  - vm_compute. reflexivity.
  - constructor.
  - discriminate.
Defined.

(** ** The length gate (C7) *)

Lemma clearTimer_vars s :
  opts (clearTimer s) = opts s
  /\ latestText (clearTimer s) = latestText s
  /\ log (clearTimer s) = log s
  /\ lastSearchedQuery (clearTimer s) = lastSearchedQuery s
  /\ inFlightQuery (clearTimer s) = inFlightQuery s
  /\ cache (clearTimer s) = cache s
  /\ seq (clearTimer s) = seq s.
Proof. unfold clearTimer. by destruct (timerId s). Qed.

Lemma gated_clearTimer norm s : gated norm (clearTimer s) = gated norm s.
Proof. unfold gated. by destruct (clearTimer_vars s) as (-> & _). Qed.

Lemma gated_short norm s : Str.len norm < minLength (opts s) -> gated norm s = true.
Proof.
  intros H. unfold gated. apply orb_true_iff. right. by apply Z.ltb_lt.
Qed.

Lemma schedule_gated s :
  gated (normalizeQuery (latestText s)) s = true -> schedule s = clearTimer s.
Proof.
  intros H. unfold schedule.
  destruct (clearTimer_vars s) as (_ & -> & _).
  by rewrite gated_clearTimer, H.
Qed.

Lemma run_gated now q s :
  gated (normalizeQuery q) s = true -> run now (Some q) s = s.
Proof. intros H. unfold run. by rewrite H. Qed.

(** C7.  For every input [q] whose normalized form is shorter than
    [minLength], [setText(q)] calls neither [fetch] nor any callback and
    dispatches nothing, and it leaves no timer armed that could do so
    later; the same holds for [runImmediate(q)]. *)
Theorem length_gate_silences s q now :
  reachable s ->
  Str.len (normalizeQuery q) < minLength (opts s) ->
  (log (setText (Some q) s) = log s
   /\ attempts (setText (Some q) s) = attempts s
   /\ timers (setText (Some q) s) = [])
  /\ (log (runImmediate now (Some q) s) = log s
      /\ attempts (runImmediate now (Some q) s) = attempts s
      /\ timers (runImmediate now (Some q) s) = []).
Proof.
  intros Hr Hlen.
  pose proof (set_latestText_wf q s (reachable_wf s Hr)) as Hwf.
  destruct (clearTimer_clears _ (wf_timers _ Hwf)) as [Ht _].
  destruct (clearTimer_vars (set_latestText q s)) as (Ho & Hl & Hlog & _).
  split.
  - unfold setText. simpl. rewrite schedule_gated.
    + by rewrite Hlog, clearTimer_attempts, Ht.
    + by apply gated_short.
  - unfold runImmediate. rewrite Hl. simpl. rewrite run_gated.
    + by rewrite Hlog, clearTimer_attempts, Ht.
    + rewrite gated_clearTimer. by apply gated_short.
Qed.

Lemma length_gate_silences_witness :
  (log (setText (Some "hi") hello_done) = log hello_done
   /\ attempts (setText (Some "hi") hello_done) = attempts hello_done
   /\ timers (setText (Some "hi") hello_done) = [])
  /\ (log (runImmediate 20 (Some "hi") hello_done) = log hello_done
      /\ attempts (runImmediate 20 (Some "hi") hello_done) = attempts hello_done
      /\ timers (runImmediate 20 (Some "hi") hello_done) = []).
Proof.
  apply (length_gate_silences hello_done "hi" 20).
  - apply (sample_reachable (hello_dispatch ++ hello_success)).
    vm_compute. reflexivity.
  - vm_compute. reflexivity.
Defined.

(** ** Last write wins (C8) *)

Lemma schedule_vars s :
  latestText (schedule s) = latestText s /\ log (schedule s) = log s.
Proof.
  destruct (clearTimer_vars s) as (_ & Hl & Hlog & _).
  unfold schedule, setTimeout. repeat case_match; by simpl.
Qed.

Lemma setText_vars text s :
  latestText (setText text s) = default "" text
  /\ log (setText text s) = log s
  /\ attempts (setText text s) = attempts s.
Proof.
  unfold setText. rewrite schedule_attempts.
  by destruct (schedule_vars (set_latestText (default "" text) s)) as [-> ->].
Qed.

Lemma handlers_keep_latestText now a r err s :
  latestText (thenHandler now a r s) = latestText s
  /\ latestText (catchHandler a err s) = latestText s
  /\ latestText (finallyHandler a s) = latestText s
  /\ latestText (fetchLink a s) = latestText s.
Proof.
  unfold thenHandler, catchHandler, finallyHandler.
  repeat split; repeat case_match; done.
Qed.

Lemma advance_keeps i from to k s s' :
  (forall a s0, attempts (k a s0) = attempts s0
                /\ latestText (k a s0) = latestText s0) ->
  advance i from to k s = Some s' ->
  dispatched s' = dispatched s /\ latestText s' = latestText s.
Proof.
  intros Hk. unfold advance, dispatched.
  destruct (attempts s !! i) as [a|] eqn:Hi; [|done].
  case_match; [|done]. intros [= <-]. simpl.
  destruct (Hk a s) as [-> ->]. split; [|done].
  rewrite list_fmap_insert. simpl.
  apply list_insert_id. by rewrite list_lookup_fmap, Hi.
Qed.

(** The links of the promise chains dispatch nothing and do not touch
    the latest text. *)
Lemma chain_step_keeps now act s s' :
  chain_action act = true -> step now act s = Some s' ->
  dispatched s' = dispatched s /\ latestText s' = latestText s.
Proof.
  destruct act as [c | id | i | i r | i err | i]; try done; intros _ H;
    cbn [step] in H; eapply advance_keeps; try exact H; intros a s0.
  - done.
  - destruct (handlers_keep_attempts now a r network_down s0) as (-> & _).
    by destruct (handlers_keep_latestText now a r network_down s0) as (-> & _).
  - destruct (handlers_keep_attempts now a [] err s0) as (_ & -> & _).
    by destruct (handlers_keep_latestText now a [] err s0) as (_ & -> & _).
  - destruct (handlers_keep_attempts now a [] network_down s0) as (_ & _ & -> & _).
    by destruct (handlers_keep_latestText now a [] network_down s0)
      as (_ & _ & -> & _).
Qed.

Lemma chain_exec_keeps tr : forall s s',
  chain_only tr = true -> exec tr s = Some s' ->
  dispatched s' = dispatched s /\ latestText s' = latestText s.
Proof.
  induction tr as [| [now act] tr IH]; simpl; intros s s'.
  - by intros _ [= <-].
  - intros [Ha Htr]%andb_true_iff.
    destruct (step now act s) as [s1|] eqn:E; [|done]. intros He.
    destruct (IH s1 s' Htr He) as [-> ->].
    by eapply chain_step_keeps.
Qed.

(** What the debounce timer does when it elapses. *)
Lemma timer_fire_dispatches now id s s' :
  wf s -> step now (TimerFire id) s = Some s' ->
  timers s' = []
  /\ (dispatched s' = dispatched s
      \/ dispatched s' = dispatched s ++ [normalizeQuery (latestText s)]).
Proof.
  intros Hwf. cbn [step]. destruct (armed id s) eqn:E; [|done].
  intros [= <-].
  destruct (armed_only id s (wf_timers s Hwf) E) as [_ Hcl].
  unfold timerCallback. split.
  - match goal with |- context [run ?n ?q ?s0] =>
      destruct (run_timers n q s0) as [-> _] end. exact Hcl.
  - unfold dispatched.
    match goal with |- context [run ?n ?q ?s0] =>
      destruct (run_attempts n q s0) as [-> | ->] end.
    + by left.
    + right. by rewrite map_app.
Qed.

(** C8.  Let [setText(a)] be followed by [setText(b)], where [a] and
    [b] normalize differently, with no timer elapsing and no other
    method called in between or afterwards (links of promise chains may
    run at any point).  The two calls themselves dispatch nothing.
    Whatever timer is then armed, when it elapses it dispatches at most
    one fetch, for [b]'s normalized query and never for [a]'s, and it
    leaves no timer behind. *)
Theorem last_write_wins s a b tr1 s1 tr2 s2 :
  reachable s ->
  normalizeQuery a <> normalizeQuery b ->
  chain_only tr1 = true ->
  exec tr1 (setText (Some a) s) = Some s1 ->
  chain_only tr2 = true ->
  exec tr2 (setText (Some b) s1) = Some s2 ->
  dispatched s2 = dispatched s
  /\ forall id now s3,
       step now (TimerFire id) s2 = Some s3 ->
       timers s3 = []
       /\ exists l, dispatched s3 = dispatched s ++ l
            /\ (l = [] \/ l = [normalizeQuery b])
            /\ ~ In (normalizeQuery a) l.
Proof.
  intros Hr Hab Htr1 He1 Htr2 He2.
  assert (Hwf : wf s2).
  { eapply exec_wf; [|exact He2].
    apply (invoke_wf 0 (SetText (Some b))).
    eapply exec_wf; [|exact He1].
    apply (invoke_wf 0 (SetText (Some a))). by apply reachable_wf. }
  destruct (chain_exec_keeps tr1 _ s1 Htr1 He1) as [Hd1 _].
  destruct (chain_exec_keeps tr2 _ s2 Htr2 He2) as [Hd2 Hl2].
  destruct (setText_vars (Some a) s) as (_ & _ & Ha).
  destruct (setText_vars (Some b) s1) as (Hl & _ & Hb).
  assert (Hd : dispatched s2 = dispatched s).
  { rewrite Hd2. unfold dispatched at 1. rewrite Hb.
    fold (dispatched s1). rewrite Hd1. unfold dispatched. by rewrite Ha. }
  split; [exact Hd|].
  intros id now s3 Hfire.
  destruct (timer_fire_dispatches now id s2 s3 Hwf Hfire) as [Ht Hs3].
  split; [exact Ht|].
  rewrite Hl2, Hl, Hd in Hs3. simpl in Hs3.
  destruct Hs3 as [-> | ->].
  - exists []. rewrite app_nil_r. by auto.
  - exists [normalizeQuery b]. split; [done|]. split; [by right|].
    intros [H | []]. by apply Hab.
Qed.

Lemma last_write_wins_witness :
  dispatched (setText (Some "explain react hooks")
                (setText (Some "explain react") hello_pending))
  = dispatched hello_pending
  /\ forall id now s3,
       step now (TimerFire id)
         (setText (Some "explain react hooks")
            (setText (Some "explain react") hello_pending)) = Some s3 ->
       timers s3 = []
       /\ exists l, dispatched s3 = dispatched hello_pending ++ l
            /\ (l = [] \/ l = [normalizeQuery "explain react hooks"])
            /\ ~ In (normalizeQuery "explain react") l.
Proof.
  apply (last_write_wins hello_pending "explain react" "explain react hooks"
           [] (setText (Some "explain react") hello_pending) []).
  - apply (sample_reachable hello_dispatch). vm_compute. reflexivity.
  - vm_compute. discriminate.
  - reflexivity.
  - reflexivity.
  - reflexivity.
  - reflexivity.
Defined.

(** ** [runImmediate] (C3) *)

(** As stated, C3 fails: "hello" was the last query searched, "hellos"
    extends it by one character, and [runImmediate("hellos")] makes the
    orchestrator call [fetch("hellos")].  ([setText("hellos")] in the
    same state arms no timer: the near-duplicate filter is [schedule]'s.) *)
Lemma runImmediate_ignores_near_duplicate :
  lastSearchedQuery hello_done = "hello"
  /\ normalizeQuery "hellos" = String.append "hello" "s"
  /\ exec hellos_enter hello_done = Some hellos_fetched
  /\ calls hellos_fetched
     = calls hello_done ++ [ onStart "hellos"; fetchFn "hellos" (Some 1%nat) ]
  /\ timers (setText (Some "hellos") hello_done) = [].
Proof.
  split; [|split; [|split; [|split]]]; vm_compute; reflexivity.
Qed.

Lemma isQuery_spec q norm : isQuery q norm = true <-> q = Some norm.
Proof.
  destruct q as [t|]; simpl; [|done].
  rewrite String.eqb_eq. split; congruence.
Qed.

Lemma truthy_not_gated norm s : gated norm s = false -> Str.truthy norm = true.
Proof.
  unfold gated. intros [H _]%orb_false_iff. by apply negb_false_iff.
Qed.

Lemma core_eq_vars s s' :
  core_eq s s' ->
  opts s' = opts s /\ inFlightQuery s' = inFlightQuery s
  /\ attempts s' = attempts s /\ seq s' = seq s
  /\ abortController s' = abortController s
  /\ lastSearchedQuery s' = lastSearchedQuery s.
Proof. by intros ->. Qed.

(** The dedup test of [run], for a query that passed the gate. *)
Lemma dedup_test norm s :
  Str.truthy norm = true ->
  truthyQuery (inFlightQuery s) && isQuery (inFlightQuery s) norm
  = isQuery (inFlightQuery s) norm.
Proof.
  intros Ht. destruct (isQuery (inFlightQuery s) norm) eqn:E.
  - apply isQuery_spec in E. rewrite E. simpl. by rewrite Ht.
  - by rewrite andb_false_r.
Qed.

(** [run] on a query that is already in flight dispatches nothing. *)
Lemma run_dedup now q s :
  inFlightQuery s = Some (normalizeQuery q) ->
  attempts (run now (Some q) s) = attempts s.
Proof.
  intros Hin. unfold run.
  destruct (gated (normalizeQuery q) s) eqn:Hg; [done|].
  pose proof (truthy_not_gated _ _ Hg) as Ht.
  pose proof (getCached_core now (normalizeQuery q) s) as Hc.
  destruct (getCached now (normalizeQuery q) s) as [cached s1].
  simpl in Hc. destruct (core_eq_vars s s1 Hc) as (_ & Hi & Ha & _).
  assert (Hq : isQuery (inFlightQuery s1) (normalizeQuery q) = true).
  { apply isQuery_spec. by rewrite Hi. }
  destruct cached as [r|].
  - case_match; [done|].
    rewrite (dedup_test _ _ Ht). simpl. by rewrite Hq.
  - rewrite (dedup_test _ _ Ht), Hq. done.
Qed.

Lemma getCached_log now q s : log (getCached now q s).2 = log s.
Proof. unfold getCached. by repeat case_match. Qed.

Lemma run_latestText now q s : latestText (run now q s) = latestText s.
Proof.
  destruct (run_shape now q s) as (s2 & Hc & [-> | [_ ->]]).
  - by rewrite Hc.
  - destruct (dispatch_vars (normalizeQuery (default (latestText s) q)) s2)
      as (-> & _). by rewrite Hc.
Qed.

Lemma cacheStage_core now norm s : core_eq s (cacheStage now norm s).
Proof.
  unfold cacheStage. pose proof (getCached_core now norm s) as Hc.
  destruct (getCached now norm s) as [[r|] s1]; simpl in Hc;
    [by apply core_eq_emit | done].
Qed.

Lemma cacheStage_calls now norm s :
  calls (cacheStage now norm s)
  = calls s ++ match (getCached now norm s).1 with
               | Some r => [onSuccess norm r true]
               | None => []
               end.
Proof.
  unfold cacheStage, calls. pose proof (getCached_log now norm s) as Hlog.
  destruct (getCached now norm s) as [[r|] s1]; simpl in *.
  - by rewrite map_app, Hlog.
  - by rewrite Hlog, app_nil_r.
Qed.

(** [run] on a query that passes the gate, is not in flight and is not
    answered from the cache for good: a dispatch from the state the
    cache lookup left. *)
Lemma run_dispatches now q s :
  let norm := normalizeQuery q in
  gated norm s = false ->
  inFlightQuery s <> Some norm ->
  (getCached now norm s).1 = None \/ refreshOnCache (opts s) = true ->
  run now (Some q) s = dispatch norm (cacheStage now norm s).
Proof.
  intros norm Hg Hin Hhit. unfold run, cacheStage. fold norm. rewrite Hg.
  pose proof (truthy_not_gated _ _ Hg) as Ht.
  pose proof (getCached_core now norm s) as Hc.
  destruct (getCached now norm s) as [cached s1].
  simpl in Hc, Hhit. destruct (core_eq_vars s s1 Hc) as (Ho & Hi & _).
  assert (Hq : isQuery (inFlightQuery s1) norm = false).
  { destruct (isQuery (inFlightQuery s1) norm) eqn:E; [|done].
    apply isQuery_spec in E. rewrite Hi in E. done. }
  destruct cached as [r|].
  - destruct Hhit as [Hhit | Hr]; [done|].
    simpl. rewrite Ho, Hr. simpl.
    by rewrite (dedup_test norm s1 Ht), Hq.
  - by rewrite (dedup_test norm s1 Ht), Hq.
Qed.

(** C3, amended.  [runImmediate(text)] cancels the pending debounce
    timer, records the text and runs at once.  It obeys the length gate
    (a gated query calls and dispatches nothing) and the in-flight dedup
    (a query equal to the one in flight is not dispatched again), but
    not the near-duplicate filter: a query that passes the gate, is not
    in flight and is not answered from the cache for good is dispatched,
    whatever the last searched query is - a one-character extension of
    it included. *)
Theorem runImmediate_gate_and_dedup s text now :
  reachable s ->
  let norm := normalizeQuery text in
  let s' := runImmediate now (Some text) s in
  (timers s' = [] /\ timerId s' = None /\ latestText s' = text)
  /\ (gated norm s = true -> log s' = log s /\ attempts s' = attempts s)
  /\ (inFlightQuery s = Some norm -> attempts s' = attempts s)
  /\ (gated norm s = false ->
      inFlightQuery s <> Some norm ->
      (getCached now norm s).1 = None \/ refreshOnCache (opts s) = true ->
      attempts s'
      = attempts s ++ [ {| a_norm := norm; a_seq := S (seq s); a_phase := Queued |} ]
      /\ exists l, calls s' = calls s ++ l ++ [onStart norm]).
Proof.
  intros Hr norm s'. subst norm.
  pose proof (set_latestText_wf text s (reachable_wf s Hr)) as Hwf.
  destruct (clearTimer_clears _ (wf_timers _ Hwf)) as [Ht Hid].
  destruct (clearTimer_vars (set_latestText text s))
    as (Ho & Hl & Hlog & _ & Hin & Hca & Hsq).
  pose proof (clearTimer_attempts (set_latestText text s)) as Hat.
  simpl in Ho, Hl, Hlog, Hin, Hca, Hsq, Hat.
  set (s0 := clearTimer (set_latestText text s)) in *.
  assert (Hs' : s' = run now (Some text) s0).
  { unfold s', runImmediate. fold s0. by rewrite Hl. }
  assert (Hg0 : gated (normalizeQuery text) s0 = gated (normalizeQuery text) s).
  { unfold s0. by rewrite gated_clearTimer. }
  split; [|split; [|split]].
  - rewrite Hs'. destruct (run_timers now (Some text) s0) as [-> ->].
    split; [done|]. split; [done|]. by rewrite run_latestText.
  - intros Hg. rewrite Hs', run_gated by by rewrite Hg0.
    by rewrite Hlog, Hat.
  - intros Hfl. rewrite Hs', run_dedup by by rewrite Hin. done.
  - intros Hg Hfl Hhit.
    assert (Hgc : (getCached now (normalizeQuery text) s0).1
                  = (getCached now (normalizeQuery text) s).1).
    { unfold getCached. rewrite Ho, Hca. by repeat case_match. }
    rewrite Hs', (run_dispatches now text s0);
      [| by rewrite Hg0 | by rewrite Hin | by rewrite Hgc, Ho].
    destruct (core_eq_vars s0 _ (cacheStage_core now (normalizeQuery text) s0))
      as (_ & _ & Ha2 & Hq2 & _).
    split.
    + by rewrite dispatch_attempts, Ha2, Hq2, Hat, Hsq.
    + rewrite dispatch_calls, cacheStage_calls. eexists.
      rewrite <- app_assoc. unfold calls at 1. by rewrite Hlog.
Qed.

Lemma runImmediate_gate_and_dedup_witness :
  timers (runImmediate 20 (Some "hellos") hello_done) = []
  /\ lastSearchedQuery hello_done = "hello"
  /\ attempts (runImmediate 20 (Some "hellos") hello_done)
     = attempts hello_done
       ++ [ {| a_norm := "hellos"; a_seq := 2; a_phase := Queued |} ].
Proof.
  destruct (runImmediate_gate_and_dedup hello_done "hellos" 20)
    as ((Ht & _) & _ & _ & Hd).
  - apply (sample_reachable (hello_dispatch ++ hello_success)).
    vm_compute. reflexivity.
  - split; [exact Ht|]. split; [vm_compute; reflexivity|].
    apply Hd.
    + vm_compute. reflexivity.
    + vm_compute. discriminate.
    + left. vm_compute. reflexivity.
Defined.

(** ** Stale cache entries (C4) *)

(** As stated, C4 fails: the entry for "hello" was written at time 10
    and [cacheTTL] is 60000; however late [setText("hello")] comes, it
    arms no timer, no chain is waiting, and so no fetch can follow:
    "hello" is still the last searched query, which [schedule] skips. *)
Lemma stale_repeat_not_refetched :
  cache hello_done !! "hello" = Some {| ts := 10; cached_result := ["m1"] |}
  /\ cacheTTL (opts hello_done) = 60000
  /\ lastSearchedQuery hello_done = "hello"
  /\ timers (setText (Some "hello") hello_done) = []
  /\ map a_phase (attempts (setText (Some "hello") hello_done)) = [Done]
  /\ calls (setText (Some "hello") hello_done) = calls hello_done
  /\ forall now id,
       step now (TimerFire id) (setText (Some "hello") hello_done) = None.
Proof.
  split; [|split; [|split; [|split; [|split; [|split]]]]];
    vm_compute; reflexivity.
Qed.

(** A lookup of an entry older than [cacheTTL] misses. *)
Lemma getCached_stale now norm e s :
  cache s !! norm = Some e -> now - ts e > cacheTTL (opts s) ->
  (getCached now norm s).1 = None
  /\ (useCache (opts s) = true -> cache (getCached now norm s).2 !! norm = None).
Proof.
  intros He Hold. unfold getCached.
  destruct (useCache (opts s)); simpl; [|done].
  rewrite He. apply Z.gt_lt, Z.gtb_lt in Hold. rewrite Hold. simpl.
  split; [done|]. intros _. apply lookup_delete_eq.
Qed.

(** [schedule] arms nothing for the query searched last. *)
Lemma schedule_same_query s :
  timers_ok s -> normalizeQuery (latestText s) = lastSearchedQuery s ->
  timers (schedule s) = [].
Proof.
  intros Hok Hsame. destruct (clearTimer_clears s Hok) as [Ht _].
  destruct (clearTimer_vars s) as (_ & Hl & _ & Hlast & _).
  unfold schedule. rewrite Hl, Hlast, Hsame, String.eqb_refl. simpl.
  by case_match.
Qed.

(** The first link of a chain calls [fetch] with the attempt's query. *)
Lemma callFetch_queued now i a s :
  attempts s !! i = Some a -> a_phase a = Queued ->
  exists s2, step now (CallFetch i) s = Some s2
    /\ calls s2 = calls s ++ [fetchFn (a_norm a) (abortController s)].
Proof.
  intros Hi Hp. eexists. split.
  - cbn [step]. by apply advance_at.
  - unfold calls. simpl. by rewrite map_app.
Qed.

(** C4, amended.  Let the cache entry of the normalized query of [q] be
    older than [cacheTTL].  (a) As long as that query is still the last
    searched one, [setText(q)] arms no timer, calls nothing and
    dispatches nothing.  (b) Once [q] is the latest text and the
    debounce timer elapses, with the query passing the length gate and
    not in flight, the stale entry is not served (no cache-hit
    callback; with [useCache] it is evicted), a fetch attempt is
    dispatched, and the next link of its chain calls [fetch] with the
    query. *)
Theorem stale_entry_refetched_on_run s q e now now' :
  reachable s ->
  cache s !! normalizeQuery q = Some e ->
  now - ts e > cacheTTL (opts s) ->
  (lastSearchedQuery s = normalizeQuery q ->
     timers (setText (Some q) s) = []
     /\ log (setText (Some q) s) = log s
     /\ attempts (setText (Some q) s) = attempts s)
  /\ (latestText s = q ->
      gated (normalizeQuery q) s = false ->
      inFlightQuery s <> Some (normalizeQuery q) ->
      forall id, armed id s = true ->
      exists s1 s2,
        step now (TimerFire id) s = Some s1
        /\ calls s1 = calls s ++ [onStart (normalizeQuery q)]
        /\ dispatched s1 = dispatched s ++ [normalizeQuery q]
        /\ (useCache (opts s) = true -> cache s1 !! normalizeQuery q = None)
        /\ step now' (CallFetch (List.length (attempts s))) s1 = Some s2
        /\ calls s2
           = calls s ++ [ onStart (normalizeQuery q);
                          fetchFn (normalizeQuery q) (abortController s1) ]).
Proof.
  intros Hr He Hold. pose proof (reachable_wf s Hr) as Hwf. split.
  - intros Hlast. destruct (setText_vars (Some q) s) as (_ & -> & ->).
    split; [|done]. unfold setText. apply schedule_same_query.
    + apply (wf_timers _ (set_latestText_wf _ _ Hwf)).
    + done.
  - intros Hl Hg Hin id Harm.
    destruct (armed_only id s (wf_timers s Hwf) Harm) as [_ Hcl].
    set (s0 := set_timerId None (set_timers (clearTimeout id (timers s)) s)).
    destruct (getCached_stale now (normalizeQuery q) e s0 He Hold) as [Hmiss Hev].
    assert (Hrun : timerCallback now (set_timers (clearTimeout id (timers s)) s)
                   = dispatch (normalizeQuery q) (getCached now (normalizeQuery q) s0).2).
    { unfold timerCallback. fold s0. simpl. rewrite Hl.
      rewrite (run_dispatches now q s0); [| done | done | by left].
      unfold cacheStage. destruct (getCached now (normalizeQuery q) s0) as [c s1].
      simpl in Hmiss. by rewrite Hmiss. }
    pose proof (getCached_core now (normalizeQuery q) s0) as Hc.
    pose proof (getCached_log now (normalizeQuery q) s0) as Hlog.
    set (sc := (getCached now (normalizeQuery q) s0).2) in *.
    destruct (core_eq_vars s0 sc Hc) as (_ & _ & Ha & Hq & _).
    destruct (dispatch_vars (normalizeQuery q) sc) as (_ & _ & _ & _ & Hca & _).
    assert (Hcalls : calls (dispatch (normalizeQuery q) sc)
                     = calls s ++ [onStart (normalizeQuery q)]).
    { rewrite dispatch_calls. unfold calls. by rewrite Hlog. }
    assert (Hatt : attempts (dispatch (normalizeQuery q) sc)
                   = attempts s ++ [ {| a_norm := normalizeQuery q;
                                        a_seq := S (seq s); a_phase := Queued |} ]).
    { by rewrite dispatch_attempts, Ha, Hq. }
    destruct (callFetch_queued now' (List.length (attempts s))
                {| a_norm := normalizeQuery q; a_seq := S (seq s);
                   a_phase := Queued |}
                (dispatch (normalizeQuery q) sc)) as (s2 & Hs2 & Hc2).
    { rewrite Hatt. apply lookup_snoc_last. }
    { done. }
    exists (dispatch (normalizeQuery q) sc), s2. split.
    { cbn [step]. by rewrite Harm, Hrun. }
    split; [exact Hcalls|]. split.
    { unfold dispatched. by rewrite Hatt, map_app. }
    split.
    { intros Hu. rewrite Hca. by apply Hev. }
    split; [exact Hs2|].
    rewrite Hc2, Hcalls, <- app_assoc. done.
Qed.

Lemma stale_entry_refetched_on_run_witness :
  exists s1 s2,
    step 70075 (TimerFire 2) hello_rearmed = Some s1
    /\ calls s1 = calls hello_rearmed ++ [onStart "hello"]
    /\ dispatched s1 = dispatched hello_rearmed ++ ["hello"]
    /\ (useCache (opts hello_rearmed) = true -> cache s1 !! "hello" = None)
    /\ step 70075 (CallFetch 2) s1 = Some s2
    /\ calls s2
       = calls hello_rearmed ++ [ onStart "hello";
                                  fetchFn "hello" (abortController s1) ].
Proof.
  destruct (stale_entry_refetched_on_run hello_rearmed "hello"
              {| ts := 10; cached_result := ["m1"] |} 70075 70075)
    as [_ Hb].
  - apply (sample_reachable (hello_dispatch ++ hello_success ++ world_search)).
    vm_compute. reflexivity.
  - vm_compute. reflexivity.
  - vm_compute. reflexivity.
  - apply Hb.
    + vm_compute. reflexivity.
    + vm_compute. reflexivity.
    + vm_compute. discriminate.
    + vm_compute. reflexivity.
Defined.

(** ** Cache hits (C6) *)

(** As stated, C6 fails: [useCache] is on, [refreshOnCache] is off and
    the entry for "hello" is 10 ms old, but [minLength] has been raised
    to 10 in the meantime, and [run("hello")] stops at the length gate
    without calling [onSuccess]. *)
Lemma cache_hit_behind_length_gate :
  useCache (opts hello_min10) = true
  /\ refreshOnCache (opts hello_min10) = false
  /\ cache hello_min10 !! "hello" = Some {| ts := 10; cached_result := ["m1"] |}
  /\ 20 - 10 < cacheTTL (opts hello_min10)
  /\ exec (hello_dispatch ++ hello_success ++ raise_minLength) sample_init
     = Some hello_min10
  /\ run 20 (Some "hello") hello_min10 = hello_min10.
Proof.
  split; [|split; [|split; [|split; [|split]]]]; vm_compute; reflexivity.
Qed.

(** A lookup of an entry no older than [cacheTTL] hits and changes
    nothing. *)
Lemma getCached_fresh now norm e s :
  useCache (opts s) = true ->
  cache s !! norm = Some e -> now - ts e <= cacheTTL (opts s) ->
  getCached now norm s = (Some (cached_result e), s).
Proof.
  intros Hu He Hfresh. unfold getCached. rewrite Hu, He. simpl.
  destruct (now - ts e >? cacheTTL (opts s)) eqn:E; [|done].
  apply Z.gtb_lt in E. lia.
Qed.

(** C6, amended.  If [useCache] is on, [refreshOnCache] is off, the
    cache holds an entry for the normalized query written less than
    [cacheTTL] ago, and the query passes the length gate, then [run]
    does exactly one thing: it calls
    [onSuccess(query, cachedResult, { fromCache: true })].  No attempt
    is dispatched (so [fetch] is not called for this run), and the
    in-flight query, the abort controller, the sequence counter and the
    cache stay as they were. *)
Theorem fresh_cache_hit_short_circuits s q e now :
  useCache (opts s) = true ->
  refreshOnCache (opts s) = false ->
  cache s !! normalizeQuery q = Some e ->
  now - ts e < cacheTTL (opts s) ->
  gated (normalizeQuery q) s = false ->
  run now (Some q) s
  = emit (onSuccess (normalizeQuery q) (cached_result e) true) s
  /\ calls (run now (Some q) s)
     = calls s ++ [onSuccess (normalizeQuery q) (cached_result e) true]
  /\ attempts (run now (Some q) s) = attempts s
  /\ inFlightQuery (run now (Some q) s) = inFlightQuery s
  /\ abortController (run now (Some q) s) = abortController s
  /\ seq (run now (Some q) s) = seq s
  /\ cache (run now (Some q) s) = cache s.
Proof.
  intros Hu Hr He Hfresh Hg.
  assert (Hrun : run now (Some q) s
                 = emit (onSuccess (normalizeQuery q) (cached_result e) true) s).
  { unfold run. rewrite Hg, (getCached_fresh now _ e s Hu He) by lia.
    simpl. by rewrite Hr. }
  rewrite Hrun. split; [done|]. split; [|done].
  unfold calls. simpl. by rewrite map_app.
Qed.

Lemma fresh_cache_hit_short_circuits_witness :
  run 20 (Some "Hello ") hello_done
  = emit (onSuccess "hello" ["m1"] true) hello_done
  /\ calls (run 20 (Some "Hello ") hello_done)
     = calls hello_done ++ [onSuccess "hello" ["m1"] true]
  /\ attempts (run 20 (Some "Hello ") hello_done) = attempts hello_done
  /\ inFlightQuery (run 20 (Some "Hello ") hello_done) = inFlightQuery hello_done
  /\ abortController (run 20 (Some "Hello ") hello_done)
     = abortController hello_done
  /\ seq (run 20 (Some "Hello ") hello_done) = seq hello_done
  /\ cache (run 20 (Some "Hello ") hello_done) = cache hello_done.
Proof.
  apply (fresh_cache_hit_short_circuits hello_done "Hello "
           {| ts := 10; cached_result := ["m1"] |} 20);
    vm_compute; reflexivity.
Defined.

(** ** Cache writes (C9) *)

(** As stated, C9 fails: the attempt for "hello" still holds the current
    sequence number, but [cancel()] has emptied the in-flight slot, and
    when the fetch then succeeds its result is not written to the cache. *)
Lemma cancelled_success_not_cached :
  attempts hello_cancelled !! 0%nat
  = Some {| a_norm := "hello"; a_seq := 1; a_phase := Pending |}
  /\ seq hello_cancelled = 1%nat
  /\ exists s',
       step 10 (Resolve 0 ["m1"]) hello_cancelled = Some s'
       /\ cache s' = ∅
       /\ Snap.cacheSize (getState s') = 0%nat
       /\ calls s' = calls hello_cancelled.
Proof.
  split; [vm_compute; reflexivity|]. split; [vm_compute; reflexivity|].
  eexists. split; [vm_compute; reflexivity|].
  split; [|split]; vm_compute; reflexivity.
Qed.

(** With [useCache] off, lookups miss and leave the cache alone. *)
Lemma getCached_disabled now norm s :
  useCache (opts s) = false -> getCached now norm s = (None, s).
Proof. intros Hu. unfold getCached. by rewrite Hu. Qed.

(** C9, amended.  A successful fetch resolution of an attempt that is
    still current - its sequence number is the counter's and its query
    is still the in-flight query, so that it has not been cancelled -
    writes its result into the cache, stamped with the time of the
    write, whatever [useCache] is.  If the query had no entry,
    [getState().cacheSize] grows by one.  With [useCache] off the entry
    just written is not returned by a lookup, and the lookup leaves the
    cache as it is: only reads are disabled. *)
Theorem success_is_cached_whatever_useCache s i a r now now' :
  attempts s !! i = Some a -> a_phase a = Pending ->
  a_seq a = seq s -> inFlightQuery s = Some (a_norm a) ->
  exists s',
    step now (Resolve i r) s = Some s'
    /\ cache s' = <[a_norm a := {| ts := now; cached_result := r |}]> (cache s)
    /\ (cache s !! a_norm a = None ->
        Snap.cacheSize (getState s') = S (Snap.cacheSize (getState s)))
    /\ (useCache (opts s) = false ->
        getCached now' (a_norm a) s' = (None, s')).
Proof.
  intros Hi Hp Hs Hin. eexists. split.
  { cbn [step]. apply advance_at; try done. intros s0.
    apply (handlers_keep_attempts now a r network_down s0). }
  unfold thenHandler.
  assert (Hq : isQuery (inFlightQuery s) (a_norm a) = true)
    by by apply isQuery_spec.
  rewrite Hq, Hs, Nat.eqb_refl. simpl.
  split; [done|]. split.
  - intros Hnone. by apply map_size_insert_None.
  - intros Hu. by apply getCached_disabled.
Qed.

Lemma success_is_cached_whatever_useCache_witness :
  useCache (opts nocache_pending) = false
  /\ exists s',
       step 10 (Resolve 0 ["m1"]) nocache_pending = Some s'
       /\ cache s' = <["hello" := {| ts := 10; cached_result := ["m1"] |}]>
                       (cache nocache_pending)
       /\ (cache nocache_pending !! "hello" = None ->
           Snap.cacheSize (getState s')
           = S (Snap.cacheSize (getState nocache_pending)))
       /\ (useCache (opts nocache_pending) = false ->
           getCached 20 "hello" s' = (None, s')).
Proof.
  split; [vm_compute; reflexivity|].
  apply (success_is_cached_whatever_useCache nocache_pending 0
           {| a_norm := "hello"; a_seq := 1; a_phase := Pending |}
           ["m1"] 10 20);
    vm_compute; reflexivity.
Defined.

(** ** Cancellation and [onError] (C5) *)

(** The first test of the [.catch] handler never succeeds: the
    controller that [abortController] names when the handler runs has
    not been aborted, because every [abort()] is followed at once by the
    replacement or the clearing of [abortController]. *)
Lemma current_signal_not_aborted s :
  wf s ->
  match abortController s with
  | Some c => signalAborted c s
  | None => false
  end = false.
Proof.
  intros Hwf. destruct (abortController s) as [c|] eqn:E; [|done].
  unfold signalAborted. by rewrite (wf_controller s Hwf c E).
Qed.

(** So the handler decides by the name of the error alone. *)
Lemma catchHandler_by_name a err s :
  wf s ->
  catchHandler a err s
  = if negb (a_seq a =? seq s)%nat then s
    else if String.eqb (err_name err) "AbortError" then s
    else emit (onError (a_norm a) err) s.
Proof.
  intros Hwf. unfold catchHandler.
  rewrite (current_signal_not_aborted s Hwf). simpl.
  by destruct (String.eqb (err_name err) "AbortError").
Qed.

(** A rejection named "AbortError" is swallowed. *)
Lemma abort_error_swallowed a msg s :
  catchHandler a {| err_name := "AbortError"; err_message := msg |} s = s.
Proof.
  unfold catchHandler. simpl. rewrite orb_true_r. simpl. by case_match.
Qed.

(** C5 fails on the code.  The fetch for "hello" was called with the
    signal of controller 0; [cancel()] aborts that controller; the fetch
    rejects because of it, with an error that is not named
    "AbortError"; the attempt still holds the current sequence number,
    and [onError("hello", err)] is called. *)
Theorem cancel_rejection_reaches_onError :
  calls hello_pending = [ onStart "hello"; fetchFn "hello" (Some 0%nat) ]
  /\ controllers hello_pending !! 0%nat = Some false
  /\ controllers hello_cancelled !! 0%nat = Some true
  /\ exists s',
       exec [ (6, Reject 0 cancelled_error); (6, Finally 0) ] hello_cancelled
       = Some s'
       /\ calls s'
          = [ onStart "hello"; fetchFn "hello" (Some 0%nat);
              onError "hello" cancelled_error; onFinally "hello" ].
Proof.
  split; [vm_compute; reflexivity|]. split; [vm_compute; reflexivity|].
  split; [vm_compute; reflexivity|].
  eexists. split; vm_compute; reflexivity.
Qed.

(** ** Construction (C10) *)




(** * Further properties of the orchestrator and of its callers *)

(** ** [normalizeQuery] *)

Lemma lower_is_space c : Str.is_space (Str.lower c) = Str.is_space c.
Proof. destruct c as [[] [] [] [] [] [] [] []]; reflexivity. Qed.

Lemma lower_lower c : Str.lower (Str.lower c) = Str.lower c.
Proof. destruct c as [[] [] [] [] [] [] [] []]; reflexivity. Qed.

Lemma toLowerCase_length s :
  String.length (Str.toLowerCase s) = String.length s.
Proof. induction s as [|c r IH]; simpl; congruence. Qed.

Lemma trimStart_length s :
  (String.length (Str.trimStart s) <= String.length s)%nat.
Proof.
  induction s as [|c r IH]; simpl; [lia|].
  destruct (Str.is_space c); simpl; lia.
Qed.


Lemma collapse_length b s :
  (String.length (Str.collapse b s) <= String.length s)%nat.
Proof.
  revert b. induction s as [|c r IH]; intros b; simpl; [lia|].
  destruct (Str.is_space c); [destruct b|]; simpl.
  - specialize (IH true). lia.
  - specialize (IH true). lia.
  - specialize (IH false). lia.
Qed.




(** *** Empty results *)

Lemma trimStart_all_space s : all_space s = true -> Str.trimStart s = "".
Proof.
  induction s as [|c r IH]; simpl; [done|].
  intros [Hc Hr]%andb_true_iff. rewrite Hc. auto.
Qed.

Lemma trimStart_not_all_space s :
  all_space s = false ->
  exists c r, Str.trimStart s = String c r /\ Str.is_space c = false.
Proof.
  induction s as [|c r IH]; simpl; [done|].
  destruct (Str.is_space c) eqn:E; simpl; [exact IH|].
  intros _. exists c, r. by rewrite ?E.
Qed.

Lemma trimEnd_nonempty c r :
  Str.is_space c = false -> Str.trimEnd (String c r) = String c (Str.trimEnd r).
Proof.
  intros Hc. simpl. rewrite Hc. by destruct (Str.trimEnd r).
Qed.

(** The normalized query is empty exactly for the texts that consist of
    white space only (the empty text included): these are the texts
    that the test [!norm] of [run] and [schedule] rejects whatever
    [minLength] is. *)
Theorem normalizeQuery_empty_iff text :
  normalizeQuery text = "" <-> all_space text = true.
Proof.
  unfold normalizeQuery, Str.truthy. rewrite negb_involutive.
  destruct (String.eqb_spec text "") as [-> | Hne]; [done|].
  unfold Str.trim. destruct (all_space text) eqn:E.
  - by rewrite (trimStart_all_space _ E).
  - destruct (trimStart_not_all_space _ E) as (c & r & -> & Hc).
    rewrite (trimEnd_nonempty _ _ Hc). simpl. rewrite Hc. done.
Qed.

Lemma normalizeQuery_empty_iff_witness :
  normalizeQuery (String (ascii_of_nat 9) (String (ascii_of_nat 160) " ")) = "".
Proof. apply normalizeQuery_empty_iff. reflexivity. Defined.

(** *** Normal forms *)

Lemma toLowerCase_idem s : Str.toLowerCase (Str.toLowerCase s) = Str.toLowerCase s.
Proof. induction s as [|c r IH]; simpl; [done|]. by rewrite lower_lower, IH. Qed.

Lemma collapse_toLowerCase b s :
  Str.collapse b (Str.toLowerCase s) = Str.toLowerCase (Str.collapse b s).
Proof.
  revert b. induction s as [|c r IH]; intros b; simpl; [done|].
  rewrite lower_is_space. destruct (Str.is_space c); [destruct b|]; simpl;
    by rewrite ?IH.
Qed.

Lemma trimStart_toLowerCase s :
  Str.trimStart (Str.toLowerCase s) = Str.toLowerCase (Str.trimStart s).
Proof.
  induction s as [|c r IH]; simpl; [done|].
  rewrite lower_is_space. by destruct (Str.is_space c).
Qed.

Lemma trimEnd_toLowerCase s :
  Str.trimEnd (Str.toLowerCase s) = Str.toLowerCase (Str.trimEnd s).
Proof.
  induction s as [|c r IH]; simpl; [done|].
  rewrite IH, lower_is_space.
  destruct (Str.trimEnd r); simpl; [by destruct (Str.is_space c)|done].
Qed.

Lemma collapse_idem s : forall b,
  Str.collapse b (Str.collapse b s) = Str.collapse b s.
Proof.
  induction s as [|c r IH]; intros b; simpl; [done|].
  destruct (Str.is_space c) eqn:E; [destruct b|]; simpl.
  - apply IH.
  - by rewrite IH.
  - by rewrite E, IH.
Qed.

Lemma trimStart_fix_cons c r :
  Str.trimStart (String c r) = String c r -> Str.is_space c = false.
Proof.
  simpl. destruct (Str.is_space c); [|done]. intros H.
  pose proof (trimStart_length r) as Hl. rewrite H in Hl. simpl in Hl. lia.
Qed.

Lemma trimStart_idem s : Str.trimStart (Str.trimStart s) = Str.trimStart s.
Proof.
  induction s as [|c r IH]; simpl; [done|].
  destruct (Str.is_space c) eqn:E; [done|]. simpl. by rewrite E.
Qed.

Lemma trimEnd_fix_cons c r :
  Str.trimEnd (String c r) = String c r ->
  (r = "" /\ Str.is_space c = false) \/ (r <> "" /\ Str.trimEnd r = r).
Proof.
  simpl. destruct (Str.trimEnd r) as [|c' r'] eqn:E.
  - destruct (Str.is_space c); [done|]. intros [= <-]. by left.
  - intros [= <-]. right. by split.
Qed.

Lemma trimEnd_idem s : Str.trimEnd (Str.trimEnd s) = Str.trimEnd s.
Proof.
  induction s as [|c r IH]; simpl; [done|].
  destruct (Str.trimEnd r) as [|c' r'] eqn:E.
  - destruct (Str.is_space c) eqn:Ec; simpl; [done|]. by rewrite Ec.
  - change (Str.trimEnd (String c (String c' r')) = String c (String c' r')).
    simpl in IH. simpl. destruct (Str.trimEnd r') eqn:E'.
    + destruct (Str.is_space c'); [done|]. by inversion IH.
    + by inversion IH.
Qed.

Lemma trimStart_trimEnd s :
  Str.trimStart s = s -> Str.trimStart (Str.trimEnd s) = Str.trimEnd s.
Proof.
  destruct s as [|c r]; [done|]. intros Hc%trimStart_fix_cons.
  rewrite (trimEnd_nonempty _ _ Hc). simpl. by rewrite Hc.
Qed.

Lemma trim_trimmed s :
  Str.trimStart (Str.trim s) = Str.trim s /\ Str.trimEnd (Str.trim s) = Str.trim s.
Proof.
  unfold Str.trim. split.
  - apply trimStart_trimEnd, trimStart_idem.
  - apply trimEnd_idem.
Qed.

Lemma collapse_trimStart s :
  Str.trimStart s = s ->
  Str.trimStart (Str.collapse false s) = Str.collapse false s.
Proof.
  destruct s as [|c r]; [done|]. intros Hc%trimStart_fix_cons.
  simpl. rewrite Hc. simpl. by rewrite Hc.
Qed.

Lemma collapse_nonempty s : forall b,
  Str.trimEnd s = s -> s <> "" -> Str.collapse b s <> "".
Proof.
  induction s as [|c r IH]; intros b Hfix Hne; [done|].
  apply trimEnd_fix_cons in Hfix as [[-> Hc] | [Hr Hfix]]; simpl.
  - by rewrite Hc.
  - destruct (Str.is_space c); [destruct b|]; try done. by apply IH.
Qed.

Lemma collapse_trimEnd s : forall b,
  Str.trimEnd s = s -> Str.trimEnd (Str.collapse b s) = Str.collapse b s.
Proof.
  induction s as [|c r IH]; intros b Hfix; [done|].
  apply trimEnd_fix_cons in Hfix as [[-> Hc] | [Hr Hfix]].
  - simpl. rewrite Hc. simpl. by rewrite Hc.
  - pose proof (collapse_nonempty r true Hfix Hr) as Hn.
    simpl. destruct (Str.is_space c) eqn:Ec; [destruct b|].
    + by apply IH.
    + simpl. rewrite (IH true Hfix).
      destruct (Str.collapse true r); [done|done].
    + simpl. rewrite (IH false Hfix).
      destruct (Str.collapse false r); [by rewrite Ec|done].
Qed.

Lemma normalizeQuery_fixed text :
  Str.trim (normalizeQuery text) = normalizeQuery text
  /\ Str.collapse false (normalizeQuery text) = normalizeQuery text
  /\ Str.toLowerCase (normalizeQuery text) = normalizeQuery text
  /\ normalizeQuery (normalizeQuery text) = normalizeQuery text.
Proof.
  assert (H3 : forall t,
            Str.trim (normalizeQuery t) = normalizeQuery t
            /\ Str.collapse false (normalizeQuery t) = normalizeQuery t
            /\ Str.toLowerCase (normalizeQuery t) = normalizeQuery t).
  { intros t. unfold normalizeQuery. destruct (negb (Str.truthy t)); [done|].
    destruct (trim_trimmed t) as [Hs He].
    split; [|split].
    - unfold Str.trim at 1.
      rewrite trimStart_toLowerCase, trimEnd_toLowerCase.
      by rewrite (collapse_trimStart _ Hs), (collapse_trimEnd _ false He).
    - by rewrite collapse_toLowerCase, collapse_idem.
    - apply toLowerCase_idem. }
  destruct (H3 text) as (Ht & Hc & Hl). split; [done|]. split; [done|].
  split; [done|].
  unfold normalizeQuery at 1. destruct (negb (Str.truthy (normalizeQuery text))) eqn:E.
  - apply negb_true_iff in E. unfold Str.truthy in E.
    apply negb_false_iff, String.eqb_eq in E. by rewrite E.
  - by rewrite Ht, Hc, Hl.
Qed.

(** A normalized query is a normal form: trimming it, collapsing its
    white space or lower-casing it changes nothing, and so normalizing
    is idempotent.  The keys of the cache and the queries compared by
    the dedup tests are therefore stable under re-normalization. *)
Theorem normalizeQuery_normal_form text :
  Str.trim (normalizeQuery text) = normalizeQuery text
  /\ Str.collapse false (normalizeQuery text) = normalizeQuery text
  /\ Str.toLowerCase (normalizeQuery text) = normalizeQuery text
  /\ normalizeQuery (normalizeQuery text) = normalizeQuery text.
Proof. apply normalizeQuery_fixed. Qed.


(** ** More invariants *)

(** The three ways [run] can go. *)
Lemma run_cases now q s :
  let norm := normalizeQuery (default (latestText s) q) in
  run now q s = s
  \/ (gated norm s = false
      /\ (run now q s = cacheStage now norm s
          \/ run now q s = dispatch norm (cacheStage now norm s))).
Proof.
  intros norm. unfold run, cacheStage.
  replace (match q with Some q0 => q0 | None => latestText s end)
    with (default (latestText s) q) by by destruct q.
  fold norm. destruct (gated norm s) eqn:Hg; [by left|]. right.
  split; [done|].
  destruct (getCached now norm s) as [[r|] s1]; repeat case_match; auto.
Qed.

Lemma getCached_cache now norm s k v :
  cache (getCached now norm s).2 !! k = Some v -> cache s !! k = Some v.
Proof.
  unfold getCached. repeat case_match; simpl; try done.
  intros Hd. apply lookup_delete_Some in Hd. tauto.
Qed.

Lemma cacheStage_cache now norm s k v :
  cache (cacheStage now norm s) !! k = Some v -> cache s !! k = Some v.
Proof.
  unfold cacheStage. pose proof (getCached_cache now norm s k v) as H.
  destruct (getCached now norm s) as [[r|] s1]; simpl in *; exact H.
Qed.

Lemma cacheStage_vars_ok now norm s : vars_ok s -> vars_ok (cacheStage now norm s).
Proof.
  intros [H1 H2 H3 H4 H5 H6 H7].
  pose proof (cacheStage_core now norm s) as Hc.
  pose proof (cacheStage_cache now norm s) as Hk.
  unfold core_eq in Hc. unfold dispatched in *.
  split; try (rewrite Hc; simpl; assumption).
  intros k v Hkv. rewrite Hc. simpl. eauto.
Qed.

Lemma dispatch_vars_ok norm s :
  Str.truthy norm = true -> normalizeQuery norm = norm ->
  vars_ok s -> vars_ok (dispatch norm s).
Proof.
  intros Ht Hn [H1 H2 H3 H4 H5 H6 H7].
  destruct (dispatch_vars norm s) as (_ & Hr & Hc & Hl & Hca & _ & Hin).
  pose proof (dispatch_attempts norm s) as Ha.
  unfold dispatched in *. split.
  - intros i a. rewrite Ha. intros Hi.
    apply lookup_app_Some in Hi as [Hi | [_ Hi]]; [eauto|].
    apply list_lookup_singleton_Some in Hi as [_ <-]. done.
  - intros q. rewrite Hin, Ha. intros [= <-].
    eexists. by rewrite last_snoc.
  - by rewrite Hin.
  - by rewrite Hc, Hl.
  - by rewrite Hr, Hc.
  - unfold dispatched. rewrite Hc, Ha, map_app.
    destruct H6 as [H6 | H6]; [by left|].
    right. apply in_or_app. by left.
  - intros k v. unfold dispatched. rewrite Hca, Ha, map_app. intros Hk.
    apply in_or_app. left. eauto.
Qed.

Lemma gated_normal norm s :
  gated norm s = false -> Str.truthy norm = true.
Proof. apply truthy_not_gated. Qed.

Lemma run_vars_ok now q s : vars_ok s -> vars_ok (run now q s).
Proof.
  intros H. destruct (run_cases now q s) as [-> | [Hg [-> | ->]]]; [done| |].
  - by apply cacheStage_vars_ok.
  - apply dispatch_vars_ok.
    + by eapply truthy_not_gated.
    + apply normalizeQuery_fixed.
    + by apply cacheStage_vars_ok.
Qed.

Lemma clearTimer_vars_ok s : vars_ok s -> vars_ok (clearTimer s).
Proof. unfold clearTimer. destruct (timerId s); [|done]. by intros []. Qed.

Lemma schedule_vars_ok s : vars_ok s -> vars_ok (schedule s).
Proof.
  intros H%clearTimer_vars_ok. unfold schedule, setTimeout.
  repeat case_match; try done. by destruct H.
Qed.

Lemma cancel_vars_ok s : vars_ok s -> vars_ok (cancel s).
Proof.
  intros [H1 H2 H3 H4 H5 H6 H7]%clearTimer_vars_ok. unfold cancel, abort.
  destruct (abortController (clearTimer s)); by split.
Qed.

Lemma invoke_vars_ok now c s : vars_ok s -> vars_ok (invoke now c s).
Proof.
  intros H. destruct c as [text | text | | | newOpts | ]; cbn [invoke].
  - apply schedule_vars_ok. by destruct H.
  - unfold runImmediate. apply run_vars_ok, clearTimer_vars_ok.
    destruct text; [by destruct H | done].
  - by apply cancel_vars_ok.
  - done.
  - unfold setOptions. destruct newOpts; [by destruct H | done].
  - destruct H as [H1 H2 H3 H4 H5 H6 H7]. by split.
Qed.

Lemma last_set_phase (l : list attempt) i a p b :
  l !! i = Some a -> last (<[i := set_phase p a]> l) = Some b ->
  exists b0, last l = Some b0 /\ a_norm b = a_norm b0.
Proof.
  intros Hi. rewrite !last_lookup, length_insert.
  destruct (decide (i = pred (List.length l))) as [-> | Hne].
  - rewrite list_lookup_insert_eq by (eapply lookup_lt_Some; eauto).
    intros [= <-]. by exists a.
  - rewrite list_lookup_insert_ne by done. intros H. by exists b.
Qed.

Lemma lookup_set_phase (l : list attempt) i a p j b :
  l !! i = Some a -> <[i := set_phase p a]> l !! j = Some b ->
  exists b0, l !! j = Some b0 /\ a_norm b = a_norm b0.
Proof.
  intros Hi. destruct (decide (i = j)) as [<- | Hne].
  - rewrite list_lookup_insert_eq by (eapply lookup_lt_Some; eauto).
    intros [= <-]. by exists a.
  - rewrite list_lookup_insert_ne by done. intros H. by exists b.
Qed.

(** Advancing the phase of an attempt does not matter to [vars_ok]. *)
Lemma set_phase_vars_ok i a p s :
  attempts s !! i = Some a -> vars_ok s ->
  vars_ok (set_attempts (<[i := set_phase p a]> (attempts s)) s).
Proof.
  intros Hi [H1 H2 H3 H4 H5 H6 H7].
  assert (Hd : map a_norm (<[i := set_phase p a]> (attempts s))
               = map a_norm (attempts s)).
  { rewrite list_fmap_insert. simpl.
    apply list_insert_id. by rewrite list_lookup_fmap, Hi. }
  unfold dispatched in *. split; unfold dispatched; simpl.
  - intros j b Hj. destruct (lookup_set_phase _ _ _ _ _ _ Hi Hj) as (b0 & Hb0 & ->).
    eauto.
  - intros q Hq. destruct (H2 q Hq) as (b0 & Hl & Hn).
    destruct (last (<[i := set_phase p a]> (attempts s))) as [b|] eqn:E.
    + destruct (last_set_phase _ _ _ _ _ Hi E) as (b1 & Hl1 & Hn1).
      exists b. split; [done|]. congruence.
    + apply last_None in E. apply (f_equal List.length) in E.
      rewrite length_insert in E. apply lookup_lt_Some in Hi. simpl in E. lia.
  - exact H3.
  - exact H4.
  - exact H5.
  - by rewrite Hd.
  - intros k v Hk. rewrite Hd. eauto.
Qed.

Lemma thenHandler_vars_ok now i a r s :
  attempts s !! i = Some a -> vars_ok s -> vars_ok (thenHandler now a r s).
Proof.
  intros Hi H. unfold thenHandler. case_match; [done|].
  destruct H as [H1 H2 H3 H4 H5 H6 H7].
  destruct (H1 i a Hi) as [Ht Hn].
  assert (Hin : In (a_norm a) (dispatched s)).
  { unfold dispatched. apply in_map. apply list_elem_of_In.
    by eapply list_elem_of_lookup_2. }
  unfold dispatched in *. split; unfold dispatched; simpl.
  - exact H1.
  - exact H2.
  - exact H3.
  - reflexivity.
  - split; [done|]. intros E. rewrite E in Ht. done.
  - by right.
  - intros k v.
    destruct (decide (a_norm a = k)) as [<- | Hne].
    + done.
    + rewrite lookup_insert_ne by done. eauto.
Qed.

Lemma emit_vars_ok e s : vars_ok s -> vars_ok (emit e s).
Proof. intros [H1 H2 H3 H4 H5 H6 H7]. by split. Qed.

Lemma catchHandler_vars_ok a err s : vars_ok s -> vars_ok (catchHandler a err s).
Proof.
  intros H. unfold catchHandler.
  repeat case_match; try done; by apply emit_vars_ok.
Qed.

Lemma finallyHandler_vars_ok a s : vars_ok s -> vars_ok (finallyHandler a s).
Proof.
  intros H. unfold finallyHandler. case_match; [done|].
  destruct H as [H1 H2 H3 H4 H5 H6 H7]. by split.
Qed.

Lemma advance_vars_ok i from to k s s' :
  (forall a s0, attempts s0 !! i = Some a -> vars_ok s0 ->
     vars_ok (k a s0) /\ attempts (k a s0) = attempts s0) ->
  vars_ok s -> advance i from to k s = Some s' -> vars_ok s'.
Proof.
  intros Hk H. unfold advance.
  destruct (attempts s !! i) as [a|] eqn:Hi; [|done].
  case_match; [|done]. intros [= <-].
  destruct (Hk a s Hi H) as [Hv Ha].
  rewrite <- Ha in Hi. by apply set_phase_vars_ok.
Qed.

Lemma step_vars_ok now act s s' :
  vars_ok s -> step now act s = Some s' -> vars_ok s'.
Proof.
  intros H. destruct act as [c | id | i | i r | i err | i]; cbn [step].
  - intros [= <-]. by apply invoke_vars_ok.
  - case_match; [|done]. intros [= <-]. unfold timerCallback.
    apply run_vars_ok. by destruct H.
  - apply advance_vars_ok; [|done]. intros a s0 _ H0. split; [|done].
    by apply emit_vars_ok.
  - apply advance_vars_ok; [|done]. intros a s0 Hi H0. split.
    + by eapply thenHandler_vars_ok.
    + apply (handlers_keep_attempts now a r network_down s0).
  - apply advance_vars_ok; [|done]. intros a s0 Hi H0. split.
    + by apply catchHandler_vars_ok.
    + apply (handlers_keep_attempts now a [] err s0).
  - apply advance_vars_ok; [|done]. intros a s0 Hi H0. split.
    + by apply finallyHandler_vars_ok.
    + apply (handlers_keep_attempts now a [] network_down s0).
Qed.

Lemma exec_vars_ok tr : forall s s',
  vars_ok s -> exec tr s = Some s' -> vars_ok s'.
Proof.
  induction tr as [| [now a] tr IH]; simpl; intros s s' H.
  - by intros [= <-].
  - destruct (step now a s) as [s1|] eqn:E; [|done].
    apply IH. by eapply step_vars_ok.
Qed.

Lemma initialState_vars_ok hasAC o : vars_ok (initialState hasAC o).
Proof. split; simpl; try done. by left. Qed.

Lemma reachable_vars_ok s : reachable s -> vars_ok s.
Proof.
  intros (hasAC & arg & s0 & tr & Hc & He).
  eapply exec_vars_ok; [|exact He].
  unfold createOrchestrator in Hc. case_match; [done|].
  inversion Hc. apply initialState_vars_ok.
Qed.

(** At most one debounce timer is armed at any time, and [timerId]
    names it: every [setTimeout] of [schedule] is preceded by
    [clearTimer], and the timer callback clears [timerId]. *)
Theorem at_most_one_timer s :
  reachable s ->
  (List.length (timers s) <= 1)%nat
  /\ (forall id, armed id s = true -> timerId s = Some id)
  /\ (timerId s = None -> timers s = []).
Proof.
  intros Hr. pose proof (wf_timers s (reachable_wf s Hr)) as Hok.
  split; [|split].
  - unfold timers_ok in Hok. destruct (timerId s).
    + destruct Hok as [d ->]. simpl. lia.
    + rewrite Hok. simpl. lia.
  - intros id Ha. by destruct (armed_only id s Hok Ha).
  - intros Hn. unfold timers_ok in Hok. by rewrite Hn in Hok.
Qed.

Lemma at_most_one_timer_witness :
  (List.length (timers hello_rearmed) <= 1)%nat
  /\ (forall id, armed id hello_rearmed = true -> timerId hello_rearmed = Some id)
  /\ (timerId hello_rearmed = None -> timers hello_rearmed = []).
Proof.
  apply (at_most_one_timer hello_rearmed).
  apply (sample_reachable (hello_dispatch ++ hello_success ++ world_search)).
  vm_compute. reflexivity.
Defined.

Lemma latest_is_current s i a :
  wf s -> attempts s !! i = Some a ->
  a_seq a = seq s <-> last (attempts s) = Some a.
Proof.
  intros [[Hs Ha] _ _] Hi.
  rewrite (Ha i a Hi), Hs, last_lookup.
  pose proof (lookup_lt_Some _ _ _ Hi) as Hlt. split.
  - intros E. replace (pred (List.length (attempts s))) with i by lia. done.
  - intros E. destruct (decide (i = pred (List.length (attempts s)))) as [-> | Hne];
      [lia|].
    pose proof (Ha _ _ E) as E1. pose proof (Ha _ _ Hi) as E2. lia.
Qed.

(** Sequence numbers are handed out 1, 2, 3, ... in dispatch order and
    the counter is the number of dispatches so far; so the attempt
    dispatched last is the only one whose captured number equals the
    counter, that is, the only one that can pass the sequence test of
    the handlers. *)
Theorem only_latest_attempt_is_current s :
  reachable s ->
  seq s = List.length (attempts s)
  /\ forall i a, attempts s !! i = Some a ->
       a_seq a = S i
       /\ (a_seq a = seq s <-> last (attempts s) = Some a).
Proof.
  intros Hr. pose proof (reachable_wf s Hr) as Hwf.
  destruct (wf_seq s Hwf) as [Hs Ha].
  split; [exact Hs|]. intros i a Hi. split; [by apply Ha|].
  by apply (latest_is_current s i a).
Qed.

Lemma only_latest_attempt_is_current_witness :
  seq race_superseded = 2%nat
  /\ forall i a, attempts race_superseded !! i = Some a ->
       a_seq a = S i
       /\ (a_seq a = seq race_superseded <-> last (attempts race_superseded) = Some a).
Proof.
  destruct (only_latest_attempt_is_current race_superseded) as [Hs Ha].
  - apply (sample_reachable race_prefix). vm_compute. reflexivity.
  - split; [|exact Ha]. vm_compute. reflexivity.
Defined.

(** Whenever a query is in flight it is non-empty and normalized, it is
    the query of the attempt dispatched last, and that attempt is
    current; [getState().isInFlight] is then true.  An abort controller
    is held only while a query is in flight. *)
Theorem inflight_is_latest_dispatch s :
  reachable s ->
  (forall q, inFlightQuery s = Some q ->
     q <> "" /\ normalizeQuery q = q
     /\ Snap.isInFlight (getState s) = true
     /\ exists a, last (attempts s) = Some a /\ a_norm a = q /\ a_seq a = seq s)
  /\ (abortController s <> None -> inFlightQuery s <> None).
Proof.
  intros Hr. pose proof (reachable_vars_ok s Hr) as Hv.
  split; [|apply (vo_controller s Hv)].
  intros q Hq. destruct (vo_inflight s Hv q Hq) as (a & Hl & Hn).
  assert (Hi : attempts s !! pred (List.length (attempts s)) = Some a)
    by by rewrite <- last_lookup.
  destruct (vo_norm s Hv _ _ Hi) as [Ht Hnf]. rewrite Hn in Ht, Hnf.
  split; [by intros ->|]. split; [done|]. split.
  - simpl. by rewrite Hq.
  - exists a. split; [done|]. split; [done|].
    by apply (latest_is_current s _ a (reachable_wf s Hr) Hi).
Qed.

Lemma inflight_is_latest_dispatch_witness :
  inFlightQuery race_superseded = Some "bar"
  /\ exists a, last (attempts race_superseded) = Some a
       /\ a_norm a = "bar" /\ a_seq a = seq race_superseded.
Proof.
  destruct (inflight_is_latest_dispatch race_superseded) as [H _].
  - apply (sample_reachable race_prefix). vm_compute. reflexivity.
  - assert (Hq : inFlightQuery race_superseded = Some "bar")
      by (vm_compute; reflexivity).
    split; [exact Hq|]. by destruct (H "bar" Hq) as (_ & _ & _ & Ha).
Defined.

(** [lastCompletedQuery] and [lastSearchedQuery] always hold the same
    string.  It is empty exactly as long as [lastResult] is [null], and
    otherwise it is a query that was dispatched to [fetch]. *)
Theorem completed_query_tracks_result s :
  reachable s ->
  lastCompletedQuery s = lastSearchedQuery s
  /\ (lastResult s = None <-> lastCompletedQuery s = "")
  /\ (lastCompletedQuery s = "" \/ In (lastCompletedQuery s) (dispatched s)).
Proof.
  intros Hr. destruct (reachable_vars_ok s Hr) as [_ _ _ H4 H5 H6 _]. done.
Qed.

Lemma completed_query_tracks_result_witness :
  lastCompletedQuery race_all_done = lastSearchedQuery race_all_done
  /\ (lastResult race_all_done = None <-> lastCompletedQuery race_all_done = "")
  /\ (lastCompletedQuery race_all_done = ""
      \/ In (lastCompletedQuery race_all_done) (dispatched race_all_done)).
Proof.
  apply (completed_query_tracks_result race_all_done).
  apply (sample_reachable
           (race_prefix ++ race_suffix
              ++ [(500, Resolve 0 ["f"]); (500, Finally 0)])).
  vm_compute. reflexivity.
Defined.

(** Every key of the cache is a query that was dispatched to [fetch]:
    non-empty and already normalized.  (Entries are written by the
    success handler only, under the attempt's own query.) *)
Theorem cache_keys_were_dispatched s k v :
  reachable s -> cache s !! k = Some v ->
  In k (dispatched s) /\ k <> "" /\ normalizeQuery k = k.
Proof.
  intros Hr Hk. pose proof (reachable_vars_ok s Hr) as Hv.
  pose proof (vo_cache s Hv k v Hk) as Hin. split; [exact Hin|].
  unfold dispatched in Hin. apply in_map_iff in Hin as (a & <- & Ha).
  apply list_elem_of_In, list_elem_of_lookup in Ha as [i Hi].
  destruct (vo_norm s Hv i a Hi) as [Ht Hn]. split; [|done].
  intros E. rewrite E in Ht. done.
Qed.

Lemma cache_keys_were_dispatched_witness :
  In "hello" (dispatched hello_done) /\ "hello" <> ""
  /\ normalizeQuery "hello" = "hello".
Proof.
  apply (cache_keys_were_dispatched hello_done "hello"
           {| ts := 10; cached_result := ["m1"] |}).
  - apply (sample_reachable (hello_dispatch ++ hello_success)).
    vm_compute. reflexivity.
  - vm_compute. reflexivity.
Defined.

(** ** Superseding and cancelling *)

Lemma core_eq_env s s' :
  core_eq s s' ->
  controllers s' = controllers s
  /\ hasAbortController s' = hasAbortController s
  /\ timers s' = timers s
  /\ lastResult s' = lastResult s
  /\ lastCompletedQuery s' = lastCompletedQuery s.
Proof. by intros ->. Qed.

(** [dispatch] when a different query is in flight under controller [c]. *)
Lemma dispatch_supersedes norm qa c s :
  inFlightQuery s = Some qa -> Str.truthy qa = true -> qa <> norm ->
  abortController s = Some c -> controllers s !! c = Some false ->
  controllers (dispatch norm s) !! c = Some true
  /\ (hasAbortController s = true ->
      exists c', abortController (dispatch norm s) = Some c' /\ c' <> c
                 /\ controllers (dispatch norm s) !! c' = Some false)
  /\ (hasAbortController s = false -> abortController (dispatch norm s) = None).
Proof.
  intros Hin Ht Hne Hc Hl. pose proof (lookup_lt_Some _ _ _ Hl) as Hlt.
  assert (Hq : isQuery (Some qa) norm = false).
  { destruct (isQuery (Some qa) norm) eqn:E; [|done].
    apply isQuery_spec in E. congruence. }
  unfold dispatch, newAbortController, abort.
  rewrite Hc, Hin. cbn [truthyQuery]. rewrite Ht, Hq. simpl.
  destruct (hasAbortController s); simpl.
  - split; [|split; [|done]].
    + rewrite lookup_app_l by by rewrite length_insert.
      by apply list_lookup_insert_eq.
    + intros _. eexists. split; [done|]. rewrite length_insert. split; [lia|].
      rewrite <- (length_insert (controllers s) c true).
      apply lookup_snoc_last.
  - split; [|split; [done|done]]. by apply list_lookup_insert_eq.
Qed.

(** When [run] dispatches a query while a different one is in flight,
    the controller of the one in flight is aborted in the same call,
    before the new attempt's chain is even created; the new attempt
    gets a fresh controller that is not aborted. *)
Theorem supersede_aborts_previous s q qa c now :
  reachable s ->
  inFlightQuery s = Some qa -> abortController s = Some c ->
  normalizeQuery q <> qa ->
  gated (normalizeQuery q) s = false ->
  (getCached now (normalizeQuery q) s).1 = None \/ refreshOnCache (opts s) = true ->
  controllers (run now (Some q) s) !! c = Some true
  /\ inFlightQuery (run now (Some q) s) = Some (normalizeQuery q)
  /\ (hasAbortController s = true ->
      exists c', abortController (run now (Some q) s) = Some c' /\ c' <> c
                 /\ controllers (run now (Some q) s) !! c' = Some false).
Proof.
  intros Hr Hin Hc Hne Hg Hhit.
  pose proof (reachable_wf s Hr) as Hwf.
  pose proof (reachable_vars_ok s Hr) as Hv.
  rewrite (run_dispatches now q s Hg); [| congruence | done].
  set (s2 := cacheStage now (normalizeQuery q) s).
  pose proof (cacheStage_core now (normalizeQuery q) s) as Hcore. fold s2 in Hcore.
  destruct (core_eq_vars s s2 Hcore) as (_ & Hi2 & _ & _ & Hc2 & _).
  destruct (core_eq_env s s2 Hcore) as (Hk2 & Hh2 & _).
  destruct (vo_inflight s Hv qa Hin) as (a & Hl & Hn).
  assert (Hi : attempts s !! pred (List.length (attempts s)) = Some a)
    by by rewrite <- last_lookup.
  destruct (vo_norm s Hv _ _ Hi) as [Ht _]. rewrite Hn in Ht.
  destruct (dispatch_supersedes (normalizeQuery q) qa c s2) as (H1 & H2 & _);
    try congruence.
  { rewrite Hk2. by apply (wf_controller s Hwf). }
  split; [exact H1|]. split.
  - by destruct (dispatch_vars (normalizeQuery q) s2) as (_ & _ & _ & _ & _ & _ & ->).
  - intros Hh. apply H2. congruence.
Qed.

Lemma supersede_aborts_previous_witness :
  controllers (run 100 (Some "bar") hello_pending) !! 0%nat = Some true
  /\ inFlightQuery (run 100 (Some "bar") hello_pending) = Some "bar"
  /\ (hasAbortController hello_pending = true ->
      exists c', abortController (run 100 (Some "bar") hello_pending) = Some c'
                 /\ c' <> 0%nat
                 /\ controllers (run 100 (Some "bar") hello_pending) !! c' = Some false).
Proof.
  apply (supersede_aborts_previous hello_pending "bar" "hello" 0 100).
  - apply (sample_reachable hello_dispatch). vm_compute. reflexivity.
  - vm_compute. reflexivity.
  - vm_compute. reflexivity.
  - vm_compute. discriminate.
  - vm_compute. reflexivity.
  - left. vm_compute. reflexivity.
Defined.

Lemma clearTimer_idle s : timerId s = None -> clearTimer s = s.
Proof. intros H. unfold clearTimer. by rewrite H. Qed.

Lemma cancel_fields s :
  inFlightQuery (cancel s) = None /\ abortController (cancel s) = None
  /\ timerId (cancel s) = timerId (clearTimer s)
  /\ timers (cancel s) = timers (clearTimer s)
  /\ log (cancel s) = log s /\ seq (cancel s) = seq s
  /\ cache (cancel s) = cache s /\ lastResult (cancel s) = lastResult s
  /\ lastCompletedQuery (cancel s) = lastCompletedQuery s.
Proof.
  unfold cancel, abort.
  destruct (abortController (clearTimer s)); simpl;
    unfold clearTimer; destruct (timerId s); done.
Qed.

(** [cancel()] leaves no timer armed and nothing in flight, aborts the
    controller that was current, calls nothing, dispatches nothing and
    does not touch the sequence counter; calling it again changes
    nothing. *)
Theorem cancel_clears_and_aborts s :
  reachable s ->
  timers (cancel s) = [] /\ timerId (cancel s) = None
  /\ inFlightQuery (cancel s) = None /\ abortController (cancel s) = None
  /\ Snap.isInFlight (getState (cancel s)) = false
  /\ (forall c, abortController s = Some c -> controllers (cancel s) !! c = Some true)
  /\ log (cancel s) = log s /\ attempts (cancel s) = attempts s
  /\ seq (cancel s) = seq s
  /\ cancel (cancel s) = cancel s.
Proof.
  intros Hr. pose proof (reachable_wf s Hr) as Hwf.
  destruct (clearTimer_clears s (wf_timers s Hwf)) as [Ht Hid].
  destruct (cancel_fields s) as (Hin & Hc & Hti & Htm & Hlog & Hsq & _).
  split; [by rewrite Htm|]. split; [by rewrite Hti|].
  split; [exact Hin|]. split; [exact Hc|]. split.
  { unfold getState. cbn [Snap.isInFlight]. by rewrite Hin. }
  split.
  { intros c Habc. pose proof (wf_controller s Hwf c Habc) as Hl.
    unfold cancel, abort.
    replace (abortController (clearTimer s)) with (Some c)
      by (unfold clearTimer; by destruct (timerId s)).
    simpl. replace (controllers (clearTimer s)) with (controllers s)
      by (unfold clearTimer; by destruct (timerId s)).
    apply list_lookup_insert_eq. by eapply lookup_lt_Some. }
  split; [exact Hlog|]. split; [apply cancel_attempts|]. split; [exact Hsq|].
  unfold cancel at 1. rewrite clearTimer_idle by by rewrite Hti.
  rewrite Hc. unfold cancel, abort.
  destruct (abortController (clearTimer s)); reflexivity.
Qed.

Lemma cancel_clears_and_aborts_witness :
  timers (cancel hello_pending) = [] /\ timerId (cancel hello_pending) = None
  /\ inFlightQuery (cancel hello_pending) = None
  /\ abortController (cancel hello_pending) = None
  /\ Snap.isInFlight (getState (cancel hello_pending)) = false
  /\ (forall c, abortController hello_pending = Some c ->
        controllers (cancel hello_pending) !! c = Some true)
  /\ log (cancel hello_pending) = log hello_pending
  /\ attempts (cancel hello_pending) = attempts hello_pending
  /\ seq (cancel hello_pending) = seq hello_pending
  /\ cancel (cancel hello_pending) = cancel hello_pending.
Proof.
  apply (cancel_clears_and_aborts hello_pending).
  apply (sample_reachable hello_dispatch). vm_compute. reflexivity.
Defined.

(** After [cancel()], the success of the attempt that was pending is
    dropped: its handler writes nothing to the cache, leaves
    [lastResult] and [lastCompletedQuery] alone and does not call
    [onSuccess]. *)
Theorem cancelled_success_is_dropped s i r now s' :
  step now (Resolve i r) (cancel s) = Some s' ->
  cache s' = cache s /\ lastResult s' = lastResult s
  /\ lastCompletedQuery s' = lastCompletedQuery s
  /\ log s' = log s.
Proof.
  destruct (cancel_fields s) as (Hin & _ & _ & _ & Hlog & _ & Hca & Hr & Hl).
  revert Hin Hlog Hca Hr Hl. generalize (cancel s). intros sc Hin <- <- <- <-.
  cbn [step]. unfold advance.
  destruct (attempts sc !! i) as [a|]; [|done].
  case_match; [|done]. intros [= <-].
  unfold thenHandler. rewrite Hin. done.
Qed.

Lemma cancelled_success_is_dropped_witness :
  exists s', step 10 (Resolve 0 ["m1"]) (cancel hello_pending) = Some s'
    /\ cache s' = cache hello_pending
    /\ lastResult s' = lastResult hello_pending
    /\ lastCompletedQuery s' = lastCompletedQuery hello_pending
    /\ log s' = log hello_pending.
Proof.
  eexists. split; [vm_compute; reflexivity|].
  apply (cancelled_success_is_dropped hello_pending 0 ["m1"] 10).
  vm_compute. reflexivity.
Defined.

(** ** The cache *)

(** Round trip through the cache, with [useCache] on.  A result stored
    at time [now] is returned by a lookup of the same key at any time
    up to [cacheTTL] later, and the lookup changes nothing; a later
    lookup misses and removes the entry.  Lookups of other keys see
    what they saw before the store. *)
Theorem cache_round_trip s q r now now' :
  useCache (opts s) = true ->
  (now' - now <= cacheTTL (opts s) ->
     getCached now' q (setCached now q r s) = (Some r, setCached now q r s))
  /\ (now' - now > cacheTTL (opts s) ->
      (getCached now' q (setCached now q r s)).1 = None
      /\ cache (getCached now' q (setCached now q r s)).2 = delete q (cache s))
  /\ (forall q', q' <> q ->
        (getCached now' q' (setCached now q r s)).1 = (getCached now' q' s).1).
Proof.
  intros Hu. split; [|split].
  - intros Hfresh.
    apply (getCached_fresh now' q {| ts := now; cached_result := r |});
      [done | apply lookup_insert_eq | done].
  - intros Hold.
    destruct (getCached_stale now' q {| ts := now; cached_result := r |}
                (setCached now q r s)) as [Hm _];
      [apply lookup_insert_eq | done |].
    split; [exact Hm|].
    unfold getCached, setCached. simpl. rewrite Hu. simpl.
    rewrite lookup_insert_eq. simpl.
    apply Z.gt_lt, Z.gtb_lt in Hold. rewrite Hold. simpl.
    apply delete_insert_eq.
  - intros q' Hne. unfold getCached, setCached. simpl. rewrite Hu. simpl.
    rewrite lookup_insert_ne by done.
    destruct (cache s !! q') as [v|]; [|done]. by case_match.
Qed.

Lemma cache_round_trip_witness :
  getCached 60010 "hello" (setCached 10 "hello" ["m1"] sample_init)
  = (Some ["m1"], setCached 10 "hello" ["m1"] sample_init)
  /\ (getCached 60011 "hello" (setCached 10 "hello" ["m1"] sample_init)).1 = None.
Proof.
  destruct (cache_round_trip sample_init "hello" ["m1"] 10 60010) as [H1 _];
    [reflexivity|].
  destruct (cache_round_trip sample_init "hello" ["m1"] 10 60011) as (_ & H2 & _);
    [reflexivity|].
  split.
  - apply H1. vm_compute. discriminate.
  - apply H2. vm_compute. reflexivity.
Defined.

(** With [refreshOnCache] on, a fresh cache hit is reported first, with
    [fromCache: true], and the query is then dispatched all the same
    ([onStart] follows), unless it is the query already in flight, in
    which case only the cached result is reported. *)
Theorem cache_hit_with_refresh s q e now :
  useCache (opts s) = true ->
  refreshOnCache (opts s) = true ->
  cache s !! normalizeQuery q = Some e ->
  now - ts e <= cacheTTL (opts s) ->
  gated (normalizeQuery q) s = false ->
  (inFlightQuery s <> Some (normalizeQuery q) ->
     calls (run now (Some q) s)
     = calls s ++ [ onSuccess (normalizeQuery q) (cached_result e) true;
                    onStart (normalizeQuery q) ]
     /\ dispatched (run now (Some q) s) = dispatched s ++ [normalizeQuery q])
  /\ (inFlightQuery s = Some (normalizeQuery q) ->
      calls (run now (Some q) s)
      = calls s ++ [onSuccess (normalizeQuery q) (cached_result e) true]
      /\ attempts (run now (Some q) s) = attempts s).
Proof.
  intros Hu Hr He Hfresh Hg.
  pose proof (getCached_fresh now _ e s Hu He Hfresh) as Hget.
  assert (Hstage : cacheStage now (normalizeQuery q) s
                   = emit (onSuccess (normalizeQuery q) (cached_result e) true) s).
  { unfold cacheStage. by rewrite Hget. }
  split.
  - intros Hin. rewrite (run_dispatches now q s Hg Hin) by by right.
    rewrite dispatch_calls. unfold dispatched. rewrite dispatch_attempts, Hstage.
    split.
    + unfold calls. simpl. rewrite map_app, <- app_assoc. done.
    + simpl. by rewrite map_app.
  - intros Hin. split; [|by apply run_dedup].
    unfold run. rewrite Hg, Hget. simpl. rewrite Hr. simpl.
    rewrite (dedup_test _ _ (truthy_not_gated _ _ Hg)).
    assert (Hq : isQuery (inFlightQuery s) (normalizeQuery q) = true)
      by by apply isQuery_spec.
    rewrite Hq. unfold calls. simpl. by rewrite map_app.
Qed.

(** [clearCache()] empties the cache, so that every lookup misses, and
    touches nothing else; an attempt that is in flight at that moment
    still stores its result when it succeeds, as the only entry. *)
Theorem clearCache_forgets s :
  (forall now q, getCached now q (clearCache s) = (None, clearCache s))
  /\ Snap.cacheSize (getState (clearCache s)) = 0%nat
  /\ core_eq s (clearCache s) /\ log (clearCache s) = log s
  /\ (forall i a r now,
        attempts s !! i = Some a -> a_phase a = Pending ->
        a_seq a = seq s -> inFlightQuery s = Some (a_norm a) ->
        exists s', step now (Resolve i r) (clearCache s) = Some s'
          /\ cache s' = {[ a_norm a := {| ts := now; cached_result := r |} ]}).
Proof.
  split; [|split; [|split; [|split]]].
  - intros now q. unfold getCached, clearCache. simpl.
    destruct (useCache (opts s)); simpl; [|done]. by rewrite lookup_empty.
  - simpl. apply map_size_empty.
  - apply core_eq_set_cache.
  - done.
  - intros i a r now Hi Hp Hs Hin. eexists. split.
    + cbn [step]. apply advance_at; try done. intros s0.
      apply (handlers_keep_attempts now a r network_down s0).
    + unfold thenHandler, clearCache. simpl.
      assert (Hq : isQuery (inFlightQuery s) (a_norm a) = true)
        by by apply isQuery_spec.
      rewrite Hq, Hs, Nat.eqb_refl. simpl. by rewrite insert_empty.
Qed.

Lemma clearCache_forgets_witness :
  exists s', step 10 (Resolve 0 ["m1"]) (clearCache hello_pending) = Some s'
    /\ cache s' = {[ "hello" := {| ts := 10; cached_result := ["m1"] |} ]}.
Proof.
  destruct (clearCache_forgets hello_pending) as (_ & _ & _ & _ & H).
  apply (H 0%nat {| a_norm := "hello"; a_seq := 1; a_phase := Pending |});
    vm_compute; reflexivity.
Defined.

Lemma cache_hit_with_refresh_witness :
  calls (run 20 (Some "hello") refresh_done)
  = calls refresh_done ++ [ onSuccess "hello" ["m1"] true; onStart "hello" ]
  /\ dispatched (run 20 (Some "hello") refresh_done)
     = dispatched refresh_done ++ ["hello"].
Proof.
  destruct (cache_hit_with_refresh refresh_done "hello"
              {| ts := 10; cached_result := ["m1"] |} 20) as [H _];
    try (vm_compute; reflexivity).
  - vm_compute. discriminate.
  - apply H. vm_compute. discriminate.
Defined.

(** ** The near-duplicate filter of [schedule] *)

Lemma append_cons a p t :
  String.append (String a p) t = String a (String.append p t).
Proof. reflexivity. Qed.

Lemma append_nil_l t : String.append "" t = t.
Proof. reflexivity. Qed.

Lemma prefix_app_iff p s :
  String.prefix p s = true <-> exists t, s = String.append p t.
Proof.
  revert s. induction p as [|a p IH]; intros s.
  - destruct s; simpl; (split; [intros _; by eexists | done]).
  - destruct s as [|b s]; simpl.
    { split; [done|]. intros [t Ht]. by rewrite append_cons in Ht. }
    destruct (ascii_dec a b) as [-> | Hne].
    + rewrite IH. split; intros [t Ht]; exists t.
      * by rewrite append_cons, <- Ht.
      * rewrite append_cons in Ht. by inversion Ht.
    + split; [done|]. intros [t Ht]. rewrite append_cons in Ht. by inversion Ht.
Qed.

Lemma append_length p t :
  String.length (String.append p t) = (String.length p + String.length t)%nat.
Proof.
  induction p as [|a p IH]; [done|]. rewrite append_cons. simpl. by rewrite IH.
Qed.

Lemma substring0_split n s :
  exists t, s = String.append (String.substring 0 n s) t
    /\ String.length (String.substring 0 n s) = Nat.min n (String.length s).
Proof.
  revert s. induction n as [|n IH]; intros s.
  - exists s. by destruct s.
  - destruct s as [|a s]; [by exists ""|].
    destruct (IH s) as (t & Ht & Hl). exists t. simpl.
    rewrite append_cons, <- Ht, Hl. done.
Qed.

Lemma length_zero s : String.length s = 0%nat -> s = "".
Proof. by destruct s. Qed.

Lemma length_one s : String.length s = 1%nat -> exists c, s = String c "".
Proof. destruct s as [|c [|]]; try done. by exists c. Qed.

Lemma append_empty_r p : String.append p "" = p.
Proof.
  induction p as [|a p IH]; [done|]. by rewrite append_cons, IH.
Qed.

(** The second test of the filter adds nothing to the first. *)
Lemma slice_test_redundant sh lo :
  (String.length sh <= String.length lo)%nat ->
  Str.startsWith sh (Str.slice0 lo (String.length sh)) = true ->
  Str.startsWith lo sh = true.
Proof.
  unfold Str.startsWith, Str.slice0. intros Hle H.
  destruct (substring0_split (String.length sh) lo) as (t & Hlo & Hlen).
  apply prefix_app_iff in H as [u Hu].
  assert (Hu0 : u = "").
  { apply length_zero. apply (f_equal String.length) in Hu.
    rewrite append_length, Hlen in Hu. lia. }
  subst u. rewrite append_empty_r in Hu.
  apply prefix_app_iff. exists t. congruence.
Qed.

Lemma nearDuplicate_prefix norm last :
  nearDuplicate norm last
  = (Z.abs (Str.len norm - Str.len last) <=? 1) && (Str.len norm >? 0)
    && (Str.len last >? 0)
    && Str.startsWith
         (if Str.len norm >=? Str.len last then norm else last)
         (if Str.len norm <? Str.len last then norm else last).
Proof.
  unfold nearDuplicate.
  destruct ((Z.abs (Str.len norm - Str.len last) <=? 1) && (Str.len norm >? 0)
            && (Str.len last >? 0)); [|done]. simpl.
  match goal with |- ?a || ?b = ?a => destruct a eqn:Ea; [done|] end.
  simpl. match goal with |- ?b = false => destruct b eqn:Eb; [|done] end.
  apply slice_test_redundant in Eb; [congruence|].
  unfold Str.len.
  destruct (Z.of_nat (String.length norm) <? Z.of_nat (String.length last)) eqn:E1;
    destruct (Z.of_nat (String.length norm) >=? Z.of_nat (String.length last)) eqn:E2;
    lia.
Qed.

Lemma nonempty_length s : s <> "" <-> (0 < String.length s)%nat.
Proof. destruct s; simpl; split; (done || lia). Qed.

Lemma nearDuplicate_cases norm last :
  nearDuplicate norm last = true <->
  norm <> "" /\ last <> ""
  /\ ((S (String.length norm) = String.length last
       /\ String.prefix norm last = true)
      \/ ((String.length last <= String.length norm <= S (String.length last))%nat
          /\ String.prefix last norm = true)).
Proof.
  rewrite nearDuplicate_prefix, !nonempty_length.
  unfold Str.len, Str.startsWith.
  destruct (Z.of_nat (String.length norm) <? Z.of_nat (String.length last)) eqn:E1;
    destruct (Z.of_nat (String.length norm) >=? Z.of_nat (String.length last)) eqn:E2;
    try lia.
  - split.
    + intros H. apply andb_true_iff in H as [H Hp].
      apply andb_true_iff in H as [H Hl]. apply andb_true_iff in H as [Hd Hn].
      split; [lia|]. split; [lia|]. left. split; [lia|done].
    + intros (Hn & Hl & [[Hlen Hp] | [Hlen Hp]]); [|lia].
      rewrite Hp, andb_true_r.
      repeat (apply andb_true_iff; split);
        [apply Z.leb_le | apply Z.gtb_lt | apply Z.gtb_lt]; lia.
  - split.
    + intros H. apply andb_true_iff in H as [H Hp].
      apply andb_true_iff in H as [H Hl]. apply andb_true_iff in H as [Hd Hn].
      split; [lia|]. split; [lia|]. right. split; [lia|done].
    + intros (Hn & Hl & [[Hlen Hp] | [Hlen Hp]]); [lia|].
      rewrite Hp, andb_true_r.
      repeat (apply andb_true_iff; split);
        [apply Z.leb_le | apply Z.gtb_lt | apply Z.gtb_lt]; lia.
Qed.

Lemma prefix_one_longer p s :
  S (String.length p) = String.length s ->
  String.prefix p s = true <-> exists c, s = String.append p (String c "").
Proof.
  intros Hlen. rewrite prefix_app_iff. split.
  - intros [t ->]. rewrite append_length in Hlen.
    destruct (length_one t) as [c ->]; [lia|]. by exists c.
  - intros [c ->]. by eexists.
Qed.

(** What the filter of [schedule] amounts to: two non-empty queries are
    near-duplicates exactly when they are equal or one of them is the
    other followed by one more character.  In particular two different
    queries of the same length - a single character replaced, say - are
    never near-duplicates. *)
Theorem nearDuplicate_iff norm last :
  (nearDuplicate norm last = true <->
     norm <> "" /\ last <> ""
     /\ (norm = last
         \/ (exists c, norm = String.append last (String c ""))
         \/ (exists c, last = String.append norm (String c ""))))
  /\ (String.length norm = String.length last -> norm <> last ->
      nearDuplicate norm last = false).
Proof.
  assert (Hiff : nearDuplicate norm last = true <->
     norm <> "" /\ last <> ""
     /\ (norm = last
         \/ (exists c, norm = String.append last (String c ""))
         \/ (exists c, last = String.append norm (String c "")))).
  { rewrite nearDuplicate_cases. split.
    - intros (Hn & Hl & [[Hlen Hp] | [Hlen Hp]]); (split; [done|]); (split; [done|]).
      + right. right. by apply prefix_one_longer.
      + destruct (decide (String.length norm = String.length last)) as [Heq | Hne].
        * left. apply prefix_app_iff in Hp as [t ->].
          rewrite append_length in Heq.
          rewrite (length_zero t) by lia. apply append_empty_r.
        * right. left. apply prefix_one_longer; [lia | done].
    - intros (Hn & Hl & Hc). split; [done|]. split; [done|].
      destruct Hc as [-> | [[c ->] | [c ->]]].
      + right. split; [lia|]. apply prefix_app_iff. exists "".
        by rewrite append_empty_r.
      + right. rewrite append_length. simpl. split; [lia|].
        apply prefix_app_iff. by eexists.
      + left. rewrite append_length. simpl. split; [lia|].
        apply prefix_app_iff. by eexists. }
  split; [exact Hiff|].
  intros Hlen Hne. apply not_true_is_false. intros E.
  apply Hiff in E as (_ & _ & [-> | [[c ->] | [c ->]]]); [done| |];
    rewrite append_length in Hlen; simpl in Hlen; lia.
Qed.

Lemma nearDuplicate_iff_witness :
  nearDuplicate "hellp" "hello" = false.
Proof.
  destruct (nearDuplicate_iff "hellp" "hello") as [_ H].
  apply H; [reflexivity | discriminate].
Defined.

(** ** What the methods and the handlers call, and when *)

Lemma schedule_timers s :
  timers_ok s ->
  timers (schedule s) = []
  \/ timers (schedule s) = [(nextTimer s, debounceMs (opts s))].
Proof.
  intros Hok. destruct (clearTimer_clears s Hok) as [Ht _].
  destruct (clearTimer_vars s) as (Ho & _).
  unfold schedule, setTimeout. repeat case_match; auto.
  right. simpl. rewrite Ht, Ho. simpl. f_equal. f_equal.
  unfold clearTimer. by destruct (timerId s).
Qed.

(** [setText] is lazy: it records the text and calls nothing - neither
    [fetch] nor a callback - and dispatches nothing; all it may do is
    to arm one timer, whose delay is the [debounceMs] in force at that
    moment, after having cleared the timer that was pending. *)
Theorem setText_only_arms_a_timer s text :
  reachable s ->
  latestText (setText text s) = default "" text
  /\ log (setText text s) = log s
  /\ attempts (setText text s) = attempts s
  /\ (timers (setText text s) = []
      \/ timers (setText text s) = [(nextTimer s, debounceMs (opts s))]).
Proof.
  intros Hr. destruct (setText_vars text s) as (H1 & H2 & H3).
  split; [done|]. split; [done|]. split; [done|].
  unfold setText.
  apply (schedule_timers (set_latestText (default "" text) s)).
  apply (wf_timers _ (set_latestText_wf _ _ (reachable_wf s Hr))).
Qed.

Lemma setText_only_arms_a_timer_witness :
  latestText (setText (Some "world") hello_done) = "world"
  /\ log (setText (Some "world") hello_done) = log hello_done
  /\ attempts (setText (Some "world") hello_done) = attempts hello_done
  /\ (timers (setText (Some "world") hello_done) = []
      \/ timers (setText (Some "world") hello_done)
         = [(nextTimer hello_done, debounceMs (opts hello_done))]).
Proof.
  apply (setText_only_arms_a_timer hello_done (Some "world")).
  apply (sample_reachable (hello_dispatch ++ hello_success)).
  vm_compute. reflexivity.
Defined.

(** The [.catch] handler of a pending attempt calls [onError] exactly
    when the attempt is still current and the error is not named
    "AbortError"; in every other case it calls nothing.  In no case
    does it change a variable of the instance. *)
Theorem onError_iff_current_and_not_AbortError s i a err now :
  reachable s ->
  attempts s !! i = Some a -> a_phase a = Pending ->
  exists s',
    step now (Reject i err) s = Some s'
    /\ calls s'
       = calls s ++ (if (a_seq a =? seq s)%nat
                        && negb (String.eqb (err_name err) "AbortError")
                     then [onError (a_norm a) err] else [])
    /\ lastResult s' = lastResult s
    /\ inFlightQuery s' = inFlightQuery s
    /\ cache s' = cache s.
Proof.
  intros Hr Hi Hp.
  exists (set_attempts (<[i := set_phase Handled a]> (attempts s))
            (catchHandler a err s)).
  split.
  { cbn [step].
    apply (advance_at i Pending Handled (fun a => catchHandler a err) s a);
      try done.
    intros s0. apply (handlers_keep_attempts now a [] err s0). }
  cbv beta.
  rewrite (catchHandler_by_name a err s (reachable_wf s Hr)).
  destruct (a_seq a =? seq s)%nat; simpl.
  - destruct (String.eqb (err_name err) "AbortError"); simpl.
    + unfold calls. simpl. by rewrite app_nil_r.
    + unfold calls. simpl. by rewrite map_app.
  - unfold calls. simpl. by rewrite app_nil_r.
Qed.

Lemma onError_iff_current_and_not_AbortError_witness :
  exists s',
    step 5 (Reject 0 network_down) hello_pending = Some s'
    /\ calls s' = calls hello_pending ++ [onError "hello" network_down].
Proof.
  destruct (onError_iff_current_and_not_AbortError hello_pending 0
              {| a_norm := "hello"; a_seq := 1; a_phase := Pending |}
              network_down 5) as (s' & H1 & H2 & _).
  - apply (sample_reachable hello_dispatch). vm_compute. reflexivity.
  - vm_compute. reflexivity.
  - reflexivity.
  - exists s'. split; [exact H1|]. rewrite H2.
    f_equal.
Defined.

(** The success handler of an attempt that is current and in flight
    updates the instance before it calls back: when
    [onSuccess(q, r, { fromCache: false })] is called, [getState()]
    already shows [r] as [lastResult], [q] as [lastCompletedQuery] and
    the new cache size, and it still shows the query in flight (the slot
    is cleared by the [.finally] handler only). *)
Theorem success_updates_before_callback s i a r now :
  reachable s ->
  attempts s !! i = Some a -> a_phase a = Pending ->
  a_seq a = seq s -> inFlightQuery s = Some (a_norm a) ->
  exists s' snap,
    step now (Resolve i r) s = Some s'
    /\ lastResult s' = Some r /\ lastCompletedQuery s' = a_norm a
    /\ log s' = log s ++ [ {| ev := onSuccess (a_norm a) r false; seen := snap |} ]
    /\ Snap.lastResult snap = Some r
    /\ Snap.lastCompletedQuery snap = a_norm a
    /\ Snap.cacheSize snap = size (cache s')
    /\ Snap.inFlightQuery snap = Some (a_norm a)
    /\ Snap.isInFlight snap = true.
Proof.
  intros Hr Hi Hp Hs Hin.
  destruct (vo_norm s (reachable_vars_ok s Hr) i a Hi) as [Ht _].
  eexists. eexists. split.
  { cbn [step]. apply advance_at; try done. intros s0.
    apply (handlers_keep_attempts now a r network_down s0). }
  unfold thenHandler.
  assert (Hq : isQuery (inFlightQuery s) (a_norm a) = true)
    by by apply isQuery_spec.
  rewrite Hq, Hs, Nat.eqb_refl. simpl.
  repeat (split; [reflexivity|]).
  split; simpl; rewrite Hin; [done|]. simpl. exact Ht.
Qed.

Lemma success_updates_before_callback_witness :
  exists s' snap,
    step 10 (Resolve 0 ["m1"]) hello_pending = Some s'
    /\ lastResult s' = Some ["m1"] /\ lastCompletedQuery s' = "hello"
    /\ log s' = log hello_pending
                ++ [ {| ev := onSuccess "hello" ["m1"] false; seen := snap |} ]
    /\ Snap.lastResult snap = Some ["m1"]
    /\ Snap.lastCompletedQuery snap = "hello"
    /\ Snap.cacheSize snap = size (cache s')
    /\ Snap.inFlightQuery snap = Some "hello"
    /\ Snap.isInFlight snap = true.
Proof.
  apply (success_updates_before_callback hello_pending 0
           {| a_norm := "hello"; a_seq := 1; a_phase := Pending |} ["m1"] 10).
  - apply (sample_reachable hello_dispatch). vm_compute. reflexivity.
  - vm_compute. reflexivity.
  - reflexivity.
  - vm_compute. reflexivity.
  - vm_compute. reflexivity.
Defined.

(** The signal handed to [fetch] is the one of the controller that is
    current when the first link of the chain runs, not necessarily the
    one created for the attempt.  It is never an aborted signal; and if
    nothing is in flight any more at that moment ([cancel()] came
    first), [fetch] is called without a signal. *)
Theorem fetch_gets_current_signal s i a now :
  reachable s ->
  attempts s !! i = Some a -> a_phase a = Queued ->
  exists s',
    step now (CallFetch i) s = Some s'
    /\ calls s' = calls s ++ [fetchFn (a_norm a) (abortController s)]
    /\ (forall c, abortController s = Some c -> signalAborted c s = false)
    /\ (inFlightQuery s = None -> abortController s = None).
Proof.
  intros Hr Hi Hp.
  destruct (callFetch_queued now i a s Hi Hp) as (s' & H1 & H2).
  exists s'. split; [done|]. split; [done|]. split.
  - intros c Hc. unfold signalAborted.
    by rewrite (wf_controller s (reachable_wf s Hr) c Hc).
  - intros Hn. pose proof (vo_controller s (reachable_vars_ok s Hr)) as Hv.
    destruct (abortController s); [|done]. exfalso. by apply Hv.
Qed.

Lemma fetch_gets_current_signal_witness :
  exists s',
    step 0 (CallFetch 0) cancelled_before_link = Some s'
    /\ calls s' = calls cancelled_before_link ++ [fetchFn "hello" None].
Proof.
  destruct (fetch_gets_current_signal cancelled_before_link 0
              {| a_norm := "hello"; a_seq := 1; a_phase := Queued |} 0)
    as (s' & H1 & H2 & _ & H4).
  - apply (sample_reachable
             [ (0, Api (RunImmediate (Some "hello"))); (0, Api Cancel) ]).
    vm_compute. reflexivity.
  - vm_compute. reflexivity.
  - reflexivity.
  - exists s'. split; [exact H1|]. rewrite H2, H4; [done|].
    vm_compute. reflexivity.
Defined.

Lemma dispatch_log norm s :
  Str.truthy norm = true ->
  exists snap,
    log (dispatch norm s) = log s ++ [ {| ev := onStart norm; seen := snap |} ]
    /\ Snap.inFlightQuery snap = Some norm
    /\ Snap.isInFlight snap = true
    /\ Snap.lastResult snap = lastResult s
    /\ Snap.latestText snap = latestText s.
Proof.
  intros Ht. unfold dispatch, newAbortController, abort.
  destruct (abortController s); repeat case_match; simpl;
    eexists; (split; [reflexivity|]); simpl; by rewrite ?Ht.
Qed.

(** [onStart] is called from inside [run], once the query has been
    marked as in flight and before its chain has run any link: at that
    moment [getState()] shows the new query in flight, and the new
    attempt has not called [fetch] yet. *)
Theorem onStart_sees_query_in_flight s q now :
  gated (normalizeQuery q) s = false ->
  inFlightQuery s <> Some (normalizeQuery q) ->
  (getCached now (normalizeQuery q) s).1 = None \/ refreshOnCache (opts s) = true ->
  exists snap a,
    last (log (run now (Some q) s))
    = Some {| ev := onStart (normalizeQuery q); seen := snap |}
    /\ Snap.inFlightQuery snap = Some (normalizeQuery q)
    /\ Snap.isInFlight snap = true
    /\ Snap.lastResult snap = lastResult s
    /\ last (attempts (run now (Some q) s)) = Some a
    /\ a_norm a = normalizeQuery q /\ a_phase a = Queued.
Proof.
  intros Hg Hin Hhit. rewrite (run_dispatches now q s Hg Hin Hhit).
  set (s2 := cacheStage now (normalizeQuery q) s).
  destruct (dispatch_log (normalizeQuery q) s2 (truthy_not_gated _ _ Hg))
    as (snap & Hlog & H1 & H2 & H3 & _).
  destruct (core_eq_env s s2 (cacheStage_core now (normalizeQuery q) s))
    as (_ & _ & _ & Hr & _).
  exists snap. eexists.
  rewrite Hlog, last_snoc, dispatch_attempts, last_snoc.
  repeat (split; [done|]). split; [congruence|]. done.
Qed.

Lemma onStart_sees_query_in_flight_witness :
  exists snap a,
    last (log (run 0 (Some "hello") sample_init))
    = Some {| ev := onStart "hello"; seen := snap |}
    /\ Snap.inFlightQuery snap = Some "hello"
    /\ Snap.isInFlight snap = true
    /\ Snap.lastResult snap = lastResult sample_init
    /\ last (attempts (run 0 (Some "hello") sample_init)) = Some a
    /\ a_norm a = "hello" /\ a_phase a = Queued.
Proof.
  apply (onStart_sees_query_in_flight sample_init "hello" 0).
  - vm_compute. reflexivity.
  - vm_compute. discriminate.
  - left. vm_compute. reflexivity.
Defined.

(** ** The effect of a step on the log of calls *)

Lemma effect_pre s0 s s' :
  calls s0 = calls s -> attempts s0 = attempts s -> seq s0 = seq s ->
  lastResult s0 = lastResult s -> lastCompletedQuery s0 = lastCompletedQuery s ->
  effect s0 s' -> effect s s'.
Proof.
  intros Hc Ha Hs Hr Hl H.
  destruct H; rewrite ?Hc, ?Ha, ?Hs, ?Hr, ?Hl in *;
    [eapply eff_quiet | eapply eff_dispatch | eapply eff_fetch
    | eapply eff_silent | eapply eff_success | eapply eff_error
    | eapply eff_finally]; eauto.
Qed.

Lemma effect_none s s' :
  calls s' = calls s -> attempts s' = attempts s ->
  lastResult s' = lastResult s -> lastCompletedQuery s' = lastCompletedQuery s ->
  effect s s'.
Proof.
  intros Hc Ha Hr Hl. apply (eff_quiet s s' []); try done.
  by rewrite app_nil_r.
Qed.

Lemma cacheStage_hits now norm s :
  forallb is_cache_hit
    match (getCached now norm s).1 with
    | Some r => [onSuccess norm r true]
    | None => []
    end = true.
Proof. by destruct (getCached now norm s).1. Qed.

Lemma run_effect now q s : effect s (run now q s).
Proof.
  set (norm := normalizeQuery (default (latestText s) q)).
  pose proof (cacheStage_core now norm s) as Hcore.
  destruct (core_eq_vars s _ Hcore) as (_ & _ & Ha & Hs & _).
  destruct (core_eq_env s _ Hcore) as (_ & _ & _ & Hr & Hl).
  pose proof (cacheStage_calls now norm s) as Hc.
  pose proof (cacheStage_hits now norm s) as Hh.
  destruct (run_cases now q s) as [-> | [Hg [-> | ->]]]; fold norm.
  - by apply effect_none.
  - by eapply eff_quiet.
  - destruct (dispatch_vars norm (cacheStage now norm s))
      as (_ & Hr' & Hl' & _).
    eapply eff_dispatch.
    + rewrite dispatch_calls, Hc, <- app_assoc. done.
    + exact Hh.
    + by rewrite dispatch_attempts, Ha, Hs.
    + congruence.
    + congruence.
Qed.

Lemma clearTimer_obs s :
  calls (clearTimer s) = calls s /\ attempts (clearTimer s) = attempts s
  /\ seq (clearTimer s) = seq s /\ lastResult (clearTimer s) = lastResult s
  /\ lastCompletedQuery (clearTimer s) = lastCompletedQuery s.
Proof. unfold clearTimer. by destruct (timerId s). Qed.

Lemma schedule_obs s :
  calls (schedule s) = calls s /\ attempts (schedule s) = attempts s
  /\ lastResult (schedule s) = lastResult s
  /\ lastCompletedQuery (schedule s) = lastCompletedQuery s.
Proof.
  destruct (clearTimer_obs s) as (H1 & H2 & _ & H4 & H5).
  unfold schedule, setTimeout. repeat case_match; by simpl.
Qed.

Lemma invoke_effect now c s : effect s (invoke now c s).
Proof.
  destruct c as [text | text | | | newOpts | ]; cbn [invoke].
  - unfold setText.
    destruct (schedule_obs (set_latestText (default "" text) s)) as (H1 & H2 & H3 & H4).
    by apply effect_none.
  - unfold runImmediate.
    set (s1 := match text with Some t => set_latestText t s | None => s end).
    destruct (clearTimer_obs s1) as (H1 & H2 & H3 & H4 & H5).
    eapply effect_pre; [| | | | | apply run_effect].
    + rewrite H1. unfold s1. by destruct text.
    + rewrite H2. unfold s1. by destruct text.
    + rewrite H3. unfold s1. by destruct text.
    + rewrite H4. unfold s1. by destruct text.
    + rewrite H5. unfold s1. by destruct text.
  - destruct (cancel_fields s) as (_ & _ & _ & _ & Hlog & _ & _ & Hr & Hl).
    apply effect_none; try done.
    + unfold calls. by rewrite Hlog.
    + apply cancel_attempts.
  - by apply effect_none.
  - unfold setOptions. destruct newOpts; by apply effect_none.
  - by apply effect_none.
Qed.

Lemma step_effect now act s s' : step now act s = Some s' -> effect s s'.
Proof.
  destruct act as [c | id | i | i r | i err | i]; cbn [step].
  - intros [= <-]. apply invoke_effect.
  - case_match; [|done]. intros [= <-]. unfold timerCallback.
    eapply effect_pre; [| | | | | apply run_effect]; done.
  - unfold advance. destruct (attempts s !! i) as [a|] eqn:Hi; [|done].
    destruct (a_phase a) eqn:Hp; try done. intros [= <-].
    eapply (eff_fetch _ _ i a); try done.
    unfold calls, fetchLink. simpl. by rewrite map_app.
  - unfold advance. destruct (attempts s !! i) as [a|] eqn:Hi; [|done].
    destruct (a_phase a) eqn:Hp; try done. intros [= <-].
    unfold thenHandler. case_match.
    + eapply (eff_silent _ _ i a Handled); try done; [by left | by rewrite Hp].
    + eapply (eff_success _ _ i a r); try done.
      unfold calls. simpl. by rewrite map_app.
  - unfold advance. destruct (attempts s !! i) as [a|] eqn:Hi; [|done].
    destruct (a_phase a) eqn:Hp; try done. intros [= <-].
    unfold catchHandler.
    destruct (negb (a_seq a =? seq s)%nat);
      [eapply (eff_silent _ _ i a Handled); try done; [by left | by rewrite Hp]|].
    destruct (negb _).
    + eapply (eff_error _ _ i a err); try done.
      unfold calls. simpl. by rewrite map_app.
    + eapply (eff_silent _ _ i a Handled); try done; [by left | by rewrite Hp].
  - unfold advance. destruct (attempts s !! i) as [a|] eqn:Hi; [|done].
    destruct (a_phase a) eqn:Hp; try done. intros [= <-].
    unfold finallyHandler. case_match.
    + eapply (eff_silent _ _ i a Done); try done; [by right | by rewrite Hp].
    + eapply (eff_finally _ _ i a); try done.
      unfold calls. simpl. by rewrite map_app.
Qed.

(** ** Counting calls and phases *)

Lemma count_app (p : event -> bool) (l l' : list event) :
  List.length (List.filter p (l ++ l'))
  = (List.length (List.filter p l) + List.length (List.filter p l'))%nat.
Proof. by rewrite List.filter_app, List.length_app. Qed.

Lemma cache_hits_uncounted (p : event -> bool) l :
  (forall e, is_cache_hit e = true -> p e = false) ->
  forallb is_cache_hit l = true -> List.filter p l = [].
Proof.
  intros Hp. induction l as [|e l IH]; [done|]. simpl.
  intros [He Hl]%andb_prop. rewrite (Hp e He). by apply IH.
Qed.

Lemma hit_not_start e : is_cache_hit e = true -> is_start e = false.
Proof. by destruct e. Qed.
Lemma hit_not_fetch e : is_cache_hit e = true -> is_fetch e = false.
Proof. by destruct e. Qed.
Lemma hit_not_outcome e : is_cache_hit e = true -> is_outcome e = false.
Proof. destruct e as [|? ? []| | |]; done. Qed.
Lemma hit_not_finally e : is_cache_hit e = true -> is_any_finally e = false.
Proof. by destruct e. Qed.

Lemma last_fresh_app l l' :
  last_fresh (l ++ l')
  = match last_fresh l' with Some x => Some x | None => last_fresh l end.
Proof.
  induction l as [|e l IH]; simpl.
  - by destruct (last_fresh l').
  - rewrite IH. by destruct (last_fresh l').
Qed.

Lemma last_fresh_hits l : forallb is_cache_hit l = true -> last_fresh l = None.
Proof.
  induction l as [|e l IH]; [done|]. simpl.
  intros [He Hl]%andb_prop. rewrite (IH Hl).
  destruct e as [|? ? []| | |]; done.
Qed.

Lemma count_phase_snoc P l a :
  count_phase P (l ++ [a])
  = (count_phase P l + if P (a_phase a) then 1 else 0)%nat.
Proof.
  unfold count_phase. rewrite List.filter_app, List.length_app. simpl.
  by destruct (P (a_phase a)).
Qed.

Lemma count_phase_insert P : forall l i a b,
  l !! i = Some a ->
  (count_phase P (<[i := b]> l) + (if P (a_phase a) then 1 else 0)
   = count_phase P l + if P (a_phase b) then 1 else 0)%nat.
Proof.
  unfold count_phase.
  induction l as [|x l IH]; intros [|i] a b; simpl; try done.
  - intros [= ->]. destruct (P (a_phase a)), (P (a_phase b)); simpl; lia.
  - intros Hi. specialize (IH i a b Hi).
    destruct (P (a_phase x)); simpl; lia.
Qed.

Lemma effect_calls_ok s s' : effect s s' -> calls_ok s -> calls_ok s'.
Proof.
  intros He [H1 H2 H3 H4 H5]. unfold count_calls in *.
  destruct He as
    [ l Hc Hl Ha Hr Hq | l q Hc Hl Ha Hr Hq | i a sg Hi Hp Ha Hc Hr Hq
    | i a p Hi Hp -> Ha Hc Hr Hq | i a r Hi Hp Ha Hc Hr Hq
    | i a err Hi Hp Ha Hc Hr Hq | i a Hi Hp Ha Hc Hr Hq ].
  - split; unfold count_calls; rewrite ?Hc, ?Ha, ?Hr, ?Hq, ?count_app, ?last_fresh_app.
    + by rewrite (cache_hits_uncounted _ l hit_not_start Hl), H1, Nat.add_0_r.
    + by rewrite (cache_hits_uncounted _ l hit_not_fetch Hl), H2, Nat.add_0_r.
    + rewrite (cache_hits_uncounted _ l hit_not_outcome Hl). simpl. lia.
    + rewrite (cache_hits_uncounted _ l hit_not_finally Hl). simpl. lia.
    + by rewrite (last_fresh_hits l Hl).
  - split; unfold count_calls;
      rewrite ?Hc, ?Ha, ?Hr, ?Hq, ?count_app, ?last_fresh_app, ?count_phase_snoc,
        ?List.length_app; simpl.
    + rewrite (cache_hits_uncounted _ l hit_not_start Hl), H1. simpl. lia.
    + rewrite (cache_hits_uncounted _ l hit_not_fetch Hl), H2. simpl. lia.
    + rewrite (cache_hits_uncounted _ l hit_not_outcome Hl). simpl. lia.
    + rewrite (cache_hits_uncounted _ l hit_not_finally Hl). simpl. lia.
    + by rewrite (last_fresh_hits l Hl).
  - pose proof (count_phase_insert fetch_called _ i a (set_phase Pending a) Hi) as E1.
    pose proof (count_phase_insert settled _ i a (set_phase Pending a) Hi) as E2.
    pose proof (count_phase_insert finished _ i a (set_phase Pending a) Hi) as E3.
    rewrite Hp in E1, E2, E3. simpl in E1, E2, E3.
    split; unfold count_calls;
      rewrite ?Hc, ?Ha, ?Hr, ?Hq, ?count_app, ?last_fresh_app; simpl;
      rewrite ?length_insert; try lia. done.
  - pose proof (count_phase_insert fetch_called _ i a
                  (set_phase (if phase_eqb (a_phase a) Pending then Handled else Done) a) Hi) as E1.
    pose proof (count_phase_insert settled _ i a
                  (set_phase (if phase_eqb (a_phase a) Pending then Handled else Done) a) Hi) as E2.
    pose proof (count_phase_insert finished _ i a
                  (set_phase (if phase_eqb (a_phase a) Pending then Handled else Done) a) Hi) as E3.
    split; unfold count_calls; rewrite ?Hc, ?Ha, ?Hr, ?Hq; rewrite ?length_insert;
      try done; destruct Hp as [Hp|Hp]; rewrite Hp in E1, E2, E3; rewrite ?Hp; simpl in *; lia.
  - pose proof (count_phase_insert fetch_called _ i a (set_phase Handled a) Hi) as E1.
    pose proof (count_phase_insert settled _ i a (set_phase Handled a) Hi) as E2.
    pose proof (count_phase_insert finished _ i a (set_phase Handled a) Hi) as E3.
    rewrite Hp in E1, E2, E3. simpl in E1, E2, E3.
    split; unfold count_calls;
      rewrite ?Hc, ?Ha, ?Hr, ?Hq, ?count_app, ?last_fresh_app; simpl;
      rewrite ?length_insert; try lia. done.
  - pose proof (count_phase_insert fetch_called _ i a (set_phase Handled a) Hi) as E1.
    pose proof (count_phase_insert settled _ i a (set_phase Handled a) Hi) as E2.
    pose proof (count_phase_insert finished _ i a (set_phase Handled a) Hi) as E3.
    rewrite Hp in E1, E2, E3. simpl in E1, E2, E3.
    split; unfold count_calls;
      rewrite ?Hc, ?Ha, ?Hr, ?Hq, ?count_app, ?last_fresh_app; simpl;
      rewrite ?length_insert; try lia. done.
  - pose proof (count_phase_insert fetch_called _ i a (set_phase Done a) Hi) as E1.
    pose proof (count_phase_insert settled _ i a (set_phase Done a) Hi) as E2.
    pose proof (count_phase_insert finished _ i a (set_phase Done a) Hi) as E3.
    rewrite Hp in E1, E2, E3. simpl in E1, E2, E3.
    split; unfold count_calls;
      rewrite ?Hc, ?Ha, ?Hr, ?Hq, ?count_app, ?last_fresh_app; simpl;
      rewrite ?length_insert; try lia. done.
Qed.

Lemma exec_calls_ok tr : forall s s',
  calls_ok s -> exec tr s = Some s' -> calls_ok s'.
Proof.
  induction tr as [| [now a] tr IH]; simpl; intros s s' H.
  - by intros [= <-].
  - destruct (step now a s) as [s1|] eqn:E; [|done].
    apply IH. eapply effect_calls_ok; [|exact H]. by eapply step_effect.
Qed.

Lemma reachable_calls_ok s : reachable s -> calls_ok s.
Proof.
  intros (hasAC & arg & s0 & tr & Hc & He).
  eapply exec_calls_ok; [|exact He].
  unfold createOrchestrator in Hc. case_match; [done|].
  inversion Hc. split; simpl; done.
Qed.

Lemma count_phase_le P Q l :
  (forall p, P p = true -> Q p = true) ->
  (count_phase P l <= count_phase Q l)%nat.
Proof.
  intros HPQ. unfold count_phase. induction l as [|a l IH]; simpl; [lia|].
  destruct (P (a_phase a)) eqn:E.
  - rewrite (HPQ _ E). simpl. lia.
  - destruct (Q (a_phase a)); simpl; lia.
Qed.

Lemma count_phase_length P l : (count_phase P l <= List.length l)%nat.
Proof. unfold count_phase. apply List.filter_length_le. Qed.

(** Callback discipline, in numbers.  With callbacks that return
    normally, [onStart] has been called as many times as queries were
    dispatched ([seq] times); [fetch] has been called at most as often
    as [onStart]; the outcomes reported ([onSuccess] with
    [fromCache: false], and [onError]) are at most as many as the calls
    of [fetch], and so are the calls of [onFinally]. *)
Theorem callbacks_bounded_by_dispatches s :
  reachable s ->
  count_calls is_start s = seq s
  /\ (count_calls is_fetch s <= count_calls is_start s)%nat
  /\ (count_calls is_outcome s <= count_calls is_fetch s)%nat
  /\ (count_calls is_any_finally s <= count_calls is_fetch s)%nat.
Proof.
  intros Hr. destruct (reachable_calls_ok s Hr) as [H1 H2 H3 H4 _].
  destruct (wf_seq s (reachable_wf s Hr)) as [Hs _].
  pose proof (count_phase_length fetch_called (attempts s)).
  assert (count_phase settled (attempts s)
          <= count_phase fetch_called (attempts s))%nat
    by (apply count_phase_le; by intros []).
  assert (count_phase finished (attempts s)
          <= count_phase fetch_called (attempts s))%nat
    by (apply count_phase_le; by intros []).
  repeat split; lia.
Qed.

Lemma callbacks_bounded_by_dispatches_witness :
  count_calls is_start race_all_done = seq race_all_done
  /\ (count_calls is_fetch race_all_done <= count_calls is_start race_all_done)%nat
  /\ (count_calls is_outcome race_all_done <= count_calls is_fetch race_all_done)%nat
  /\ (count_calls is_any_finally race_all_done <= count_calls is_fetch race_all_done)%nat.
Proof.
  apply (callbacks_bounded_by_dispatches race_all_done).
  apply (sample_reachable
           (race_prefix ++ race_suffix
            ++ [(500, Resolve 0 ["f"]); (500, Finally 0)])).
  vm_compute. reflexivity.
Defined.

(** [getState().lastResult] and [lastCompletedQuery] are the arguments
    of the most recent [onSuccess] call with [fromCache: false]; a
    cache hit reports a result without recording it as the last one. *)
Theorem lastResult_is_last_fetched_success s :
  reachable s ->
  last_fresh (calls s)
  = match Snap.lastResult (getState s) with
    | Some r => Some (Snap.lastCompletedQuery (getState s), r)
    | None => None
    end.
Proof. intros Hr. exact (co_fresh s (reachable_calls_ok s Hr)). Qed.

Lemma lastResult_is_last_fetched_success_witness :
  last_fresh (calls hello_rearmed)
  = match Snap.lastResult (getState hello_rearmed) with
    | Some r => Some (Snap.lastCompletedQuery (getState hello_rearmed), r)
    | None => None
    end.
Proof.
  apply (lastResult_is_last_fetched_success hello_rearmed).
  apply (sample_reachable (hello_dispatch ++ hello_success ++ world_search)).
  vm_compute. reflexivity.
Defined.

(** * The trigger filter *)

(** ** The decimal test *)

Lemma lastChar_cons c r :
  r <> EmptyString -> lastChar (String c r) = lastChar r.
Proof. by destruct r. Qed.

Lemma lastChar_some_nonempty s d : lastChar s = Some d -> s <> EmptyString.
Proof. by destruct s. Qed.

Lemma digits_to_end_last s :
  digits_to_end s = true -> exists d, lastChar s = Some d /\ is_digit d = true.
Proof.
  induction s as [|c r IH]; [done|]. destruct r as [|c' r'].
  - simpl. intros H. by exists c.
  - intros H. change (is_digit c && digits_to_end (String c' r') = true) in H.
    apply andb_prop in H as [_ H]. destruct (IH H) as (d & Hd & Hdig).
    exists d. split; [|done]. by rewrite lastChar_cons.
Qed.

Lemma decimal_to_end_last s : forall seen,
  decimal_to_end seen s = true ->
  exists d, lastChar s = Some d /\ is_digit d = true.
Proof.
  induction s as [|c r IH]; intros seen; [done|]. cbn [decimal_to_end].
  destruct (is_digit c).
  - intros H. destruct (IH _ H) as (d & Hd & Hdig). exists d. split; [|done].
    rewrite lastChar_cons; [done|]. by eapply lastChar_some_nonempty.
  - intros [_ H]%andb_prop. destruct (digits_to_end_last _ H) as (d & Hd & Hdig).
    exists d. split; [|done].
    rewrite lastChar_cons; [done|]. by eapply lastChar_some_nonempty.
Qed.

Lemma test_from_last (p : string -> bool) (P : ascii -> Prop) s :
  (forall t, p t = true -> exists d, lastChar t = Some d /\ P d) ->
  test_from p s = true -> exists d, lastChar s = Some d /\ P d.
Proof.
  intros Hp. induction s as [|c r IH]; cbn [test_from].
  - rewrite orb_false_r. apply Hp.
  - intros [H|H]%orb_prop; [by apply Hp|].
    destruct (IH H) as (d & Hd & HP). exists d. split; [|done].
    change (lastChar (String c r) = Some d).
    rewrite lastChar_cons; [done|]. by eapply lastChar_some_nonempty.
Qed.

Lemma digit_not_sentence_end d : is_digit d = true -> is_sentence_end d = false.
Proof. destruct d as [[] [] [] [] [] [] [] []]; vm_compute; congruence. Qed.

Lemma decimal_needs_final_digit s :
  endsWithPunctuation s = true -> endsWithDecimal s = false.
Proof.
  intros Hp. apply not_true_is_false. intros Hd.
  destruct (test_from_last _ (fun d => is_digit d = true) s
              (fun t => decimal_to_end_last t false) Hd) as (d & Hl & Hdig).
  unfold endsWithPunctuation in Hp. rewrite Hl in Hp.
  by rewrite (digit_not_sentence_end d Hdig) in Hp.
Qed.

(** ** Words and the normalized length *)

Lemma snoc_nonempty acc c : nonempty (String.append acc (String c "")) = true.
Proof. unfold nonempty. rewrite append_length. simpl. apply Nat.ltb_lt. lia. Qed.

(** Every word after the first costs the normalized text two code
    units: its separator and at least one code unit of its own. *)
Lemma words_collapse s : forall acc in_sep,
  (2 * List.length (List.filter nonempty (split_ws acc in_sep s))
   <= String.length (Str.collapse in_sep s) + if nonempty acc then 2 else 1)%nat.
Proof.
  induction s as [|c r IH]; intros acc in_sep.
  - simpl. destruct (nonempty acc); simpl; lia.
  - cbn [split_ws Str.collapse]. destruct (Str.is_space c).
    + destruct in_sep.
      * apply IH.
      * specialize (IH "" true). cbn [List.filter].
        change (nonempty "") with false in IH.
        destruct (nonempty acc); simpl in *; lia.
    + specialize (IH (String.append acc (String c "")) false).
      rewrite snoc_nonempty in IH. simpl. destruct (nonempty acc); lia.
Qed.

Lemma words_normalized_length n :
  (2 * List.length (words n) <= String.length (Str.collapse false n) + 1)%nat.
Proof. exact (words_collapse n "" false). Qed.

Lemma test_class_nonempty p s : test_class p s = true -> s <> "".
Proof. by destruct s. Qed.

Lemma trim_empty : Str.trim "" = "".
Proof. reflexivity. Qed.

Lemma normalizeQuery_trim_length text :
  Str.trim text <> "" ->
  String.length (normalizeQuery text)
  = String.length (Str.collapse false (Str.trim text)).
Proof.
  intros Hne. unfold normalizeQuery, Str.truthy. rewrite negb_involutive.
  destruct (String.eqb_spec text "") as [-> | _]; [done|].
  apply toLowerCase_length.
Qed.

(** The nested tests of [shouldTriggerMemorySearch], as one condition. *)
Lemma shouldTrigger_cases text :
  shouldTriggerMemorySearch text
  = (5 <=? Str.len (Str.trim text))
    && test_class is_letter (Str.trim text)
    && (2 <=? List.length (words (Str.trim text)))%nat
    && (if endsWithPunctuation (Str.trim text)
        then negb (mentionsUrl (Str.trim text)
                   && negb (endsWithChar (dropLast (Str.trim text)) " "))
             && negb (endsWithDecimal (Str.trim text))
        else (3 <=? List.length (words (Str.trim text)))%nat).
Proof.
  unfold shouldTriggerMemorySearch.
  destruct (Str.len (Str.trim text) <? 5) eqn:E1.
  - cbn [orb]. by replace (5 <=? Str.len (Str.trim text)) with false by lia.
  - replace (5 <=? Str.len (Str.trim text)) with true by lia.
    destruct (test_class is_letter (Str.trim text)); cbn [orb negb andb]; [|done].
    destruct (List.length (words (Str.trim text)) <? 2)%nat eqn:E3.
    + apply Nat.ltb_lt in E3.
      by replace (2 <=? List.length (words (Str.trim text)))%nat with false
        by (symmetry; apply Nat.leb_gt; lia).
    + apply Nat.ltb_ge in E3.
      replace (2 <=? List.length (words (Str.trim text)))%nat with true
        by (symmetry; apply Nat.leb_le; lia).
      cbn [andb]. destruct (endsWithPunctuation (Str.trim text)).
      * destruct (mentionsUrl (Str.trim text)
                  && negb (endsWithChar (dropLast (Str.trim text)) " "));
          cbn [negb andb]; [done|].
        by destruct (endsWithDecimal (Str.trim text)).
      * by destruct (3 <=? List.length (words (Str.trim text)))%nat.
Qed.

Lemma shouldTrigger_basics text :
  shouldTriggerMemorySearch text = true ->
  5 <= Str.len (Str.trim text)
  /\ test_class is_letter (Str.trim text) = true
  /\ (2 <= List.length (words (Str.trim text)))%nat.
Proof.
  rewrite shouldTrigger_cases.
  intros [[[H1 H2]%andb_prop H3]%andb_prop _]%andb_prop.
  apply Nat.leb_le in H3. split; [lia|done].
Qed.

Lemma shouldTrigger_unpunctuated text :
  endsWithPunctuation (Str.trim text) = false ->
  shouldTriggerMemorySearch text = true ->
  (3 <= List.length (words (Str.trim text)))%nat.
Proof.
  intros Hp. rewrite shouldTrigger_cases, Hp.
  intros [_ H]%andb_prop. by apply Nat.leb_le.
Qed.

(** ** What the filter accepts *)

(** A text that ends a sentence triggers a search exactly when it has
    five code units, a letter and two words, and - when it mentions a
    URL - a blank before the final mark.  The decimal test that follows
    in the source never rejects anything: it needs a final digit, and
    this branch is entered with a final [.], [!] or [?]. *)
Theorem punctuated_trigger_iff text :
  endsWithPunctuation (Str.trim text) = true ->
  (shouldTriggerMemorySearch text = true
   <-> 5 <= Str.len (Str.trim text)
       /\ test_class is_letter (Str.trim text) = true
       /\ (2 <= List.length (words (Str.trim text)))%nat
       /\ (mentionsUrl (Str.trim text) = true ->
           endsWithChar (dropLast (Str.trim text)) " " = true)).
Proof.
  intros Hp. rewrite shouldTrigger_cases, Hp, (decimal_needs_final_digit _ Hp).
  cbn [negb]. rewrite andb_true_r. split.
  - intros [[[H1 H2]%andb_prop H3]%andb_prop H4]%andb_prop.
    apply Nat.leb_le in H3. repeat split; [lia|done|done|].
    intros Hu. rewrite Hu in H4.
    by destruct (endsWithChar (dropLast (Str.trim text)) " ").
  - intros (H1 & H2 & H3 & H4). rewrite H2.
    replace (5 <=? Str.len (Str.trim text)) with true by lia.
    apply Nat.leb_le in H3. rewrite H3. cbn [andb].
    destruct (mentionsUrl (Str.trim text)); [|done]. by rewrite H4.
Qed.

Lemma punctuated_trigger_iff_witness :
  shouldTriggerMemorySearch "pi is 3.14."%string = true
  <-> 5 <= Str.len (Str.trim "pi is 3.14.")
      /\ test_class is_letter (Str.trim "pi is 3.14.") = true
      /\ (2 <= List.length (words (Str.trim "pi is 3.14.")))%nat
      /\ (mentionsUrl (Str.trim "pi is 3.14.") = true ->
          endsWithChar (dropLast (Str.trim "pi is 3.14.")) " " = true).
Proof. apply (punctuated_trigger_iff "pi is 3.14."). vm_compute. reflexivity. Defined.

(** Without a final [.], [!] or [?], a text triggers a search exactly
    when it has a letter and three words; the test on its length is
    then implied. *)
Theorem unpunctuated_trigger_iff text :
  endsWithPunctuation (Str.trim text) = false ->
  (shouldTriggerMemorySearch text = true
   <-> test_class is_letter (Str.trim text) = true
       /\ (3 <= List.length (words (Str.trim text)))%nat).
Proof.
  intros Hp. rewrite shouldTrigger_cases, Hp. split.
  - intros [[[H1 H2]%andb_prop H3]%andb_prop H4]%andb_prop.
    by apply Nat.leb_le in H4.
  - intros [H2 H3]. rewrite H2.
    pose proof (words_normalized_length (Str.trim text)) as Hw.
    pose proof (collapse_length false (Str.trim text)) as Hc.
    replace (5 <=? Str.len (Str.trim text)) with true
      by (unfold Str.len; lia).
    replace (2 <=? List.length (words (Str.trim text)))%nat with true
      by (symmetry; apply Nat.leb_le; lia).
    by apply Nat.leb_le in H3.
Qed.

Lemma unpunctuated_trigger_iff_witness :
  shouldTriggerMemorySearch "a b c"%string = true
  <-> test_class is_letter (Str.trim "a b c") = true
      /\ (3 <= List.length (words (Str.trim "a b c")))%nat.
Proof. apply (unpunctuated_trigger_iff "a b c"). vm_compute. reflexivity. Defined.

(** The query of an accepted text has at least three code units after
    normalization, and at least five when the text does not end a
    sentence: an orchestrator with the default [minLength] never gates
    an accepted text, and one with [minLength: 5] (the content scripts)
    gates only texts that end in [.], [!] or [?]. *)
Theorem accepted_text_and_the_length_gate text s :
  shouldTriggerMemorySearch text = true ->
  minLength (opts s) <= (if endsWithPunctuation (Str.trim text) then 3 else 5) ->
  gated (normalizeQuery text) s = false.
Proof.
  intros H Hm. destruct (shouldTrigger_basics text H) as (H1 & H2 & H3).
  pose proof (test_class_nonempty _ _ H2) as Hne.
  pose proof (normalizeQuery_trim_length text Hne) as Hl.
  pose proof (words_normalized_length (Str.trim text)) as Hw.
  assert (3 <= Str.len (normalizeQuery text)) as H3'
    by (unfold Str.len; lia).
  unfold gated, Str.truthy.
  destruct (String.eqb_spec (normalizeQuery text) "") as [E|_];
    [rewrite E in H3'; unfold Str.len in H3'; simpl in H3'; lia|].
  cbn [negb orb]. apply Z.ltb_ge.
  destruct (endsWithPunctuation (Str.trim text)) eqn:Hp; [lia|].
  pose proof (shouldTrigger_unpunctuated text Hp H) as Hw3.
  unfold Str.len. lia.
Qed.

Lemma accepted_text_and_the_length_gate_witness :
  gated (normalizeQuery "explain react hooks") platform_init = false.
Proof.
  apply (accepted_text_and_the_length_gate "explain react hooks" platform_init);
    vm_compute; [reflexivity | discriminate].
Defined.

(** ** White space around the text *)

Lemma trimStart_app_space pre t :
  all_space pre = true -> Str.trimStart (String.append pre t) = Str.trimStart t.
Proof.
  induction pre as [|c r IH]; [done|]. rewrite append_cons. simpl.
  intros [Hc Hr]%andb_prop. rewrite Hc. by apply IH.
Qed.

Lemma trimEnd_all_space s : all_space s = true -> Str.trimEnd s = "".
Proof.
  induction s as [|c r IH]; [done|]. simpl.
  intros [Hc Hr]%andb_prop. by rewrite (IH Hr), Hc.
Qed.

Lemma trimEnd_app_space t post :
  all_space post = true -> Str.trimEnd (String.append t post) = Str.trimEnd t.
Proof.
  intros Hp. induction t as [|c r IH].
  - rewrite append_nil_l. by apply trimEnd_all_space.
  - rewrite append_cons. simpl. by rewrite IH.
Qed.

Lemma all_space_app s t :
  all_space (String.append s t) = all_space s && all_space t.
Proof.
  induction s as [|c r IH]; [done|]. rewrite append_cons. simpl.
  by rewrite IH, andb_assoc.
Qed.

Lemma trimStart_app t post :
  all_space t = false ->
  Str.trimStart (String.append t post) = String.append (Str.trimStart t) post.
Proof.
  induction t as [|c r IH]; [done|]. rewrite append_cons. simpl.
  destruct (Str.is_space c); [exact IH|]. intros _. by rewrite append_cons.
Qed.

Lemma trim_app_space pre t post :
  all_space pre = true -> all_space post = true ->
  Str.trim (String.append pre (String.append t post)) = Str.trim t.
Proof.
  intros Hpre Hpost. unfold Str.trim. rewrite (trimStart_app_space _ _ Hpre).
  destruct (all_space t) eqn:Ht.
  - rewrite (trimStart_all_space t Ht).
    rewrite trimStart_all_space; [done|]. by rewrite all_space_app, Ht, Hpost.
  - rewrite (trimStart_app _ _ Ht). by apply trimEnd_app_space.
Qed.

(** White space before and after the text makes no difference to the
    filter: all its tests read the trimmed text. *)
Theorem trigger_ignores_surrounding_space pre text post :
  all_space pre = true -> all_space post = true ->
  shouldTriggerMemorySearch (String.append pre (String.append text post))
  = shouldTriggerMemorySearch text.
Proof.
  intros Hpre Hpost. unfold shouldTriggerMemorySearch.
  by rewrite (trim_app_space pre text post Hpre Hpost).
Qed.

Lemma trigger_ignores_surrounding_space_witness :
  shouldTriggerMemorySearch
    (String.append "  " (String.append "explain react hooks" (String (ascii_of_nat 10) "")))
  = shouldTriggerMemorySearch "explain react hooks".
Proof.
  apply (trigger_ignores_surrounding_space "  " "explain react hooks"
           (String (ascii_of_nat 10) "")); reflexivity.
Defined.

(** * The input hook *)

Lemma core_eq_latestText s s' : core_eq s s' -> latestText s' = latestText s.
Proof. unfold core_eq. intros ->. reflexivity. Qed.

(** [run] leaves [latestText] alone, and dispatches at most the
    normalized form of its argument. *)
Lemma run_dispatched now q s :
  let norm := normalizeQuery (default (latestText s) q) in
  latestText (run now q s) = latestText s
  /\ (dispatched (run now q s) = dispatched s
      \/ (gated norm s = false
          /\ dispatched (run now q s) = dispatched s ++ [norm])).
Proof.
  intros norm. destruct (run_shape now q s) as (s2 & Hcore & Hrun).
  pose proof (core_eq_latestText _ _ Hcore) as Hl.
  destruct (core_eq_vars _ _ Hcore) as (_ & _ & Ha & _).
  destruct Hrun as [-> | [Hg ->]].
  - split; [done|]. left. unfold dispatched. by rewrite Ha.
  - destruct (dispatch_vars norm s2) as (Hl' & _). fold norm.
    split; [by rewrite Hl'|].
    right. split; [done|]. unfold dispatched.
    by rewrite dispatch_attempts, map_app, Ha.
Qed.

Lemma advance_typing i from to k s s' :
  (forall a s0, latestText (k a s0) = latestText s0
                /\ attempts (k a s0) = attempts s0) ->
  advance i from to k s = Some s' ->
  latestText s' = latestText s /\ dispatched s' = dispatched s.
Proof.
  intros Hk. unfold advance. destruct (attempts s !! i) as [a|] eqn:Hi; [|done].
  destruct (phase_eqb (a_phase a) from); [|done]. intros [= <-].
  destruct (Hk a s) as [Hl Ha]. split; [done|].
  unfold dispatched. cbn. rewrite Ha, list_fmap_insert.
  apply list_insert_id. by rewrite list_lookup_fmap, Hi.
Qed.

Lemma loop_step_typing now act s s' :
  loop_action act = true -> step now act s = Some s' ->
  latestText s' = latestText s
  /\ (dispatched s' = dispatched s
      \/ (gated (normalizeQuery (latestText s)) s = false
          /\ dispatched s' = dispatched s ++ [normalizeQuery (latestText s)])).
Proof.
  destruct act as [c | id | i | i r | i err | i]; cbn [step loop_action];
    [done | | | | |]; intros _.
  - destruct (armed id s); [|done]. intros [= <-]. unfold timerCallback.
    match goal with |- context [run ?n ?q ?s0] =>
      destruct (run_dispatched n q s0) as [Hl Hd] end.
    split; [exact Hl|]. exact Hd.
  - intros H. apply advance_typing in H as [Hl Hd]; [by split; [|left]|].
    intros a s0. split.
    + apply (handlers_keep_latestText now a [] network_down s0).
    + apply (handlers_keep_attempts now a [] network_down s0).
  - intros H. apply advance_typing in H as [Hl Hd]; [by split; [|left]|].
    intros a s0. split.
    + apply (handlers_keep_latestText now a r network_down s0).
    + apply (handlers_keep_attempts now a r network_down s0).
  - intros H. apply advance_typing in H as [Hl Hd]; [by split; [|left]|].
    intros a s0. split.
    + apply (handlers_keep_latestText now a [] err s0).
    + apply (handlers_keep_attempts now a [] err s0).
  - intros H. apply advance_typing in H as [Hl Hd]; [by split; [|left]|].
    intros a s0. split.
    + apply (handlers_keep_latestText now a [] network_down s0).
    + apply (handlers_keep_attempts now a [] network_down s0).
Qed.

Lemma gated_empty s : gated "" s = true.
Proof. reflexivity. Qed.

Lemma handler_cases now text h s :
  handler now text h s = (h, s)
  \/ (shouldTriggerMemorySearch text = true
      /\ handler now text h s
         = ({| lastTriggeredText := text; lastTriggerTime := now |},
            setText (Some text) s)).
Proof.
  unfold handler.
  destruct (String.eqb text (lastTriggeredText h)
            && (now - lastTriggerTime h <? MIN_TRIGGER_INTERVAL)); [by left|].
  destruct (shouldTriggerMemorySearch text); [by right | by left].
Qed.

Lemma page_step_typing_ok now e p p' :
  typing_ok p -> page_step now e p = Some p' -> typing_ok p'.
Proof.
  intros [H1 H2 H3]. destruct p as [h s]. simpl in *.
  destruct e as [text | act]; cbn [page_step fst snd].
  - intros [= <-]. destruct (handler_cases now text h s) as [-> | [Ht ->]];
      [by split|].
    destruct (setText_vars (Some text) s) as (Hl & _ & Ha).
    split; cbn [fst snd lastTriggeredText].
    + by rewrite Hl.
    + rewrite Hl. by right.
    + unfold dispatched. rewrite Ha. exact H3.
  - destruct (loop_action act) eqn:El; [|done].
    destruct (step now act s) as [s'|] eqn:Es; [|done]. intros [= <-].
    destruct (loop_step_typing now act s s' El Es) as [Hl Hd].
    split; cbn [fst snd].
    + congruence.
    + by rewrite Hl.
    + destruct Hd as [-> | [Hg ->]]; [exact H3|].
      intros q [Hq | [<- | []]]%in_app_or; [by apply H3|].
      destruct H2 as [He | Ht]; [by rewrite He in Hg|].
      by exists (latestText s).
Qed.

Lemma page_exec_typing_ok tr : forall p p',
  typing_ok p -> page_exec tr p = Some p' -> typing_ok p'.
Proof.
  induction tr as [| [now e] tr IH]; simpl; intros p p' H.
  - by intros [= <-].
  - destruct (page_step now e p) as [p1|] eqn:E; [|done].
    apply IH. by eapply page_step_typing_ok.
Qed.

(** While the user only types, the orchestrator searches for nothing
    but accepted text: [latestText] is the text that the hook forwarded
    last, and every query dispatched by the debounce timer is the
    normalized form of a text that [shouldTriggerMemorySearch]
    accepted. *)
Theorem typing_searches_only_accepted_text hasAC arg s0 tr h s :
  createOrchestrator hasAC arg = Normal s0 ->
  page_exec tr (initialHook, s0) = Some (h, s) ->
  latestText s = lastTriggeredText h
  /\ forall q, In q (dispatched s) ->
       exists text, shouldTriggerMemorySearch text = true
                    /\ q = normalizeQuery text.
Proof.
  intros Hc He.
  assert (typing_ok (initialHook, s0)) as H0.
  { unfold createOrchestrator in Hc. case_match; [done|].
    inversion Hc. split; simpl; [done | by left | done]. }
  destruct (page_exec_typing_ok tr _ _ H0 He) as [H1 _ H3].
  split; [exact H1 | exact H3].
Qed.

Lemma typing_searches_only_accepted_text_witness :
  latestText (snd typed_done) = lastTriggeredText (fst typed_done)
  /\ forall q, In q (dispatched (snd typed_done)) ->
       exists text, shouldTriggerMemorySearch text = true
                    /\ q = normalizeQuery text.
Proof.
  apply (typing_searches_only_accepted_text true platform_options platform_init
           typed_question (fst typed_done) (snd typed_done));
    vm_compute; reflexivity.
Defined.
